(** * cpp-search-server: a shallow embedding of the search engine,
      the request queue and the paginator, with the properties of their
      specification.

    Conventions of the embedding.
    - [int] is a [Z]; a conversion to [int] is written out ([to_int]).
    - [double] is the kernel's binary64 [float]; [log] of <cmath> is a
      parameter ([Cmath]), [std::sort] of <algorithm> is a parameter with the
      contract the C++ standard gives it ([Algorithm], [AlgorithmSpec]).
    - [std::set<K>] is a strictly increasing list of keys and [std::map<K,V>]
      a list of pairs strictly increasing in the key, in the order in which
      the containers are iterated.
    - A function that can throw returns a [result]; a member function that
      also mutates the object returns the object as the exception leaves it. *)

From Stdlib Require Import ZArith List String Ascii Bool Lia Floats.
From Stdlib Require Import Permutation Sorted OrderedTypeEx.
Import ListNotations.

Local Open Scope string_scope.
Local Open Scope list_scope.
Local Open Scope Z_scope.

(* ================================================================== *)
(** ** Exceptions *)

Inductive exception : Type :=
| invalid_argument (what : string)
| out_of_range (what : string).

Inductive result (A : Type) : Type :=
| Ok (a : A)
| Throw (e : exception).

Arguments Ok {A} a.
Arguments Throw {A} e.

Definition bind {A B : Type} (r : result A) (k : A -> result B) : result B :=
  match r with
  | Ok a => k a
  | Throw e => Throw e
  end.

Notation "x <- r ;; k" := (bind r (fun x => k))
  (at level 61, r at next level, right associativity).

(* ================================================================== *)
(** ** Integer conversions *)

(** [static_cast<int>]: the value modulo 2^32, read as two's complement. *)
Definition to_int (z : Z) : Z :=
  (z + 2147483648) mod 4294967296 - 2147483648.

(** Arithmetic of [uint64_t]. *)
Definition to_uint64 (z : Z) : Z := z mod 18446744073709551616.

(** A value of [size_t] (64 bits) from the caller's integer. *)
Definition to_size_t (z : Z) : Z := z mod 18446744073709551616.

(** An [int] as a [double] (exact). *)
Definition double_of_int (z : Z) : float :=
  if z <? 0 then PrimFloat.opp (PrimFloat.of_uint63 (Uint63.of_Z (- z)))
  else PrimFloat.of_uint63 (Uint63.of_Z z).

(** A [size_t] as a [double]. *)
Definition double_of_size (n : nat) : float :=
  PrimFloat.of_uint63 (Uint63.of_Z (Z.of_nat n)).

(* ================================================================== *)
(** ** Ordered containers: [std::set] and [std::map] *)

Class Compare (K : Type) := cmp : K -> K -> comparison.

#[global] Instance Compare_string : Compare string := String.compare.
#[global] Instance Compare_int : Compare Z := Z.compare.

(** The comparison is a strict total order on the keys. *)
Class CompareSpec (K : Type) `{Compare K} : Prop := {
  cmp_eq : forall a b : K, cmp a b = Eq <-> a = b;
  cmp_antisym : forall a b : K, cmp b a = CompOpp (cmp a b);
  cmp_trans : forall a b c : K, cmp a b = Lt -> cmp b c = Lt -> cmp a c = Lt
}.

Section Containers.
Context {K : Type} `{Compare K}.

(** [set::insert]. *)
Fixpoint set_insert (k : K) (s : list K) : list K :=
  match s with
  | [] => [k]
  | k' :: s' =>
      match cmp k k' with
      | Lt => k :: s
      | Eq => s
      | Gt => k' :: set_insert k s'
      end
  end.

(** [set::count]. *)
Fixpoint set_count (k : K) (s : list K) : nat :=
  match s with
  | [] => 0%nat
  | k' :: s' =>
      match cmp k k' with
      | Lt => 0%nat
      | Eq => 1%nat
      | Gt => set_count k s'
      end
  end.

Context {V : Type}.

(** [map::find], as an option. *)
Fixpoint map_find (k : K) (m : list (K * V)) : option V :=
  match m with
  | [] => None
  | (k', v) :: m' =>
      match cmp k k' with
      | Lt => None
      | Eq => Some v
      | Gt => map_find k m'
      end
  end.

(** [map::count]. *)
Definition map_count (k : K) (m : list (K * V)) : nat :=
  match map_find k m with
  | Some _ => 1%nat
  | None => 0%nat
  end.

(** [map::at]: throws [std::out_of_range] on an absent key. *)
Definition map_at (k : K) (m : list (K * V)) : result V :=
  match map_find k m with
  | Some v => Ok v
  | None => Throw (out_of_range "map::at")
  end.

(** [m[k] = f (m[k])], where [operator[]] first value-initialises an absent
    entry ([f None] is [f] applied to the value-initialised entry). *)
Fixpoint map_update (k : K) (f : option V -> V) (m : list (K * V)) : list (K * V) :=
  match m with
  | [] => [(k, f None)]
  | (k', v) :: m' =>
      match cmp k k' with
      | Lt => (k, f None) :: m
      | Eq => (k', f (Some v)) :: m'
      | Gt => (k', v) :: map_update k f m'
      end
  end.

(** [map::emplace]: inserts unless the key is present. *)
Definition map_emplace (k : K) (v : V) (m : list (K * V)) : list (K * V) :=
  map_update k (fun old => match old with Some v' => v' | None => v end) m.

(** [map::erase] by key. *)
Fixpoint map_erase (k : K) (m : list (K * V)) : list (K * V) :=
  match m with
  | [] => []
  | (k', v) :: m' =>
      match cmp k k' with
      | Lt => m
      | Eq => m'
      | Gt => (k', v) :: map_erase k m'
      end
  end.

(** The representation invariant of a map: keys strictly increasing. *)
Definition below (k : K) (m : list (K * V)) : Prop :=
  match m with
  | [] => True
  | (k', _) :: _ => cmp k k' = Lt
  end.

Fixpoint ordered (m : list (K * V)) : Prop :=
  match m with
  | [] => True
  | (k, _) :: m' => below k m' /\ ordered m'
  end.

End Containers.

(* ================================================================== *)
(** ** Strings and the tokenizer *)

Definition string_empty (s : string) : bool :=
  match s with
  | EmptyString => true
  | String _ _ => false
  end.

(** [s[0]]: the first character, the terminating null for an empty string. *)
Definition string_front (s : string) : ascii :=
  match s with
  | EmptyString => Ascii.zero
  | String c _ => c
  end.

(** [s.substr(1)] for a non-empty [s]. *)
Definition substr1 (s : string) : string :=
  match s with
  | EmptyString => EmptyString
  | String _ rest => rest
  end.

Definition space : ascii := " "%char.
Definition minus : ascii := "-"%char.

Fixpoint SplitIntoWords_loop (text : string) (word : string) (words : list string)
  : list string :=
  match text with
  | EmptyString =>
      if string_empty word then words else words ++ [word]
  | String c rest =>
      if Ascii.eqb c space then
        if string_empty word then SplitIntoWords_loop rest word words
        else SplitIntoWords_loop rest EmptyString (words ++ [word])
      else SplitIntoWords_loop rest (word ++ String c EmptyString)%string words
  end.

Definition SplitIntoWords (text : string) : list string :=
  SplitIntoWords_loop text EmptyString [].

(** The value of a [char] (signed, as on the usual targets). *)
Definition char_value (c : ascii) : Z :=
  let n := Z.of_N (N_of_ascii c) in
  if n <? 128 then n else n - 256.

(** [c >= '\0' && c < ' ']. *)
Definition is_special (c : ascii) : bool :=
  (0 <=? char_value c) && (char_value c <? 32).

Fixpoint none_of (p : ascii -> bool) (s : string) : bool :=
  match s with
  | EmptyString => true
  | String c rest => negb (p c) && none_of p rest
  end.

Definition IsValidWord (word : string) : bool := none_of is_special word.

Definition MakeUniqueNonEmptyStrings (strings : list string) : list string :=
  fold_left
    (fun non_empty_strings str =>
       if string_empty str then non_empty_strings
       else set_insert str non_empty_strings)
    strings [].

(* ================================================================== *)
(** ** What the program takes from the C++ standard library *)

(** <cmath>: the natural logarithm on [double]. *)
Class Cmath := log : float -> float.

(** <algorithm>: [std::sort] with a comparator. *)
Class Algorithm := sort : forall {A : Type}, (A -> A -> bool) -> list A -> list A.

(** The comparator requirement of [std::sort], on the elements sorted:
    a strict weak ordering. *)
Record strict_weak_order_on {A : Type} (comp : A -> A -> bool) (l : list A) : Prop := {
  swo_irreflexive : forall x, In x l -> comp x x = false;
  swo_transitive : forall x y z, In x l -> In y l -> In z l ->
      comp x y = true -> comp y z = true -> comp x z = true;
  swo_equivalence : forall x y z, In x l -> In y l -> In z l ->
      comp x y = false -> comp y x = false ->
      comp y z = false -> comp z y = false ->
      comp x z = false /\ comp z x = false
}.

(** The result of [std::sort]: no element is followed by one that the
    comparator puts before it. *)
Definition sorted_by {A : Type} (comp : A -> A -> bool) (l : list A) : Prop :=
  StronglySorted (fun x y => comp y x = false) l.

(** The contract of [std::sort].  The elements are only rearranged; they are
    in order when the comparator meets the requirement. *)
Class AlgorithmSpec `{Algorithm} : Prop := {
  sort_permutation : forall (A : Type) (comp : A -> A -> bool) (l : list A),
      Permutation (sort comp l) l;
  sort_sorted : forall (A : Type) (comp : A -> A -> bool) (l : list A),
      strict_weak_order_on comp l -> sorted_by comp (sort comp l)
}.

(* ================================================================== *)
(** ** Documents *)

Definition MAX_RESULT_DOCUMENT_COUNT : nat := 5.

(** [1e-6] as a [double]. *)
Definition EPSILON : float := 0x1.0c6f7a0b5ed8dp-20%float.

Record Document : Type := {
  id : Z;
  relevance : float;
  rating : Z
}.

Inductive DocumentStatus : Type :=
| ACTUAL
| IRRELEVANT
| BANNED
| REMOVED.

Definition DocumentStatus_eqb (a b : DocumentStatus) : bool :=
  match a, b with
  | ACTUAL, ACTUAL | IRRELEVANT, IRRELEVANT
  | BANNED, BANNED | REMOVED, REMOVED => true
  | _, _ => false
  end.

Module DocumentData.
Record t : Type := {
  rating : Z;
  status : DocumentStatus
}.
End DocumentData.

Definition DocumentPredicate : Type := Z -> DocumentStatus -> Z -> bool.

(** The comparator of [FindTopDocuments]. *)
Definition by_relevance (lhs rhs : Document) : bool :=
  if (abs (relevance lhs - relevance rhs) <? EPSILON)%float
  then rating rhs <? rating lhs
  else (relevance rhs <? relevance lhs)%float.

(* ================================================================== *)
(** ** SearchServer *)

Record QueryWord : Type := {
  data : string;
  is_minus : bool;
  is_stop : bool
}.

Record Query : Type := {
  plus_words : list string;
  minus_words : list string
}.

Record SearchServer : Type := {
  stop_words_ : list string;
  word_to_document_freqs_ : list (string * list (Z * float));
  documents_ : list (Z * DocumentData.t);
  document_id_sequence_ : list Z
}.

Definition what_stop_words : string :=
  "incorrect stop-words: there are invalid characters (characters with codes from 0 to 31) in the stop-words".
Definition what_negative_id : string :=
  "incorrect document_id: document_id is negative".
Definition what_existing_id : string :=
  "incorrect document_id: document_id is exist in SearchServer".
Definition what_empty_request : string :=
  "incorrect search request: empty search request".
Definition what_id_out_of_range : string :=
  "document_id is out of range".
Definition what_document_chars : string :=
  "incorrect document: there are invalid characters (characters with codes from 0 to 31) in the document".
Definition what_double_minus : string :=
  "incorrect search request: there is double minus ('--') in the search request".
Definition what_bare_minus : string :=
  "incorrect search request: there is minus-word atribute ('-') without text in the search request".
Definition what_request_chars : string :=
  "incorrect search request: there are invalid characters (characters with codes from 0 to 31) in the search request".

(** The constructor's loop over the unique non-empty stop words. *)
Fixpoint insert_stop_words (words : list string) (stop_words : list string)
  : result (list string) :=
  match words with
  | [] => Ok stop_words
  | word :: rest =>
      if IsValidWord word then insert_stop_words rest (set_insert word stop_words)
      else Throw (invalid_argument what_stop_words)
  end.

(** [SearchServer(const StringContainer& stop_words)]. *)
Definition SearchServer_of_container (stop_words : list string) : result SearchServer :=
  stop_words_ <- insert_stop_words (MakeUniqueNonEmptyStrings stop_words) [] ;;
  Ok {| stop_words_ := stop_words_;
        word_to_document_freqs_ := [];
        documents_ := [];
        document_id_sequence_ := [] |}.

(** [SearchServer(const string& stop_words_text)]. *)
Definition SearchServer_of_text (stop_words_text : string) : result SearchServer :=
  SearchServer_of_container (SplitIntoWords stop_words_text).

Definition IsStopWord (s : SearchServer) (word : string) : bool :=
  (0 <? set_count word (stop_words_ s))%nat.

Fixpoint SplitIntoWordsNoStop_loop (s : SearchServer) (split : list string)
    (words : list string) : result (list string) :=
  match split with
  | [] => Ok words
  | word :: rest =>
      if IsValidWord word then
        if negb (IsStopWord s word)
        then SplitIntoWordsNoStop_loop s rest (words ++ [word])
        else SplitIntoWordsNoStop_loop s rest words
      else Throw (invalid_argument what_document_chars)
  end.

Definition SplitIntoWordsNoStop (s : SearchServer) (text : string) : result (list string) :=
  SplitIntoWordsNoStop_loop s (SplitIntoWords text) [].

(** The sum of the ratings in an [int]; an overflow wraps around (the
    language leaves it undefined). *)
Definition ComputeAverageRating (ratings : list Z) : Z :=
  match ratings with
  | [] => 0
  | _ :: _ =>
      let rating_sum := fold_left (fun sum r => to_int (sum + r)) ratings 0 in
      Z.quot rating_sum (to_int (Z.of_nat (List.length ratings)))
  end.

(** [word_to_document_freqs_[word][document_id] += inv_word_count]. *)
Definition add_word_freq (document_id : Z) (inv_word_count : float)
    (freqs : list (string * list (Z * float))) (word : string)
  : list (string * list (Z * float)) :=
  map_update word
    (fun postings =>
       map_update document_id
         (fun freq =>
            (match freq with Some f => f | None => 0 end + inv_word_count)%float)
         (match postings with Some p => p | None => [] end))
    freqs.

(** [AddDocument]: the outcome of the call and the server it leaves. *)
Definition AddDocument (document_id : Z) (document : string)
    (status : DocumentStatus) (ratings : list Z) (s : SearchServer)
  : result unit * SearchServer :=
  if document_id <? 0 then (Throw (invalid_argument what_negative_id), s)
  else if (0 <? map_count document_id (documents_ s))%nat
  then (Throw (invalid_argument what_existing_id), s)
  else
    match SplitIntoWordsNoStop s document with
    | Throw e => (Throw e, s)
    | Ok words =>
        let inv_word_count := (1 / double_of_size (List.length words))%float in
        (Ok tt,
         {| stop_words_ := stop_words_ s;
            word_to_document_freqs_ :=
              fold_left (add_word_freq document_id inv_word_count) words
                (word_to_document_freqs_ s);
            documents_ :=
              map_emplace document_id
                {| DocumentData.rating := ComputeAverageRating ratings;
                   DocumentData.status := status |}
                (documents_ s);
            document_id_sequence_ := document_id_sequence_ s ++ [document_id] |})
    end.

Definition GetDocumentCount (s : SearchServer) : Z :=
  to_int (Z.of_nat (List.length (documents_ s))).

Definition GetDocumentId (s : SearchServer) (index : Z) : result Z :=
  if (0 <=? index) && (index <? GetDocumentCount s)
  then Ok (nth (Z.to_nat index) (document_id_sequence_ s) 0)
  else Throw (out_of_range what_id_out_of_range).

Definition ParseQueryWord (s : SearchServer) (text : string) : result QueryWord :=
  if IsValidWord text then
    if Ascii.eqb (string_front text) minus then
      let text := substr1 text in
      if Ascii.eqb (string_front text) minus
      then Throw (invalid_argument what_double_minus)
      else if string_empty text
      then Throw (invalid_argument what_bare_minus)
      else Ok {| data := text; is_minus := true; is_stop := IsStopWord s text |}
    else Ok {| data := text; is_minus := false; is_stop := IsStopWord s text |}
  else Throw (invalid_argument what_request_chars).

Fixpoint ParseQuery_loop (s : SearchServer) (words : list string) (query : Query)
  : result Query :=
  match words with
  | [] => Ok query
  | word :: rest =>
      query_word <- ParseQueryWord s word ;;
      if negb (is_stop query_word) then
        if is_minus query_word
        then ParseQuery_loop s rest
               {| plus_words := plus_words query;
                  minus_words := set_insert (data query_word) (minus_words query) |}
        else ParseQuery_loop s rest
               {| plus_words := set_insert (data query_word) (plus_words query);
                  minus_words := minus_words query |}
      else ParseQuery_loop s rest query
  end.

Definition ParseQuery (s : SearchServer) (text : string) : result Query :=
  ParseQuery_loop s (SplitIntoWords text) {| plus_words := []; minus_words := [] |}.

(** The first loop of [MatchDocument], over the plus words. *)
Fixpoint match_plus_words (s : SearchServer) (document_id : Z)
    (words : list string) (matched_words : list string) : result (list string) :=
  match words with
  | [] => Ok matched_words
  | word :: rest =>
      if (map_count word (word_to_document_freqs_ s) =? 0)%nat
      then match_plus_words s document_id rest matched_words
      else
        postings <- map_at word (word_to_document_freqs_ s) ;;
        if (0 <? map_count document_id postings)%nat
        then match_plus_words s document_id rest (matched_words ++ [word])
        else match_plus_words s document_id rest matched_words
  end.

(** The second loop of [MatchDocument], over the minus words: a hit clears
    the matched words and leaves the loop. *)
Fixpoint match_minus_words (s : SearchServer) (document_id : Z)
    (words : list string) (matched_words : list string) : result (list string) :=
  match words with
  | [] => Ok matched_words
  | word :: rest =>
      if (map_count word (word_to_document_freqs_ s) =? 0)%nat
      then match_minus_words s document_id rest matched_words
      else
        postings <- map_at word (word_to_document_freqs_ s) ;;
        if (0 <? map_count document_id postings)%nat
        then Ok []
        else match_minus_words s document_id rest matched_words
  end.

Definition MatchDocument (s : SearchServer) (raw_query : string) (document_id : Z)
  : result (list string * DocumentStatus) :=
  if document_id <? 0 then Throw (invalid_argument what_negative_id)
  else
    query <- ParseQuery s raw_query ;;
    if string_empty raw_query then Throw (invalid_argument what_empty_request)
    else
      matched_words <- match_plus_words s document_id (plus_words query) [] ;;
      matched_words <- match_minus_words s document_id (minus_words query) matched_words ;;
      document_data <- map_at document_id (documents_ s) ;;
      Ok (matched_words, DocumentData.status document_data).

Section Ranking.
Context `{Cmath} `{Algorithm}.

Definition ComputeWordInverseDocumentFreq (s : SearchServer) (word : string)
  : result float :=
  postings <- map_at word (word_to_document_freqs_ s) ;;
  Ok (log (double_of_int (GetDocumentCount s) * 1
           / double_of_size (List.length postings))%float).

(** The inner loop of [FindAllDocuments] over the postings of a plus word:
    [document_to_relevance[document_id] += term_freq * inverse_document_freq]
    for the documents that pass the predicate. *)
Fixpoint add_relevance (s : SearchServer) (document_predicate : DocumentPredicate)
    (inverse_document_freq : float) (postings : list (Z * float))
    (document_to_relevance : list (Z * float)) : result (list (Z * float)) :=
  match postings with
  | [] => Ok document_to_relevance
  | (document_id, term_freq) :: rest =>
      document_data <- map_at document_id (documents_ s) ;;
      if document_predicate document_id (DocumentData.status document_data)
           (DocumentData.rating document_data)
      then add_relevance s document_predicate inverse_document_freq rest
             (map_update document_id
                (fun r => (match r with Some r => r | None => 0 end
                           + term_freq * inverse_document_freq)%float)
                document_to_relevance)
      else add_relevance s document_predicate inverse_document_freq rest
             document_to_relevance
  end.

(** The loop of [FindAllDocuments] over the plus words. *)
Fixpoint add_plus_words (s : SearchServer) (document_predicate : DocumentPredicate)
    (words : list string) (document_to_relevance : list (Z * float))
  : result (list (Z * float)) :=
  match words with
  | [] => Ok document_to_relevance
  | word :: rest =>
      if (map_count word (word_to_document_freqs_ s) =? 0)%nat
      then add_plus_words s document_predicate rest document_to_relevance
      else
        inverse_document_freq <- ComputeWordInverseDocumentFreq s word ;;
        postings <- map_at word (word_to_document_freqs_ s) ;;
        document_to_relevance <-
          add_relevance s document_predicate inverse_document_freq postings
            document_to_relevance ;;
        add_plus_words s document_predicate rest document_to_relevance
  end.

(** The inner loop over the postings of a minus word. *)
Definition erase_postings (postings : list (Z * float))
    (document_to_relevance : list (Z * float)) : list (Z * float) :=
  fold_left (fun relevance posting => map_erase (fst posting) relevance)
    postings document_to_relevance.

(** The loop of [FindAllDocuments] over the minus words. *)
Fixpoint erase_minus_words (s : SearchServer) (words : list string)
    (document_to_relevance : list (Z * float)) : result (list (Z * float)) :=
  match words with
  | [] => Ok document_to_relevance
  | word :: rest =>
      if (map_count word (word_to_document_freqs_ s) =? 0)%nat
      then erase_minus_words s rest document_to_relevance
      else
        postings <- map_at word (word_to_document_freqs_ s) ;;
        erase_minus_words s rest (erase_postings postings document_to_relevance)
  end.

(** The last loop of [FindAllDocuments]: the map as a vector of documents. *)
Fixpoint collect_documents (s : SearchServer)
    (document_to_relevance : list (Z * float)) (matched_documents : list Document)
  : result (list Document) :=
  match document_to_relevance with
  | [] => Ok matched_documents
  | (document_id, relevance) :: rest =>
      document_data <- map_at document_id (documents_ s) ;;
      collect_documents s rest
        (matched_documents ++
           [{| id := document_id; relevance := relevance;
               rating := DocumentData.rating document_data |}])
  end.

Definition FindAllDocuments (s : SearchServer) (query : Query)
    (document_predicate : DocumentPredicate) : result (list Document) :=
  document_to_relevance <-
    add_plus_words s document_predicate (plus_words query) [] ;;
  document_to_relevance <-
    erase_minus_words s (minus_words query) document_to_relevance ;;
  collect_documents s document_to_relevance [].

Definition FindTopDocuments (s : SearchServer) (raw_query : string)
    (document_predicate : DocumentPredicate) : result (list Document) :=
  query <- ParseQuery s raw_query ;;
  if string_empty raw_query then Throw (invalid_argument what_empty_request)
  else
    matched_documents <- FindAllDocuments s query document_predicate ;;
    let matched_documents := sort by_relevance matched_documents in
    Ok (if (MAX_RESULT_DOCUMENT_COUNT <? List.length matched_documents)%nat
        then firstn MAX_RESULT_DOCUMENT_COUNT matched_documents
        else matched_documents).

Definition FindTopDocuments_status (s : SearchServer) (raw_query : string)
    (status : DocumentStatus) : result (list Document) :=
  FindTopDocuments s raw_query
    (fun document_id document_status rating =>
       DocumentStatus_eqb document_status status).

Definition FindTopDocuments_default (s : SearchServer) (raw_query : string)
  : result (list Document) :=
  FindTopDocuments_status s raw_query ACTUAL.

End Ranking.

(** The servers a program can hold: a constructed one, after any number of
    [AddDocument] calls that returned. *)
Inductive reachable : SearchServer -> Prop :=
| reachable_new : forall stop_words s,
    SearchServer_of_container stop_words = Ok s -> reachable s
| reachable_add : forall s document_id document status ratings s',
    reachable s ->
    AddDocument document_id document status ratings s = (Ok tt, s') ->
    reachable s'.

(* ================================================================== *)
(** ** RequestQueue *)

Record QueryResult : Type := {
  request_time : Z;
  number_of_request_results : Z;
  number_of_no_results : Z
}.

Record RequestQueue : Type := {
  requests_ : list QueryResult;
  current_request_id_ : Z
}.

Definition min_in_day_ : Z := 1440.

(** [RequestQueue(search_server)]; the server is passed to each call. *)
Definition RequestQueue_new : RequestQueue :=
  {| requests_ := []; current_request_id_ := 0 |}.

Definition QueryResult_default : QueryResult :=
  {| request_time := 0; number_of_request_results := 0; number_of_no_results := 0 |}.

(** [static_cast<int>] of a [bool]. *)
Definition int_of_bool (b : bool) : Z := if b then 1 else 0.

Definition deque_front (d : list QueryResult) : QueryResult := hd QueryResult_default d.
Definition deque_back (d : list QueryResult) : QueryResult := last d QueryResult_default.
Definition deque_pop_front (d : list QueryResult) : list QueryResult := tl d.
Definition deque_size (d : list QueryResult) : Z := Z.of_nat (List.length d).

Section Requests.
Context `{Cmath} `{Algorithm}.

(** [AddFindRequest]: the outcome of the call and the queue it leaves. *)
Definition AddFindRequest (search_server_ : SearchServer) (raw_query : string)
    (document_predicate : DocumentPredicate) (q : RequestQueue)
  : result (list Document) * RequestQueue :=
  match FindTopDocuments search_server_ raw_query document_predicate with
  | Throw e => (Throw e, q)
  | Ok search_results =>
      let current_request_id_ := to_uint64 (current_request_id_ q + 1) in
      let quantity_of_search_results := Z.of_nat (List.length search_results) in
      let requests_ :=
        match requests_ q with
        | [] =>
            [{| request_time := current_request_id_;
                number_of_request_results := quantity_of_search_results;
                number_of_no_results :=
                  int_of_bool (quantity_of_search_results =? 0) |}]
        | _ :: _ =>
            let previous_no_resilts_number :=
              number_of_no_results (deque_back (requests_ q)) in
            if deque_size (requests_ q) =? min_in_day_ then
              let front_request_result :=
                to_int (number_of_request_results (deque_front (requests_ q))) in
              deque_pop_front
                (requests_ q ++
                   [{| request_time := current_request_id_;
                       number_of_request_results := quantity_of_search_results;
                       number_of_no_results :=
                         previous_no_resilts_number
                         + int_of_bool (quantity_of_search_results =? 0)
                         - int_of_bool (front_request_result =? 0) |}])
            else
              requests_ q ++
                [{| request_time := current_request_id_;
                    number_of_request_results := quantity_of_search_results;
                    number_of_no_results :=
                      previous_no_resilts_number
                      + int_of_bool (quantity_of_search_results =? 0) |}]
        end in
      (Ok search_results,
       {| requests_ := requests_; current_request_id_ := current_request_id_ |})
  end.

End Requests.

(** Modelled from the spec: [GetNoResultRequests] is declared in the header
    and defined in a file that is not among the sources.  The spec has it
    return the current running zero-result count; the running count is the
    field [number_of_no_results] of the newest record, and an empty queue has
    counted nothing. *)
Definition GetNoResultRequests (q : RequestQueue) : Z :=
  match requests_ q with
  | [] => 0
  | _ :: _ => number_of_no_results (deque_back (requests_ q))
  end.

(* ================================================================== *)
(** ** Paginator *)

(** An iterator into the paginated container is its position. *)
Record IteratorRange : Type := {
  page_begin_ : Z;
  page_end_ : Z
}.

Record Paginator : Type := {
  range_begin_ : Z;
  range_end_ : Z;
  range_size_ : Z;
  pages_count_ : Z;
  pages_ : list IteratorRange
}.

(** How a call ends: it returns or throws, or it has no defined behaviour
    (an integer division by zero or an overflow in an [int], an iterator
    moved out of its container). *)
Inductive execution (A : Type) : Type :=
| Completes (r : result A)
| UndefinedBehaviour.

Arguments Completes {A} r.
Arguments UndefinedBehaviour {A}.

Definition INT_MAX : Z := 2147483647.
Definition INT_MIN : Z := -2147483648.

(** [it + n] on an iterator of a container of [size] elements, whose
    iterators are the positions from 0 to [size]: it has no defined
    behaviour ([None]) when the result is none of them. *)
Definition iterator_plus (size it n : Z) : option Z :=
  if (0 <=? it + n) && (it + n <=? size) then Some (it + n) else None.

(** [++page] on an [int]: it has no defined behaviour at [INT_MAX]. *)
Definition increment (page : Z) : option Z :=
  if page <? INT_MAX then Some (page + 1) else None.

(** The loop of the constructor, [for (int page = 1; page <= pages_count_;
    ++page)]: [n] iterations from [page], each followed by [++page].  [None]
    when an iteration has no defined behaviour. *)
Fixpoint Paginator_loop (n : nat) (size page pages_count_ page_size : Z)
    (temp_begin_iterator range_end_ : Z) (pages_ : list IteratorRange)
  : option (list IteratorRange) :=
  match n with
  | O => Some pages_
  | S n' =>
      match
        (if page <? pages_count_ then
           match iterator_plus size temp_begin_iterator page_size with
           | Some page_end =>
               Some (page_end,
                     pages_ ++ [{| page_begin_ := temp_begin_iterator;
                                   page_end_ := page_end |}])
           | None => None
           end
         else
           Some (temp_begin_iterator,
                 pages_ ++ [{| page_begin_ := temp_begin_iterator;
                               page_end_ := range_end_ |}]))
      with
      | Some (temp_begin_iterator, pages_) =>
          match increment page with
          | Some page =>
              Paginator_loop n' size page pages_count_ page_size
                temp_begin_iterator range_end_ pages_
          | None => None
          end
      | None => None
      end
  end.

(** [Paginator(range_begin, range_end, page_size)], [page_size] an [int],
    for iterators of a container of [size] elements.  [%] and [/] have no
    defined behaviour for a zero divisor and for [INT_MIN] by [-1]; the
    [+ 1] of the page count cannot overflow, since a remainder above zero
    leaves the quotient below [INT_MAX]. *)
Definition Paginator_new (size : Z) (range_begin range_end : Z) (page_size : Z)
  : execution Paginator :=
  let range_size_ := to_int (range_end - range_begin) in
  if (page_size =? 0) || ((range_size_ =? INT_MIN) && (page_size =? -1))
  then UndefinedBehaviour
  else
    let pages_count_ :=
      if 0 <? Z.rem range_size_ page_size
      then Z.quot range_size_ page_size + 1
      else Z.quot range_size_ page_size in
    match
      Paginator_loop (Z.to_nat pages_count_) size 1 pages_count_ page_size
        range_begin range_end []
    with
    | Some pages_ =>
        Completes (Ok
          {| range_begin_ := range_begin;
             range_end_ := range_end;
             range_size_ := range_size_;
             pages_count_ := pages_count_;
             pages_ := pages_ |})
    | None => UndefinedBehaviour
    end.

(** [Paginate(c, page_size)], [page_size] a [size_t] that the constructor
    takes as an [int]; the iterators are those of [c]. *)
Definition Paginate {A : Type} (c : list A) (page_size : Z) : execution Paginator :=
  Paginator_new (Z.of_nat (List.length c)) 0 (Z.of_nat (List.length c))
    (to_int page_size).

(** The elements a page ranges over. *)
Definition page_elements {A : Type} (c : list A) (page : IteratorRange) : list A :=
  firstn (Z.to_nat (page_end_ page - page_begin_ page))
    (skipn (Z.to_nat (page_begin_ page)) c).

Section PageSize.
(** [destination] is declared nowhere in the sources; the constructor of
    [Paginator] calls [distance] where it needs the length of a range. *)
Variable destination : Z -> Z -> Z.

(** [Iterator size() { return destination(page_begin_, page_end_); }]:
    the size operation of a page (C8) returns an iterator, the one that
    [destination] gives, and not a number of elements. *)
Definition IteratorRange_size (page : IteratorRange) : Z :=
  destination (page_begin_ page) (page_end_ page).

End PageSize.

(* ================================================================== *)
(** ** An executable instance of the library parameters

    Used to run the program on concrete inputs; the theorems below hold for
    every [log] and for every [sort] that meets the contract. *)

Fixpoint insert_by {A : Type} (comp : A -> A -> bool) (x : A) (l : list A) : list A :=
  match l with
  | [] => [x]
  | y :: l' => if comp x y then x :: l else y :: insert_by comp x l'
  end.

Definition insertion_sort {A : Type} (comp : A -> A -> bool) (l : list A) : list A :=
  fold_right (insert_by comp) [] l.

Definition Algorithm_insertion : Algorithm := @insertion_sort.

(** The nearest [double] to ln 2. *)
Definition ln2 : float := 0x1.62e42fefa39efp-1%float.

(** [acc + z^k/k + z^(k+2)/(k+2) + ...], [n] terms, [power] being [z^k]. *)
Fixpoint atanh_terms (n : nat) (z2 power k acc : float) : float :=
  match n with
  | O => acc
  | S n' => atanh_terms n' z2 (power * z2)%float (k + 2)%float (acc + power / k)%float
  end.

(** The natural logarithm of a positive finite [x = m * 2^e], [1 <= m < 2],
    as [e * ln 2 + 2 * atanh ((m - 1) / (m + 1))]. *)
Definition log_series (x : float) : float :=
  let (m, e) := Z.frexp x in
  let m := (2 * m)%float in
  let z := ((m - 1) / (m + 1))%float in
  (double_of_int (e - 1) * ln2 + 2 * atanh_terms 30 (z * z) z 1 0)%float.

Definition Cmath_series : Cmath := log_series.

(* ================================================================== *)
(** ** Vocabulary of the specification *)

(** The term [word] has a posting for the document: the document is among
    the documents that contain the term. *)
Definition has_posting (s : SearchServer) (document_id : Z) (word : string) : bool :=
  match map_find word (word_to_document_freqs_ s) with
  | Some postings => (0 <? map_count document_id postings)%nat
  | None => false
  end.

(** The representation invariant of a server. *)
Record well_formed (s : SearchServer) : Prop := {
  wf_index_ordered : ordered (word_to_document_freqs_ s);
  wf_documents_ordered : ordered (documents_ s);
  wf_postings_ordered : forall word postings,
      In (word, postings) (word_to_document_freqs_ s) -> ordered postings;
  wf_postings_stored : forall word postings document_id term_freq,
      In (word, postings) (word_to_document_freqs_ s) ->
      In (document_id, term_freq) postings ->
      exists document_data, map_find document_id (documents_ s) = Some document_data;
  wf_sequence :
      List.length (document_id_sequence_ s) = List.length (documents_ s);
  wf_stop_words : forall word,
      IsStopWord s word = true -> IsValidWord word = true
}.

(** The server that [AddDocument] leaves. *)
Definition after_AddDocument (document_id : Z) (document : string)
    (status : DocumentStatus) (ratings : list Z) (s : SearchServer) : SearchServer :=
  snd (AddDocument document_id document status ratings s).

(** The server of the program's [main]: its stop words and the four
    documents whose [AddDocument] returns. *)
Definition main_stop_words : SearchServer :=
  {| stop_words_ := ["a"; "an"; "are"; "at"; "in"; "is"; "near"; "the"; "was"; "with"];
     word_to_document_freqs_ := [];
     documents_ := [];
     document_id_sequence_ := [] |}.

Definition main_server : SearchServer :=
  after_AddDocument 2 "white red suare long" ACTUAL [3]
    (after_AddDocument 3
       "a white cat with long furry tail is found near the red square" ACTUAL [1; 2]
       (after_AddDocument 0
          "a grey hound with black ears is found at the railway station" ACTUAL [1; 3; 2]
          (after_AddDocument 1
             "a colorful parrot with green wings and red ta-il is lost" ACTUAL [7; 2; 7]
             main_stop_words))).

(** *** Sequences of tracked requests *)

(** A tracked request: the state of the server the queue refers to when the
    request is made, the query and the predicate. *)
Record Request : Type := {
  request_server : SearchServer;
  request_query : string;
  request_predicate : DocumentPredicate
}.

(** The last [n] elements of a list: the most recent ones of a history. *)
Definition lastn {A : Type} (n : nat) (l : list A) : list A :=
  skipn (List.length l - n) l.

(** The number of zero-result requests among result counts. *)
Fixpoint count_zero (l : list Z) : Z :=
  match l with
  | [] => 0
  | x :: l' => int_of_bool (x =? 0) + count_zero l'
  end.

Section RequestSequences.
Context `{Cmath} `{Algorithm}.

Definition request_succeeds (r : Request) : Prop :=
  exists search_results,
    FindTopDocuments (request_server r) (request_query r) (request_predicate r)
    = Ok search_results.

(** The number of results of a request (of one that succeeds). *)
Definition request_results (r : Request) : Z :=
  match FindTopDocuments (request_server r) (request_query r) (request_predicate r) with
  | Ok search_results => Z.of_nat (List.length search_results)
  | Throw _ => 0
  end.

(** The queue after the requests, made in order. *)
Definition AddFindRequests (requests : list Request) (q : RequestQueue) : RequestQueue :=
  fold_left
    (fun q r =>
       snd (AddFindRequest (request_server r) (request_query r)
              (request_predicate r) q))
    requests q.

End RequestSequences.

(** *** Relevance *)

(** The document is stored and the predicate accepts it. *)
Definition passes (s : SearchServer) (document_predicate : DocumentPredicate)
    (document_id : Z) : bool :=
  match map_find document_id (documents_ s) with
  | Some document_data =>
      document_predicate document_id (DocumentData.status document_data)
        (DocumentData.rating document_data)
  | None => false
  end.

(** The value of an entry that [operator[]] has just created, or of the
    entry that is there. *)
Definition or_zero (r : option float) : float :=
  match r with
  | Some r => r
  | None => 0%float
  end.

Section RelevanceSum.
Context `{Cmath}.

(** The inverse document frequency of a term with the given postings:
    ln (document count / number of documents that contain the term). *)
Definition inverse_document_freq (s : SearchServer) (postings : list (Z * float))
  : float :=
  log (double_of_int (GetDocumentCount s) * 1
       / double_of_size (List.length postings))%float.

(** One term of the sum: the term frequency of [word] in the document times
    the inverse document frequency of [word]; nothing for a word that is not
    in the index or has no posting for the document. *)
Definition add_term (s : SearchServer) (document_id : Z) (sum : float)
    (word : string) : float :=
  match map_find word (word_to_document_freqs_ s) with
  | Some postings =>
      match map_find document_id postings with
      | Some term_freq => (sum + term_freq * inverse_document_freq s postings)%float
      | None => sum
      end
  | None => sum
  end.

(** The relevance of a document for the plus words of a query: the sum of
    the terms, taken in the order of the set of plus words, from zero. *)
Definition relevance_sum (s : SearchServer) (words : list string) (document_id : Z)
  : float :=
  fold_left (add_term s document_id) words 0%float.

(** What the loop of [FindAllDocuments] over the plus words adds for one
    document: the entry of the document in [document_to_relevance], absent
    until a plus word has a posting for a document that passes. *)
Definition add_word (s : SearchServer) (document_predicate : DocumentPredicate)
    (d : Z) (r : option float) (word : string) : option float :=
  match map_find word (word_to_document_freqs_ s) with
  | Some postings =>
      match map_find d postings with
      | Some term_freq =>
          if passes s document_predicate d
          then Some (or_zero r + term_freq * inverse_document_freq s postings)%float
          else r
      | None => r
      end
  | None => r
  end.

End RelevanceSum.

(** *** The order of the results *)






(** *** A server with relevances that are close to one another

    Three documents hold the word [w] once, among 600, 601 and 602 words;
    a fourth document does not hold it. *)








Definition any_document : DocumentPredicate := fun _ _ _ => true.

(* ================================================================== *)
(** ** Invariants used in the proofs *)

(** What a posting list may hold while the words of document [document_id]
    are being added: ordered lists of documents that are stored or are the
    document being added. *)
Definition postings_within (documents : list (Z * DocumentData.t)) (document_id : Z)
    (freqs : list (string * list (Z * float))) : Prop :=
  forall word postings,
    In (word, postings) freqs ->
    ordered postings /\
    forall d f, In (d, f) postings ->
      d = document_id \/ exists data, map_find d documents = Some data.

(** The queue [q] records the history of result counts: it holds the counts
    of the most recent ones, oldest first, and its newest record holds the
    number of zeros among them. *)
Definition tracks (q : RequestQueue) (history : list Z) : Prop :=
  map number_of_request_results (requests_ q)
  = lastn (Z.to_nat min_in_day_) history /\
  number_of_no_results (deque_back (requests_ q))
  = count_zero (lastn (Z.to_nat min_in_day_) history) /\
  Forall (fun n => 0 <= n < 2147483648) history.

(** Four requests to the server of [main]: two of them find nothing. *)
Definition main_requests : list Request :=
  map (fun raw_query =>
         {| request_server := main_server;
            request_query := raw_query;
            request_predicate := fun _ status _ => DocumentStatus_eqb status ACTUAL |})
    ["red"; "zebra"; "cat -white"; "hound"].

(* ================================================================== *)
(** ** Further vocabulary *)

(** The word has no space in it. *)
Definition no_space (word : string) : bool :=
  none_of (fun c => Ascii.eqb c space) word.

(** What [SplitIntoWords] gives as a word: not empty, without a space. *)
Definition is_token (word : string) : Prop :=
  string_empty word = false /\ no_space word = true.

(** The words with one space between them. *)
Definition join_words (words : list string) : string :=
  String.concat (String space EmptyString) words.

Section OrderedSets.
Context {K : Type} `{Compare K}.

(** The representation invariant of a set: keys strictly increasing. *)
Fixpoint increasing (s : list K) : Prop :=
  match s with
  | [] => True
  | k :: s' =>
      match s' with
      | [] => True
      | k' :: _ => cmp k k' = Lt
      end /\ increasing s'
  end.

End OrderedSets.

(** The term frequency that the index holds for a word and a document. *)
Definition term_freq (s : SearchServer) (word : string) (document_id : Z)
  : option float :=
  match map_find word (word_to_document_freqs_ s) with
  | Some postings => map_find document_id postings
  | None => None
  end.

(** [k] times [inv_word_count], added one at a time from zero. *)
Definition repeated_sum (k : nat) (inv_word_count : float) : float :=
  Nat.iter k (fun freq => (freq + inv_word_count)%float) 0%float.

(** The words of a text that [AddDocument] indexes. *)
Definition indexed_words (s : SearchServer) (text : string) : list string :=
  filter (fun word => negb (IsStopWord s word)) (SplitIntoWords text).

(** The sum of the ratings, as an integer. *)
Definition ratings_sum (ratings : list Z) : Z := fold_left Z.add ratings 0.

(** The insertion sequence lists the stored ids, each once, none negative. *)
Record sequence_invariant (s : SearchServer) : Prop := {
  seq_nodup : NoDup (document_id_sequence_ s);
  seq_stored : forall document_id,
      In document_id (document_id_sequence_ s)
      <-> exists data, map_find document_id (documents_ s) = Some data;
  seq_nonneg : Forall (fun document_id => 0 <= document_id) (document_id_sequence_ s)
}.

(** The word begins with [-]. *)
Definition starts_with_minus (word : string) : bool :=
  Ascii.eqb (string_front word) minus.

(** A word of a query that [ParseQueryWord] accepts: no control character
    in it, and neither [-] alone nor [--] at its beginning. *)
Definition query_word_ok (word : string) : bool :=
  IsValidWord word
  && negb (starts_with_minus word
           && (starts_with_minus (substr1 word) || string_empty (substr1 word))).

(** The document answers the query: it is stored and the predicate accepts
    it, a plus word of the query has a posting for it and no minus word has
    one. *)
Definition answers (s : SearchServer) (document_predicate : DocumentPredicate)
    (query : Query) (document_id : Z) : bool :=
  passes s document_predicate document_id
  && existsb (has_posting s document_id) (plus_words query)
  && negb (existsb (has_posting s document_id) (minus_words query)).

(** Every word of the query is a minus word or a stop word. *)
Definition minus_or_stop (s : SearchServer) (word : string) : bool :=
  starts_with_minus word || IsStopWord s word.

Section RequestOutcomes.
Context `{Cmath} `{Algorithm}.

(** The request returns: its [FindTopDocuments] does not throw. *)
Definition request_returns (r : Request) : bool :=
  match FindTopDocuments (request_server r) (request_query r) (request_predicate r) with
  | Ok _ => true
  | Throw _ => false
  end.

End RequestOutcomes.

(** The request ids of the first [n] recorded requests: 1, 2, ... as
    [uint64_t]. *)
Definition request_times (n : nat) : list Z :=
  map (fun i => to_uint64 (Z.of_nat i)) (seq 1 n).

(** The fields of a record are within the window and the result limit. *)
Definition record_bounded (record : QueryResult) : Prop :=
  0 <= number_of_no_results record <= min_in_day_ /\
  0 <= number_of_request_results record <= Z.of_nat MAX_RESULT_DOCUMENT_COUNT.

(** The queue has recorded [n] requests: its counter and the ids of the
    records it holds. *)
Definition numbered (q : RequestQueue) (n : nat) : Prop :=
  current_request_id_ q = to_uint64 (Z.of_nat n) /\
  map request_time (requests_ q) = lastn (Z.to_nat min_in_day_) (request_times n).

(** [Paginator::size()]. *)
Definition Paginator_size (p : Paginator) : Z := pages_count_ p.

(** The pages that [m] iterations of the constructor's loop append when
    the last of them is the last page. *)
Fixpoint pages_from (m : nat) (page_size temp_begin_iterator range_end_ : Z)
  : list IteratorRange :=
  match m with
  | O => []
  | S m' =>
      match m' with
      | O => [{| page_begin_ := temp_begin_iterator; page_end_ := range_end_ |}]
      | S _ =>
          {| page_begin_ := temp_begin_iterator;
             page_end_ := temp_begin_iterator + page_size |}
          :: pages_from m' page_size (temp_begin_iterator + page_size) range_end_
      end
  end.

(** The number of elements a page ranges over. *)
Definition page_length {A : Type} (c : list A) (page : IteratorRange) : Z :=
  Z.of_nat (List.length (page_elements c page)).

(* ================================================================== *)
(** ** The first version of the server *)

(** The second program of [part_001]: a server without document data, ids
    or validation, whose methods throw nothing of their own. *)
Module Legacy.

Definition MAX_RESULT_DOCUMENT_COUNT : nat := 5.

Record Document : Type := {
  id : Z;
  relevance : float
}.

Record Query : Type := {
  plus_query_words : list string;
  minus_query_words : list string
}.

Record SearchServer : Type := {
  word_to_document_freqs_ : list (string * list (Z * float));
  stop_words_ : list string;
  document_count_ : Z
}.

(** The default-constructed server. *)
Definition SearchServer_new : SearchServer :=
  {| word_to_document_freqs_ := []; stop_words_ := []; document_count_ := 0 |}.

Definition SetStopWords (text : string) (s : SearchServer) : SearchServer :=
  {| word_to_document_freqs_ := word_to_document_freqs_ s;
     stop_words_ :=
       fold_left (fun stop_words word => set_insert word stop_words)
         (SplitIntoWords text) (stop_words_ s);
     document_count_ := document_count_ s |}.

Definition IsStopWord (s : SearchServer) (word : string) : bool :=
  (0 <? set_count word (stop_words_ s))%nat.

Definition SplitIntoWordsNoStop (s : SearchServer) (text : string) : list string :=
  fold_left
    (fun words word => if negb (IsStopWord s word) then words ++ [word] else words)
    (SplitIntoWords text) [].

(** [++document_count_] in an [int]; an overflow wraps around (the language
    leaves it undefined). *)
Definition AddDocument (document_id : Z) (document : string) (s : SearchServer)
  : SearchServer :=
  let words := SplitIntoWordsNoStop s document in
  let one_word_term_frequency := (1 / double_of_size (List.length words))%float in
  {| word_to_document_freqs_ :=
       fold_left (add_word_freq document_id one_word_term_frequency) words
         (word_to_document_freqs_ s);
     stop_words_ := stop_words_ s;
     document_count_ := to_int (document_count_ s + 1) |}.

Definition ParseQuery (s : SearchServer) (text : string) : Query :=
  fold_left
    (fun query_words word =>
       if Ascii.eqb (string_front word) minus
       then {| plus_query_words := plus_query_words query_words;
               minus_query_words :=
                 set_insert (substr1 word) (minus_query_words query_words) |}
       else {| plus_query_words := set_insert word (plus_query_words query_words);
               minus_query_words := minus_query_words query_words |})
    (SplitIntoWordsNoStop s text)
    {| plus_query_words := []; minus_query_words := [] |}.

(** The inner loop over the postings of a minus word. *)
Definition ignore_postings (postings : list (Z * float))
    (ignored_document_ids : list Z) : list Z :=
  fold_left (fun ignored posting => set_insert (fst posting) ignored)
    postings ignored_document_ids.

(** The first loop of [FindAllDocuments], over the minus words. *)
Fixpoint ignore_minus_words (s : SearchServer) (words : list string)
    (ignored_document_ids : list Z) : result (list Z) :=
  match words with
  | [] => Ok ignored_document_ids
  | word :: rest =>
      if negb (map_count word (word_to_document_freqs_ s) =? 0)%nat
      then
        postings <- map_at word (word_to_document_freqs_ s) ;;
        ignore_minus_words s rest (ignore_postings postings ignored_document_ids)
      else ignore_minus_words s rest ignored_document_ids
  end.

(** The inner loop over the postings of a plus word:
    [found_documents_and_relevance[document_id]
       += inverse_document_frequency * term_frequency]. *)
Definition add_relevance (inverse_document_frequency : float)
    (postings : list (Z * float)) (found_documents_and_relevance : list (Z * float))
  : list (Z * float) :=
  fold_left
    (fun found posting =>
       map_update (fst posting)
         (fun r => (match r with Some r => r | None => 0 end
                    + inverse_document_frequency * snd posting)%float)
         found)
    postings found_documents_and_relevance.

Section Ranking.
Context `{Cmath} `{Algorithm}.

(** The second loop of [FindAllDocuments], over the plus words. *)
Fixpoint add_plus_words (s : SearchServer) (words : list string)
    (found_documents_and_relevance : list (Z * float)) : result (list (Z * float)) :=
  match words with
  | [] => Ok found_documents_and_relevance
  | word :: rest =>
      if negb (map_count word (word_to_document_freqs_ s) =? 0)%nat
      then
        counted <- map_at word (word_to_document_freqs_ s) ;;
        let inverse_document_frequency :=
          log (double_of_int (document_count_ s)
               / double_of_size (List.length counted))%float in
        postings <- map_at word (word_to_document_freqs_ s) ;;
        add_plus_words s rest
          (add_relevance inverse_document_frequency postings
             found_documents_and_relevance)
      else add_plus_words s rest found_documents_and_relevance
  end.

(** The last loop of [FindAllDocuments]. *)
Definition collect_documents (found_documents_and_relevance : list (Z * float))
    (ignored_document_ids : list Z) : list Document :=
  fold_left
    (fun matched_documents entry =>
       if (set_count (fst entry) ignored_document_ids =? 0)%nat
       then matched_documents ++ [{| id := fst entry; relevance := snd entry |}]
       else matched_documents)
    found_documents_and_relevance [].

Definition FindAllDocuments (s : SearchServer) (query_words : Query)
  : result (list Document) :=
  ignored_document_ids <-
    ignore_minus_words s (minus_query_words query_words) [] ;;
  found_documents_and_relevance <-
    add_plus_words s (plus_query_words query_words) [] ;;
  Ok (collect_documents found_documents_and_relevance ignored_document_ids).

Definition FindTopDocuments (s : SearchServer) (raw_query : string)
  : result (list Document) :=
  let query_words := ParseQuery s raw_query in
  matched_documents <- FindAllDocuments s query_words ;;
  let matched_documents :=
    sort (fun lhs rhs => (relevance rhs <? relevance lhs)%float) matched_documents in
  Ok (if (MAX_RESULT_DOCUMENT_COUNT <? List.length matched_documents)%nat
      then firstn MAX_RESULT_DOCUMENT_COUNT matched_documents
      else matched_documents).

End Ranking.

(** The servers a program can hold: a default-constructed one, after any
    calls of [SetStopWords] and [AddDocument]. *)
Inductive reachable : SearchServer -> Prop :=
| reachable_new : reachable SearchServer_new
| reachable_stop_words : forall text s,
    reachable s -> reachable (SetStopWords text s)
| reachable_add : forall document_id document s,
    reachable s -> reachable (AddDocument document_id document s).

(** Some posting of [word] is for the document. *)
Definition has_posting (s : SearchServer) (document_id : Z) (word : string) : bool :=
  match map_find word (word_to_document_freqs_ s) with
  | Some postings => existsb (fun posting => fst posting =? document_id) postings
  | None => false
  end.

(** The term frequency that the index holds for a word and a document. *)
Definition term_freq (s : SearchServer) (word : string) (document_id : Z)
  : option float :=
  match map_find word (word_to_document_freqs_ s) with
  | Some postings => map_find document_id postings
  | None => None
  end.

(** The words of a text that [AddDocument] indexes. *)
Definition indexed_words (s : SearchServer) (text : string) : list string :=
  filter (fun word => negb (IsStopWord s word)) (SplitIntoWords text).

(** The document answers the query: a plus word has a posting for it and no
    minus word has one. *)
Definition answers (s : SearchServer) (query_words : Query) (document_id : Z) : bool :=
  existsb (has_posting s document_id) (plus_query_words query_words)
  && negb (existsb (has_posting s document_id) (minus_query_words query_words)).

(** A server with the stop words and two documents. *)
Definition example_server : SearchServer :=
  AddDocument 1 "a white dog in the city"
    (AddDocument 0 "a white cat and a red hat"
       (SetStopWords "a the in and" SearchServer_new)).

End Legacy.

(* ================================================================== *)
(** * Properties *)

Lemma Ok_inj {A : Type} (a b : A) : Ok a = Ok b -> a = b.
Proof. now intros [= ->]. Qed.

(** ** The ordered containers *)

#[global] Instance CompareSpec_string : CompareSpec string.
Proof.
  split.
  - exact String_as_OT.cmp_eq.
  - intros a b. apply String_as_OT.cmp_antisym.
  - intros a b c Hab Hbc.
    apply String_as_OT.cmp_lt in Hab. apply String_as_OT.cmp_lt in Hbc.
    apply String_as_OT.cmp_lt. eapply String_as_OT.lt_trans; eassumption.
Qed.

#[global] Instance CompareSpec_int : CompareSpec Z.
Proof.
  split.
  - exact Z.compare_eq_iff.
  - intros a b. apply Z.compare_antisym.
  - intros a b c. unfold cmp, Compare_int. rewrite !Z.compare_lt_iff. lia.
Qed.

Section ContainerFacts.
Context {K : Type} `{CompareSpec K} {V : Type}.
Implicit Types (k j : K) (m : list (K * V)).

Lemma cmp_refl k : cmp k k = Eq.
Proof. now apply cmp_eq. Qed.

Lemma cmp_gt_lt k j : cmp k j = Gt -> cmp j k = Lt.
Proof. intros Hgt. rewrite (cmp_antisym k j), Hgt. reflexivity. Qed.

Lemma cmp_lt_neq k j : cmp k j = Lt -> k <> j.
Proof. intros Hlt ->. rewrite cmp_refl in Hlt. discriminate. Qed.

Lemma map_find_update_same k f m :
  map_find k (map_update k f m) = Some (f (map_find k m)).
Proof.
  induction m as [|[k' v] m IH]; simpl.
  - now rewrite cmp_refl.
  - destruct (cmp k k') eqn:E; simpl.
    + now rewrite E.
    + now rewrite cmp_refl.
    + now rewrite E.
Qed.

Lemma map_find_update_other k j f m :
  j <> k -> map_find j (map_update k f m) = map_find j m.
Proof.
  intros Hne. induction m as [|[k' v] m IH]; simpl.
  - destruct (cmp j k) eqn:E; try reflexivity.
    apply cmp_eq in E. contradiction.
  - destruct (cmp k k') eqn:E; simpl.
    + apply cmp_eq in E. subst k'.
      destruct (cmp j k) eqn:E'; try reflexivity.
      apply cmp_eq in E'. contradiction.
    + destruct (cmp j k) eqn:E'.
      * apply cmp_eq in E'. contradiction.
      * now rewrite (cmp_trans _ _ _ E' E).
      * reflexivity.
    + destruct (cmp j k'); auto.
Qed.

Lemma below_update j k f m :
  cmp j k = Lt -> below j m -> below j (map_update k f m).
Proof.
  intros Hjk Hb. destruct m as [|[k' v] m]; simpl; auto.
  destruct (cmp k k'); simpl; auto.
Qed.

Lemma ordered_update k f m : ordered m -> ordered (map_update k f m).
Proof.
  induction m as [|[k' v] m IH]; simpl; auto.
  intros [Hb Ho]. destruct (cmp k k') eqn:E; simpl.
  - auto.
  - auto.
  - split; auto. apply below_update; auto using cmp_gt_lt.
Qed.

Lemma below_trans j k m : cmp j k = Lt -> below k m -> below j m.
Proof.
  intros Hjk Hb. destruct m as [|[k' v'] m]; simpl in *; auto.
  eapply cmp_trans; eassumption.
Qed.

Lemma below_find k m : below k m -> map_find k m = None.
Proof. destruct m as [|[k' v] m]; simpl; auto. now intros ->. Qed.

Lemma below_not_In k m : ordered m -> below k m -> forall v, ~ In (k, v) m.
Proof.
  induction m as [|[k' v'] m IH]; simpl; auto.
  intros [Hb Ho] Hlt v [Heq | Hin].
  - inversion Heq; subst. rewrite cmp_refl in Hlt. discriminate.
  - apply (IH Ho (below_trans _ _ _ Hlt Hb) v Hin).
Qed.

Lemma map_find_In k v m : map_find k m = Some v -> In (k, v) m.
Proof.
  induction m as [|[k' v'] m IH]; simpl; try discriminate.
  destruct (cmp k k') eqn:E; try discriminate.
  - apply cmp_eq in E. subst k'. intros [= ->]. now left.
  - auto.
Qed.

Lemma In_map_find k v m : ordered m -> In (k, v) m -> map_find k m = Some v.
Proof.
  induction m as [|[k' v'] m IH]; simpl; try contradiction.
  intros [Hb Ho] [Heq | Hin].
  - inversion Heq; subst. now rewrite cmp_refl.
  - destruct (cmp k k') eqn:E.
    + apply cmp_eq in E. subst k'.
      exfalso. exact (below_not_In _ _ Ho Hb v Hin).
    + exfalso. exact (below_not_In _ _ Ho (below_trans _ _ _ E Hb) v Hin).
    + auto.
Qed.

Lemma below_erase j k m : ordered m -> below j m -> below j (map_erase k m).
Proof.
  intros Ho Hb. destruct m as [|[k' v] m]; simpl; auto.
  destruct (cmp k k'); simpl; auto.
  destruct Ho as [Hb' _]. exact (below_trans _ _ _ Hb Hb').
Qed.

Lemma ordered_erase k m : ordered m -> ordered (map_erase k m).
Proof.
  induction m as [|[k' v] m IH]; simpl; auto.
  intros [Hb Ho]. destruct (cmp k k') eqn:E; simpl; auto.
  split; auto. apply below_erase; auto.
Qed.

Lemma map_find_erase_same k m : ordered m -> map_find k (map_erase k m) = None.
Proof.
  induction m as [|[k' v] m IH]; simpl; auto.
  intros [Hb Ho]. destruct (cmp k k') eqn:E; simpl.
  - apply cmp_eq in E. subst k'. now apply below_find.
  - now rewrite E.
  - rewrite E. auto.
Qed.

Lemma map_find_erase_other k j m :
  ordered m -> j <> k -> map_find j (map_erase k m) = map_find j m.
Proof.
  intros Ho Hne. induction m as [|[k' v] m IH]; simpl; auto.
  destruct Ho as [Hb Ho]. destruct (cmp k k') eqn:E; simpl; auto.
  - apply cmp_eq in E. subst k'.
    destruct (cmp j k) eqn:E'.
    + apply cmp_eq in E'. contradiction.
    + apply below_find. exact (below_trans _ _ _ E' Hb).
    + reflexivity.
  - destruct (cmp j k'); auto.
Qed.

Lemma In_map_update j v k f m :
  In (j, v) (map_update k f m) ->
  (j = k /\ v = f (map_find k m)) \/ In (j, v) m.
Proof.
  induction m as [|[k' v'] m IH]; simpl.
  - intros [[= <- <-] | []]. now left.
  - destruct (cmp k k') eqn:E; simpl.
    + apply cmp_eq in E. subst k'. intros [[= <- <-] | Hin]; auto.
    + intros [[= <- <-] | Hin]; auto.
    + intros [Heq | Hin]; auto. destruct (IH Hin); auto.
Qed.

Lemma map_update_length_absent k f m :
  map_find k m = None -> List.length (map_update k f m) = S (List.length m).
Proof.
  induction m as [|[k' v] m IH]; simpl; auto.
  destruct (cmp k k'); simpl; auto; try discriminate.
Qed.

End ContainerFacts.

(** ** The representation invariant holds of every reachable server *)

Lemma set_count_In (word : string) (words : list string) :
  (0 <? set_count word words)%nat = true -> In word words.
Proof.
  induction words as [|w words IH]; simpl; try discriminate.
  destruct (cmp word w) eqn:E; try discriminate; auto.
  apply cmp_eq in E. auto.
Qed.

Lemma In_set_insert (k x : string) (words : list string) :
  In x (set_insert k words) -> x = k \/ In x words.
Proof.
  induction words as [|w words IH]; simpl.
  - intros [<- | []]. now left.
  - destruct (cmp k w); simpl; intuition.
Qed.

Lemma insert_stop_words_valid (words acc stop_words : list string) :
  insert_stop_words words acc = Ok stop_words ->
  Forall (fun w => IsValidWord w = true) acc ->
  Forall (fun w => IsValidWord w = true) stop_words.
Proof.
  revert acc. induction words as [|w words IH]; simpl; intros acc Hrun Hacc.
  - now inversion Hrun; subst.
  - destruct (IsValidWord w) eqn:Hvalid; try discriminate.
    apply (IH _ Hrun). apply Forall_forall. intros x Hx.
    apply In_set_insert in Hx. destruct Hx as [-> | Hx]; auto.
    rewrite Forall_forall in Hacc. auto.
Qed.

Lemma well_formed_new (stop_words : list string) (s : SearchServer) :
  SearchServer_of_container stop_words = Ok s -> well_formed s.
Proof.
  unfold SearchServer_of_container, bind.
  destruct (insert_stop_words _ _) as [sw|] eqn:Hsw; try discriminate.
  intros [= <-]. split; simpl; try contradiction; auto.
  intros word Hstop. unfold IsStopWord in Hstop. simpl in Hstop.
  apply set_count_In in Hstop.
  apply insert_stop_words_valid in Hsw; auto.
  rewrite Forall_forall in Hsw. auto.
Qed.

Lemma add_word_freq_within documents document_id inv freqs word :
  postings_within documents document_id freqs ->
  postings_within documents document_id (add_word_freq document_id inv freqs word).
Proof.
  intros Hin w p Hp. unfold add_word_freq in Hp.
  apply In_map_update in Hp. destruct Hp as [[-> ->] | Hp]; [|exact (Hin _ _ Hp)].
  destruct (map_find word freqs) as [p0|] eqn:Hfind.
  - apply map_find_In in Hfind. destruct (Hin _ _ Hfind) as [Hord Hdocs].
    split.
    + now apply ordered_update.
    + intros d f Hdf. apply In_map_update in Hdf.
      destruct Hdf as [[-> _] | Hdf]; eauto.
  - split.
    + simpl. auto.
    + simpl. intros d f [[= <- _] | []]. now left.
Qed.

Lemma fold_add_word_freq_ordered document_id inv words freqs :
  ordered freqs ->
  ordered (fold_left (add_word_freq document_id inv) words freqs).
Proof.
  revert freqs. induction words as [|w words IH]; simpl; auto.
  intros freqs Hord. apply IH. unfold add_word_freq. now apply ordered_update.
Qed.

Lemma fold_add_word_freq_within documents document_id inv words freqs :
  postings_within documents document_id freqs ->
  postings_within documents document_id
    (fold_left (add_word_freq document_id inv) words freqs).
Proof.
  revert freqs. induction words as [|w words IH]; simpl; auto.
  intros freqs Hin. apply IH. now apply add_word_freq_within.
Qed.

Lemma AddDocument_Ok_inv document_id document status ratings s s' :
  AddDocument document_id document status ratings s = (Ok tt, s') ->
  0 <= document_id /\
  map_find document_id (documents_ s) = None /\
  exists words,
    SplitIntoWordsNoStop s document = Ok words /\
    s' = {| stop_words_ := stop_words_ s;
            word_to_document_freqs_ :=
              fold_left
                (add_word_freq document_id (1 / double_of_size (List.length words))%float)
                words (word_to_document_freqs_ s);
            documents_ :=
              map_emplace document_id
                {| DocumentData.rating := ComputeAverageRating ratings;
                   DocumentData.status := status |}
                (documents_ s);
            document_id_sequence_ := document_id_sequence_ s ++ [document_id] |}.
Proof.
  unfold AddDocument.
  destruct (document_id <? 0) eqn:Hneg; try discriminate.
  unfold map_count.
  destruct (map_find document_id (documents_ s)) eqn:Hfind; simpl; try discriminate.
  destruct (SplitIntoWordsNoStop s document) as [words|] eqn:Hsplit; try discriminate.
  intros [= <-]. apply Z.ltb_ge in Hneg. eauto.
Qed.

Lemma well_formed_AddDocument document_id document status ratings s s' :
  well_formed s ->
  AddDocument document_id document status ratings s = (Ok tt, s') ->
  well_formed s'.
Proof.
  intros Hwf Hadd.
  apply AddDocument_Ok_inv in Hadd.
  destruct Hadd as (Hid & Hfresh & words & Hsplit & ->).
  assert (Hwithin : postings_within (documents_ s) document_id
                      (word_to_document_freqs_ s)).
  { intros w p Hp. split.
    - eapply wf_postings_ordered; eauto.
    - intros d f Hdf. right. eapply wf_postings_stored; eauto. }
  apply (fold_add_word_freq_within _ _
           (1 / double_of_size (List.length words))%float words) in Hwithin.
  split; simpl.
  - apply fold_add_word_freq_ordered. apply (wf_index_ordered s Hwf).
  - unfold map_emplace. apply ordered_update. apply (wf_documents_ordered s Hwf).
  - intros w p Hp. now apply (Hwithin w p).
  - intros w p d f Hp Hdf. unfold map_emplace.
    destruct (Z.eq_dec d document_id) as [-> | Hne].
    + rewrite map_find_update_same. eauto.
    + rewrite map_find_update_other by assumption.
      destruct (Hwithin w p Hp) as [_ Hdocs].
      destruct (Hdocs d f Hdf) as [-> | Hstored]; [contradiction | assumption].
  - rewrite length_app. simpl. unfold map_emplace.
    rewrite map_update_length_absent by assumption.
    rewrite (wf_sequence s Hwf). lia.
  - intros word Hstop. apply (wf_stop_words s Hwf). exact Hstop.
Qed.

Lemma reachable_well_formed s : reachable s -> well_formed s.
Proof.
  induction 1 as [stop_words s Hnew | s document_id document status ratings s' _ IH Hadd].
  - eapply well_formed_new; eauto.
  - eapply well_formed_AddDocument; eauto.
Qed.

Lemma reachable_after document_id document status ratings s :
  reachable s ->
  fst (AddDocument document_id document status ratings s) = Ok tt ->
  reachable (after_AddDocument document_id document status ratings s).
Proof.
  intros Hs Hfst. eapply reachable_add; eauto.
  unfold after_AddDocument. rewrite <- Hfst. apply surjective_pairing.
Qed.

Lemma main_stop_words_reachable : reachable main_stop_words.
Proof.
  apply (reachable_new (SplitIntoWords "is are was a an in the with near at")).
  vm_compute. reflexivity.
Qed.

Lemma main_server_reachable : reachable main_server.
Proof.
  unfold main_server.
  repeat (apply reachable_after; [| vm_compute; reflexivity]).
  exact main_stop_words_reachable.
Qed.

Lemma to_int_small z : -2147483648 <= z < 2147483648 -> to_int z = z.
Proof. intros Hz. unfold to_int. rewrite Z.mod_small; lia. Qed.

(** ** AddDocument: failures *)

Lemma SplitIntoWordsNoStop_loop_Throw s split words e :
  SplitIntoWordsNoStop_loop s split words = Throw e ->
  e = invalid_argument what_document_chars /\
  exists word, In word split /\ IsValidWord word = false.
Proof.
  revert words. induction split as [|w split IH]; simpl; intros words; try discriminate.
  destruct (IsValidWord w) eqn:Hvalid.
  - destruct (negb (IsStopWord s w)); intros Hrun;
      destruct (IH _ Hrun) as (He & x & Hx & Hinvalid); eauto.
  - intros [= <-]. eauto.
Qed.

Lemma SplitIntoWordsNoStop_loop_invalid s split words word :
  In word split -> IsValidWord word = false ->
  SplitIntoWordsNoStop_loop s split words = Throw (invalid_argument what_document_chars).
Proof.
  revert words. induction split as [|w split IH]; simpl; intros words Hin Hinvalid.
  - contradiction.
  - destruct (IsValidWord w) eqn:Hvalid; auto.
    destruct Hin as [-> | Hin]; [congruence|].
    destruct (negb (IsStopWord s w)); auto.
Qed.

(** The three causes make [AddDocument] throw, and it hands the server back. *)
Lemma AddDocument_throws document_id document status ratings s :
  document_id < 0 \/
  (exists data, map_find document_id (documents_ s) = Some data) \/
  (exists word, In word (SplitIntoWords document) /\ IsValidWord word = false) ->
  exists what,
    AddDocument document_id document status ratings s
    = (Throw (invalid_argument what), s).
Proof.
  intros Hcause. unfold AddDocument.
  destruct (document_id <? 0) eqn:Hneg; eauto.
  unfold map_count.
  destruct (map_find document_id (documents_ s)) eqn:Hfind; simpl; eauto.
  destruct Hcause as [Hlt | [[data Hdata] | (word & Hin & Hinvalid)]].
  - apply Z.ltb_ge in Hneg. lia.
  - discriminate.
  - unfold SplitIntoWordsNoStop.
    rewrite (SplitIntoWordsNoStop_loop_invalid s _ [] word Hin Hinvalid). eauto.
Qed.

(** C4. A failed [AddDocument] has one of three causes (a negative id, an id
    that is stored already, an invalid token in the text) and leaves the
    server as it was: the inverted index, the document store, the document
    count and the insertion-order sequence are those before the call, so no
    posting of the rejected document is left behind. *)
Theorem AddDocument_failure_leaves_server
    document_id document status ratings s e s' :
  AddDocument document_id document status ratings s = (Throw e, s') ->
  (document_id < 0 \/
   (exists data, map_find document_id (documents_ s) = Some data) \/
   (exists word, In word (SplitIntoWords document) /\ IsValidWord word = false)) /\
  word_to_document_freqs_ s' = word_to_document_freqs_ s /\
  documents_ s' = documents_ s /\
  GetDocumentCount s' = GetDocumentCount s /\
  document_id_sequence_ s' = document_id_sequence_ s /\
  s' = s.
Proof.
  unfold AddDocument.
  destruct (document_id <? 0) eqn:Hneg.
  { intros [= <- <-]. apply Z.ltb_lt in Hneg. intuition. }
  unfold map_count.
  destruct (map_find document_id (documents_ s)) as [data|] eqn:Hfind; simpl.
  { intros [= <- <-]. intuition eauto. }
  destruct (SplitIntoWordsNoStop s document) as [words|] eqn:Hsplit.
  { discriminate. }
  intros [= <- <-].
  apply SplitIntoWordsNoStop_loop_Throw in Hsplit.
  destruct Hsplit as (_ & word & Hin & Hinvalid). intuition eauto.
Qed.

Lemma AddDocument_failure_leaves_server_witness :
  (1 < 0 \/
   (exists data, map_find 1 (documents_ main_server) = Some data) \/
   (exists word, In word (SplitIntoWords "fluffy dog") /\ IsValidWord word = false)) /\
  word_to_document_freqs_ (after_AddDocument 1 "fluffy dog" ACTUAL [1; 2] main_server)
  = word_to_document_freqs_ main_server /\
  documents_ (after_AddDocument 1 "fluffy dog" ACTUAL [1; 2] main_server)
  = documents_ main_server /\
  GetDocumentCount (after_AddDocument 1 "fluffy dog" ACTUAL [1; 2] main_server)
  = GetDocumentCount main_server /\
  document_id_sequence_ (after_AddDocument 1 "fluffy dog" ACTUAL [1; 2] main_server)
  = document_id_sequence_ main_server /\
  after_AddDocument 1 "fluffy dog" ACTUAL [1; 2] main_server = main_server.
Proof.
  apply (AddDocument_failure_leaves_server 1 "fluffy dog" ACTUAL [1; 2] main_server
           (invalid_argument what_existing_id)).
  vm_compute. reflexivity.
Defined.

(** ** MatchDocument *)

Lemma match_plus_words_filter s document_id words matched_words :
  match_plus_words s document_id words matched_words
  = Ok (matched_words ++ filter (has_posting s document_id) words).
Proof.
  revert matched_words.
  induction words as [|w words IH]; simpl; intros matched_words.
  - now rewrite app_nil_r.
  - unfold has_posting, map_count at 1, map_at.
    destruct (map_find w (word_to_document_freqs_ s)) as [postings|]; simpl.
    + destruct (0 <? map_count document_id postings)%nat.
      * rewrite IH, <- app_assoc. reflexivity.
      * apply IH.
    + apply IH.
Qed.

Lemma match_minus_words_existsb s document_id words matched_words :
  match_minus_words s document_id words matched_words
  = Ok (if existsb (has_posting s document_id) words then [] else matched_words).
Proof.
  induction words as [|w words IH]; simpl.
  - reflexivity.
  - unfold has_posting at 1, map_count at 1, map_at.
    destruct (map_find w (word_to_document_freqs_ s)) as [postings|]; simpl.
    + destruct (0 <? map_count document_id postings)%nat; simpl; auto.
    + apply IH.
Qed.

Lemma string_empty_false raw : raw <> EmptyString -> string_empty raw = false.
Proof. destruct raw; simpl; congruence. Qed.

(** No term has a posting for a document that is not stored. *)
Lemma has_posting_stored s document_id word :
  well_formed s ->
  has_posting s document_id word = true ->
  exists data, map_find document_id (documents_ s) = Some data.
Proof.
  intros Hwf. unfold has_posting, map_count.
  destruct (map_find word (word_to_document_freqs_ s)) as [postings|] eqn:Hw;
    try discriminate.
  destruct (map_find document_id postings) as [f|] eqn:Hd; try discriminate.
  intros _. apply map_find_In in Hw. apply map_find_In in Hd.
  eapply wf_postings_stored; eauto.
Qed.



(** A minus word with a posting for the document empties the answer. *)
Example MatchDocument_minus_word :
  MatchDocument main_server "white -cat" 3 = Ok ([], ACTUAL).
Proof. vm_compute. reflexivity. Qed.

(** C9. For a non-negative id that is not stored and a query that parses,
    [MatchDocument] does not return an empty answer: both loops over the
    query run to their end without an exception, and on a reachable server
    they match no word, but the lookup of the document's status then throws
    [out_of_range] for the absent key. *)
Theorem MatchDocument_absent_document s raw_query document_id query :
  reachable s ->
  raw_query <> EmptyString ->
  ParseQuery s raw_query = Ok query ->
  0 <= document_id ->
  map_find document_id (documents_ s) = None ->
  match_plus_words s document_id (plus_words query) [] = Ok [] /\
  match_minus_words s document_id (minus_words query) [] = Ok [] /\
  MatchDocument s raw_query document_id = Throw (out_of_range "map::at") /\
  forall answer, MatchDocument s raw_query document_id <> Ok answer.
Proof.
  intros Hreach Hraw Hparse Hid Habsent.
  apply reachable_well_formed in Hreach.
  assert (Hnone : forall words, filter (has_posting s document_id) words = []).
  { induction words as [|w words IH]; simpl; auto.
    destruct (has_posting s document_id w) eqn:Hw; auto.
    destruct (has_posting_stored _ _ _ Hreach Hw) as [data Hdata]. congruence. }
  assert (Hthrow : MatchDocument s raw_query document_id
                   = Throw (out_of_range "map::at")).
  { unfold MatchDocument.
    apply Z.ltb_ge in Hid. rewrite Hid, Hparse. simpl.
    rewrite (string_empty_false _ Hraw).
    rewrite match_plus_words_filter. simpl.
    rewrite match_minus_words_existsb. simpl.
    unfold map_at. rewrite Habsent. reflexivity. }
  repeat split.
  - rewrite match_plus_words_filter, Hnone. reflexivity.
  - rewrite match_minus_words_existsb. now destruct (existsb _ _).
  - exact Hthrow.
  - intros answer. rewrite Hthrow. discriminate.
Qed.

Lemma MatchDocument_absent_document_witness :
  match_plus_words main_server 7 ["cat"; "white"] [] = Ok [] /\
  match_minus_words main_server 7 ["hound"] [] = Ok [] /\
  MatchDocument main_server "white cat -hound" 7 = Throw (out_of_range "map::at") /\
  forall answer, MatchDocument main_server "white cat -hound" 7 <> Ok answer.
Proof.
  apply (MatchDocument_absent_document main_server "white cat -hound" 7
           {| plus_words := ["cat"; "white"]; minus_words := ["hound"] |}).
  - exact main_server_reachable.
  - discriminate.
  - vm_compute. reflexivity.
  - lia.
  - vm_compute. reflexivity.
Defined.

(** ** AddDocument: a document without indexed words *)

Lemma SplitIntoWordsNoStop_loop_stop_words s split words :
  (forall word, IsStopWord s word = true -> IsValidWord word = true) ->
  Forall (fun word => IsStopWord s word = true) split ->
  SplitIntoWordsNoStop_loop s split words = Ok words.
Proof.
  intros Hvalid Hstop. induction Hstop as [|w split Hw _ IH]; simpl; auto.
  now rewrite (Hvalid _ Hw), Hw.
Qed.

(** C10. A document with a fresh non-negative id whose text has no token
    (it is empty or blank) or only stop words is added: the call returns,
    the store holds one document more, the id is the last of the
    insertion-order sequence, and the inverted index is the one before the
    call, so the quotient [1 / 0] computed for the term frequency is stored
    nowhere.  While the count fits an [int], [GetDocumentCount] is one more
    and [GetDocumentId] finds the id at the last position. *)
Theorem AddDocument_without_words document_id document status ratings s :
  reachable s ->
  0 <= document_id ->
  map_find document_id (documents_ s) = None ->
  Forall (fun word => IsStopWord s word = true) (SplitIntoWords document) ->
  exists s',
    AddDocument document_id document status ratings s = (Ok tt, s') /\
    List.length (documents_ s') = S (List.length (documents_ s)) /\
    document_id_sequence_ s' = document_id_sequence_ s ++ [document_id] /\
    word_to_document_freqs_ s' = word_to_document_freqs_ s /\
    (Z.of_nat (List.length (documents_ s)) < 2147483647 ->
     GetDocumentCount s' = GetDocumentCount s + 1 /\
     GetDocumentId s' (GetDocumentCount s) = Ok document_id).
Proof.
  intros Hreach Hid Hfresh Hstop.
  apply reachable_well_formed in Hreach.
  unfold AddDocument.
  apply Z.ltb_ge in Hid. rewrite Hid.
  unfold map_count. rewrite Hfresh. simpl.
  unfold SplitIntoWordsNoStop.
  rewrite (SplitIntoWordsNoStop_loop_stop_words s _ []
             (wf_stop_words s Hreach) Hstop).
  simpl. eexists. split; [reflexivity|]. simpl.
  assert (Hlen : List.length (map_emplace document_id
                    {| DocumentData.rating := ComputeAverageRating ratings;
                       DocumentData.status := status |} (documents_ s))
                 = S (List.length (documents_ s))).
  { unfold map_emplace. now apply map_update_length_absent. }
  split; [exact Hlen|]. split; [reflexivity|]. split; [reflexivity|].
  intros Hfits.
  assert (Hcount : GetDocumentCount s = Z.of_nat (List.length (documents_ s))).
  { unfold GetDocumentCount. apply to_int_small. lia. }
  split.
  - rewrite Hcount. unfold GetDocumentCount. simpl. rewrite Hlen.
    rewrite to_int_small; lia.
  - rewrite Hcount. unfold GetDocumentId, GetDocumentCount. simpl. rewrite Hlen.
    rewrite (to_int_small (Z.of_nat (S _))) by lia.
    replace (0 <=? Z.of_nat (List.length (documents_ s))) with true
      by (symmetry; apply Z.leb_le; lia).
    replace (Z.of_nat (List.length (documents_ s))
             <? Z.of_nat (S (List.length (documents_ s)))) with true
      by (symmetry; apply Z.ltb_lt; lia).
    simpl. rewrite Nat2Z.id, <- (wf_sequence s Hreach).
    rewrite app_nth2, Nat.sub_diag by lia. reflexivity.
Qed.

Lemma AddDocument_without_words_witness :
  exists s',
    AddDocument 5 " the  with a " BANNED [4; 4] main_server = (Ok tt, s') /\
    List.length (documents_ s') = S (List.length (documents_ main_server)) /\
    document_id_sequence_ s' = document_id_sequence_ main_server ++ [5] /\
    word_to_document_freqs_ s' = word_to_document_freqs_ main_server /\
    GetDocumentCount s' = GetDocumentCount main_server + 1 /\
    GetDocumentId s' (GetDocumentCount main_server) = Ok 5.
Proof.
  destruct (AddDocument_without_words 5 " the  with a " BANNED [4; 4] main_server)
    as (s' & Hadd & Hlen & Hseq & Hfreqs & Hcount).
  - exact main_server_reachable.
  - lia.
  - vm_compute. reflexivity.
  - vm_compute. repeat constructor.
  - exists s'. repeat split; auto; apply Hcount; vm_compute; reflexivity.
Defined.

(** The empty text is such a document, too. *)
Example AddDocument_empty_text :
  fst (AddDocument 5 "" ACTUAL [] main_server) = Ok tt /\
  word_to_document_freqs_ (after_AddDocument 5 "" ACTUAL [] main_server)
  = word_to_document_freqs_ main_server /\
  GetDocumentCount (after_AddDocument 5 "" ACTUAL [] main_server) = 5 /\
  GetDocumentId (after_AddDocument 5 "" ACTUAL [] main_server) 4 = Ok 5.
Proof. vm_compute. repeat split; reflexivity. Qed.

(** ** ParseQuery: the minus-word errors *)

Lemma ParseQueryWord_Throw s word e :
  ParseQueryWord s word = Throw e -> exists what, e = invalid_argument what.
Proof.
  unfold ParseQueryWord.
  destruct (IsValidWord word);
    [destruct (Ascii.eqb (string_front word) minus);
     [destruct (Ascii.eqb (string_front (substr1 word)) minus);
      [|destruct (string_empty (substr1 word))]|]|];
    intros [= <-] || discriminate; eauto.
Qed.

Lemma ParseQuery_loop_first s before word after query e :
  Forall (fun w => exists query_word, ParseQueryWord s w = Ok query_word) before ->
  ParseQueryWord s word = Throw e ->
  ParseQuery_loop s (before ++ word :: after) query = Throw e.
Proof.
  intros Hbefore Hword. revert query.
  induction Hbefore as [|w before [query_word Hw] _ IH]; simpl; intros query.
  - now rewrite Hword.
  - rewrite Hw. simpl.
    destruct (negb (is_stop query_word)); [destruct (is_minus query_word)|]; apply IH.
Qed.

Lemma ParseQuery_loop_In s words word query e :
  In word words ->
  ParseQueryWord s word = Throw e ->
  exists what, ParseQuery_loop s words query = Throw (invalid_argument what).
Proof.
  intros Hin Hword. revert query.
  induction words as [|w words IH]; simpl; intros query; [contradiction|].
  destruct (ParseQueryWord s w) as [query_word|e'] eqn:Hw; simpl.
  - destruct Hin as [-> | Hin]; [congruence|].
    destruct (negb (is_stop query_word)); [destruct (is_minus query_word)|]; auto.
  - destruct (ParseQueryWord_Throw _ _ _ Hw) as [what ->]. eauto.
Qed.

Lemma ParseQueryWord_double_minus s rest :
  IsValidWord (String minus (String minus rest)) = true ->
  ParseQueryWord s (String minus (String minus rest))
  = Throw (invalid_argument what_double_minus).
Proof. intros Hvalid. unfold ParseQueryWord. now rewrite Hvalid. Qed.

Lemma ParseQueryWord_bare_minus s :
  ParseQueryWord s (String minus EmptyString)
  = Throw (invalid_argument what_bare_minus).
Proof. reflexivity. Qed.

Lemma ParseQueryWord_minus_Throw s word :
  word = String minus EmptyString \/
  (exists rest, word = String minus (String minus rest)) ->
  exists e, ParseQueryWord s word = Throw e.
Proof.
  intros [-> | [rest ->]].
  - eexists. apply ParseQueryWord_bare_minus.
  - unfold ParseQueryWord.
    destruct (IsValidWord (String minus (String minus rest))); simpl; eauto.
Qed.

(** The three conditions that [ParseQueryWord] reports are told apart by
    their messages. *)
Lemma what_minus_distinct :
  what_double_minus <> what_bare_minus /\
  what_double_minus <> what_request_chars /\
  what_bare_minus <> what_request_chars.
Proof. repeat split; discriminate. Qed.

(** C6, as the code has it.  A query with a token that is exactly [-], or
    that begins with [--], does not parse: [ParseQuery] throws
    [invalid_argument].  The condition reported is that of the first token
    that fails: when every token before such a token parses and the token
    has no control character, the bare-dash condition is reported for [-]
    and the double-minus condition for a token that begins with [--]. *)
Theorem ParseQuery_minus_word_errors s text word :
  In word (SplitIntoWords text) ->
  word = String minus EmptyString \/
  (exists rest, word = String minus (String minus rest)) ->
  (exists what, ParseQuery s text = Throw (invalid_argument what)) /\
  forall before after,
    SplitIntoWords text = before ++ word :: after ->
    Forall (fun w => exists query_word, ParseQueryWord s w = Ok query_word) before ->
    IsValidWord word = true ->
    ParseQuery s text
    = Throw (invalid_argument
               (if string_empty (substr1 word) then what_bare_minus
                else what_double_minus)).
Proof.
  intros Hin Hshape. split.
  - destruct (ParseQueryWord_minus_Throw s word Hshape) as [e He].
    unfold ParseQuery. eapply ParseQuery_loop_In; eauto.
  - intros before after Hsplit Hbefore Hvalid.
    unfold ParseQuery. rewrite Hsplit.
    apply ParseQuery_loop_first; auto.
    destruct Hshape as [-> | [rest ->]].
    + apply ParseQueryWord_bare_minus.
    + now apply ParseQueryWord_double_minus.
Qed.

Lemma ParseQuery_minus_word_errors_witness :
  (exists what, ParseQuery main_server "cat --tail" = Throw (invalid_argument what)) /\
  ParseQuery main_server "cat --tail" = Throw (invalid_argument what_double_minus).
Proof.
  destruct (ParseQuery_minus_word_errors main_server "cat --tail" "--tail")
    as [Hthrows Hfirst].
  - vm_compute. auto.
  - right. exists "tail". reflexivity.
  - split; [exact Hthrows|].
    apply (Hfirst ["cat"] []).
    + vm_compute. reflexivity.
    + repeat constructor. eexists. vm_compute. reflexivity.
    + vm_compute. reflexivity.
Defined.

(** The two queries of the specification. *)
Example ParseQuery_cat_double_minus :
  ParseQuery main_server "cat --tail" = Throw (invalid_argument what_double_minus).
Proof. vm_compute. reflexivity. Qed.

Example ParseQuery_cat_bare_minus :
  ParseQuery main_server "cat -" = Throw (invalid_argument what_bare_minus).
Proof. vm_compute. reflexivity. Qed.

(** C6, as the specification states it, fails: a query can hold a
    double-minus token and a bare dash, and only the first is reported; and
    a control character in a token that begins with [--] is reported as an
    invalid character. *)
Lemma ParseQuery_minus_word_counterexample :
  (In "--tail" (SplitIntoWords "- --tail") /\
   ParseQuery main_server "- --tail" = Throw (invalid_argument what_bare_minus) /\
   what_bare_minus <> what_double_minus) /\
  (In "-" (SplitIntoWords "--tail -") /\
   ParseQuery main_server "--tail -" = Throw (invalid_argument what_double_minus) /\
   what_double_minus <> what_bare_minus) /\
  (ParseQuery main_server
     (String minus (String minus (String (ascii_of_nat 7) EmptyString)))
   = Throw (invalid_argument what_request_chars) /\
   what_request_chars <> what_double_minus).
Proof.
  repeat split; try (vm_compute; auto; fail); discriminate.
Qed.

(** ** Paginator *)

Lemma to_int_range z : INT_MIN <= to_int z <= INT_MAX.
Proof.
  unfold to_int, INT_MIN, INT_MAX.
  pose proof (Z.mod_pos_bound (z + 2147483648) 4294967296 ltac:(lia)). lia.
Qed.


(** For a positive page size the loop makes the pages one after another,
    the last of them up to the end of the range. *)
Lemma Paginator_loop_pages m size page pages_count page_size temp_begin range_end pages :
  page + Z.of_nat m = pages_count + 1 ->
  pages_count < INT_MAX ->
  0 < page_size ->
  0 <= temp_begin ->
  temp_begin + (Z.of_nat m - 1) * page_size <= size ->
  Paginator_loop m size page pages_count page_size temp_begin range_end pages
  = Some (pages ++ pages_from m page_size temp_begin range_end).
Proof.
  revert page temp_begin pages.
  induction m as [|m IH]; intros page temp_begin pages Hpage Hcount Hsize Hbegin Hend.
  - simpl. now rewrite app_nil_r.
  - cbn [Paginator_loop]. unfold increment.
    replace (page <? INT_MAX) with true by (symmetry; apply Z.ltb_lt; lia).
    destruct m as [|m'].
    + replace (page <? pages_count) with false by (symmetry; apply Z.ltb_ge; lia).
      reflexivity.
    + replace (page <? pages_count) with true by (symmetry; apply Z.ltb_lt; lia).
      unfold iterator_plus.
      replace (0 <=? temp_begin + page_size) with true
        by (symmetry; apply Z.leb_le; lia).
      replace (temp_begin + page_size <=? size) with true
        by (symmetry; apply Z.leb_le; nia).
      cbn [andb]. rewrite IH by (lia || nia).
      cbn [pages_from]. rewrite <- app_assoc. reflexivity.
Qed.

(** The paginator of a positive page size and a range of fewer than
    [INT_MAX] elements from the beginning of the container. *)
Lemma Paginator_new_positive range_end page_size :
  0 <= range_end < INT_MAX ->
  0 < page_size ->
  Paginator_new range_end 0 range_end page_size
  = Completes (Ok
      {| range_begin_ := 0;
         range_end_ := range_end;
         range_size_ := range_end;
         pages_count_ := (range_end + page_size - 1) / page_size;
         pages_ :=
           pages_from (Z.to_nat ((range_end + page_size - 1) / page_size))
             page_size 0 range_end |}).
Proof.
  unfold INT_MAX. intros Hrange Hsize. unfold Paginator_new.
  rewrite Z.sub_0_r, to_int_small by lia.
  replace (page_size =? 0) with false by (symmetry; apply Z.eqb_neq; lia).
  replace (range_end =? INT_MIN) with false
    by (symmetry; apply Z.eqb_neq; unfold INT_MIN; lia).
  cbn [orb andb].
  rewrite Z.rem_mod_nonneg, Z.quot_div_nonneg by lia.
  pose proof (Z.div_mod range_end page_size ltac:(lia)) as Hdiv.
  pose proof (Z.mod_pos_bound range_end page_size ltac:(lia)) as Hmod.
  assert (Hq : 0 <= range_end / page_size) by (apply Z.div_pos; lia).
  assert (Hcount : (if 0 <? range_end mod page_size
                    then range_end / page_size + 1 else range_end / page_size)
                   = (range_end + page_size - 1) / page_size).
  { destruct (0 <? range_end mod page_size) eqn:Hrem.
    - apply Z.ltb_lt in Hrem.
      apply (Z.div_unique _ _ _ (range_end mod page_size - 1)); lia.
    - apply Z.ltb_ge in Hrem.
      apply (Z.div_unique _ _ _ (page_size - 1)); lia. }
  rewrite Hcount.
  set (pages_count := (range_end + page_size - 1) / page_size).
  pose proof (Z.div_mod (range_end + page_size - 1) page_size ltac:(lia)) as Hdiv'.
  pose proof (Z.mod_pos_bound (range_end + page_size - 1) page_size ltac:(lia))
    as Hmod'.
  fold pages_count in Hdiv'.
  assert (Hbounds : 0 <= pages_count <= range_end).
  { split; [apply Z.div_pos; lia | nia]. }
  rewrite Paginator_loop_pages; [reflexivity | | | | |]; unfold INT_MAX; lia.
Qed.

(** The bounds on the length are needed.  With [INT_MAX] pages the loop
    counter is incremented at [INT_MAX] after the last page. *)
Lemma Paginator_loop_INT_MAX m size page page_size temp_begin range_end pages :
  page + Z.of_nat m = INT_MAX + 1 ->
  (1 <= m)%nat ->
  Paginator_loop m size page INT_MAX page_size temp_begin range_end pages = None.
Proof.
  revert page temp_begin pages.
  induction m as [|m IH]; intros page temp_begin pages Hpage Hm; [lia|].
  cbn [Paginator_loop]. unfold increment.
  destruct m as [|m'].
  - replace (page <? INT_MAX) with false by (symmetry; apply Z.ltb_ge; lia).
    reflexivity.
  - replace (page <? INT_MAX) with true by (symmetry; apply Z.ltb_lt; lia).
    destruct (iterator_plus size temp_begin page_size); [|reflexivity].
    apply IH; lia.
Qed.

Lemma Paginate_INT_MAX_pages {A : Type} (x : A) :
  Paginate (repeat x (Z.to_nat INT_MAX)) 1 = UndefinedBehaviour.
Proof.
  unfold Paginate, Paginator_new.
  rewrite repeat_length, Z2Nat.id by (unfold INT_MAX; lia).
  rewrite Z.sub_0_r.
  change (to_int 1) with 1.
  rewrite (to_int_small INT_MAX) by (unfold INT_MAX; lia).
  rewrite Z.rem_1_r, Z.quot_1_r.
  change (1 =? 0) with false. change (0 <? 0) with false. cbn [orb andb].
  rewrite Paginator_loop_INT_MAX; [reflexivity | | ]; unfold INT_MAX; lia.
Qed.

(** With 2^31 elements the size of the range is [INT_MIN] as an [int], and
    its remainder by a page size of -1 has no defined behaviour. *)
Lemma Paginate_INT_MIN_remainder {A : Type} (x : A) :
  Paginate (repeat x (Z.to_nat 2147483648)) (to_size_t (-1)) = UndefinedBehaviour.
Proof.
  unfold Paginate, Paginator_new.
  rewrite repeat_length, Z2Nat.id by lia.
  reflexivity.
Qed.



(** The pages of the specification's examples. *)
Example Paginate_ten_by_three :
  exists paginator,
    Paginate [1; 2; 3; 4; 5; 6; 7; 8; 9; 10] 3 = Completes (Ok paginator) /\
    map (page_elements [1; 2; 3; 4; 5; 6; 7; 8; 9; 10]) (pages_ paginator)
    = [[1; 2; 3]; [4; 5; 6]; [7; 8; 9]; [10]].
Proof. eexists. split; reflexivity. Qed.

Example Paginate_nine_by_three :
  exists paginator,
    Paginate [1; 2; 3; 4; 5; 6; 7; 8; 9] 3 = Completes (Ok paginator) /\
    map (page_elements [1; 2; 3; 4; 5; 6; 7; 8; 9]) (pages_ paginator)
    = [[1; 2; 3]; [4; 5; 6]; [7; 8; 9]].
Proof. eexists. split; reflexivity. Qed.

(** ** RequestQueue *)

Lemma skipn_S_tl {A : Type} (k : nat) (l : list A) :
  skipn (S k) l = tl (skipn k l).
Proof.
  revert l. induction k as [|k IH]; intros [|x l]; simpl; auto.
  rewrite <- IH. reflexivity.
Qed.

Lemma lastn_all {A : Type} (n : nat) (l : list A) :
  (List.length l <= n)%nat -> lastn n l = l.
Proof.
  intros Hlen. unfold lastn.
  replace (List.length l - n)%nat with 0%nat by lia. reflexivity.
Qed.

Lemma lastn_length {A : Type} (n : nat) (l : list A) :
  List.length (lastn n l) = Nat.min n (List.length l).
Proof. unfold lastn. rewrite length_skipn. lia. Qed.

Lemma lastn_snoc_full {A : Type} (n : nat) (l : list A) (x : A) :
  (0 < n <= List.length l)%nat ->
  lastn n (l ++ [x]) = tl (lastn n l ++ [x]).
Proof.
  intros Hn. unfold lastn. rewrite length_app. simpl.
  replace (List.length l + 1 - n)%nat with (S (List.length l - n)) by lia.
  rewrite skipn_S_tl, skipn_app.
  replace (List.length l - n - List.length l)%nat with 0%nat by lia.
  reflexivity.
Qed.

Lemma lastn_In {A : Type} (n : nat) (l : list A) (x : A) :
  In x (lastn n l) -> In x l.
Proof.
  unfold lastn. intros Hin.
  rewrite <- (firstn_skipn (List.length l - n) l).
  apply in_or_app. now right.
Qed.

Lemma count_zero_snoc (l : list Z) (x : Z) :
  count_zero (l ++ [x]) = count_zero l + int_of_bool (x =? 0).
Proof. induction l as [|y l IH]; simpl; lia. Qed.

Lemma count_zero_tl (l : list Z) :
  l <> [] -> count_zero (tl l) = count_zero l - int_of_bool (hd 0 l =? 0).
Proof. destruct l as [|y l]; simpl; [congruence | lia]. Qed.

Lemma tracks_GetNoResultRequests q history :
  tracks q history ->
  GetNoResultRequests q = count_zero (lastn (Z.to_nat min_in_day_) history).
Proof.
  intros (Hmap & Hcount & _). unfold GetNoResultRequests.
  destruct (requests_ q) as [|r rs] eqn:Hreqs; [|exact Hcount].
  rewrite <- Hmap. reflexivity.
Qed.

Section RequestQueueFacts.
Context `{Cmath} `{Algorithm}.

Lemma FindTopDocuments_length s raw_query document_predicate search_results :
  FindTopDocuments s raw_query document_predicate = Ok search_results ->
  (List.length search_results <= MAX_RESULT_DOCUMENT_COUNT)%nat.
Proof.
  unfold FindTopDocuments, bind.
  destruct (ParseQuery s raw_query) as [query|]; try discriminate.
  destruct (string_empty raw_query); try discriminate.
  destruct (FindAllDocuments s query document_predicate) as [matched|];
    try discriminate.
  intros Hresults. apply Ok_inj in Hresults. subst search_results.
  destruct (MAX_RESULT_DOCUMENT_COUNT <? _)%nat eqn:Hmany.
  - rewrite length_firstn. lia.
  - now apply Nat.ltb_ge in Hmany.
Qed.

(** A request that fails is not recorded. *)
Lemma AddFindRequest_Throw search_server_ raw_query document_predicate q e :
  FindTopDocuments search_server_ raw_query document_predicate = Throw e ->
  AddFindRequest search_server_ raw_query document_predicate q = (Throw e, q).
Proof. intros Hfind. unfold AddFindRequest. now rewrite Hfind. Qed.

Lemma AddFindRequest_tracks r q history :
  request_succeeds r ->
  tracks q history ->
  tracks
    (snd (AddFindRequest (request_server r) (request_query r)
            (request_predicate r) q))
    (history ++ [request_results r]).
Proof.
  intros [results Hfind] (Hmap & Hcount & Hbound).
  pose proof (FindTopDocuments_length _ _ _ _ Hfind) as Hfive.
  unfold MAX_RESULT_DOCUMENT_COUNT in Hfive.
  unfold request_results, AddFindRequest. rewrite Hfind. simpl snd.
  set (x := Z.of_nat (List.length results)) in *.
  set (window := Z.to_nat min_in_day_) in *.
  assert (Hwindow : (0 < window)%nat /\ Z.of_nat window = min_in_day_).
  { subst window. unfold min_in_day_. lia. }
  assert (Hlen : List.length (requests_ q) = Nat.min window (List.length history)).
  { rewrite <- (length_map number_of_request_results), Hmap. apply lastn_length. }
  assert (Hbound' : Forall (fun n => 0 <= n < 2147483648) (history ++ [x])).
  { apply Forall_app. split; auto. constructor; auto. subst x. lia. }
  unfold tracks. simpl requests_. fold window.
  destruct (requests_ q) as [|r0 rs] eqn:Hreqs.
  - assert (history = []) as ->.
    { simpl in Hlen. destruct history; [reflexivity | simpl in Hlen; lia]. }
    simpl app. rewrite lastn_all by (simpl; lia).
    simpl. repeat split; auto. lia.
  - destruct (deque_size (r0 :: rs) =? min_in_day_) eqn:Hfull.
    + apply Z.eqb_eq in Hfull. unfold deque_size in Hfull.
      assert (Hge : (window <= List.length history)%nat) by lia.
      rewrite lastn_snoc_full by lia.
      repeat split; auto.
      * rewrite <- Hmap. simpl. now rewrite map_app.
      * unfold deque_pop_front. rewrite <- app_comm_cons. simpl tl.
        unfold deque_back at 1. rewrite last_last.
        cbn [number_of_no_results].
        rewrite Hcount, count_zero_tl, count_zero_snoc.
        2:{ rewrite <- Hmap. discriminate. }
        rewrite <- Hmap. unfold deque_front. cbn [hd map app].
        assert (Hfront : 0 <= number_of_request_results r0 < 2147483648).
        { rewrite Forall_forall in Hbound. apply Hbound.
          apply (lastn_In window). rewrite <- Hmap. now left. }
        rewrite to_int_small; lia.
    + apply Z.eqb_neq in Hfull. unfold deque_size in Hfull.
      assert (Hlt : (List.length history < window)%nat) by lia.
      rewrite lastn_all in Hmap, Hcount by lia.
      rewrite lastn_all by (rewrite length_app; simpl; lia).
      repeat split; auto.
      * rewrite map_app, Hmap. reflexivity.
      * unfold deque_back at 1. rewrite last_last.
        cbn [number_of_no_results].
        rewrite Hcount, count_zero_snoc. reflexivity.
Qed.

Lemma AddFindRequests_tracks requests q history :
  Forall request_succeeds requests ->
  tracks q history ->
  tracks (AddFindRequests requests q) (history ++ map request_results requests).
Proof.
  intros Hall. revert q history.
  induction Hall as [|r requests Hr _ IH]; intros q history Htracks; simpl.
  - now rewrite app_nil_r.
  - change (r :: requests) with ([r] ++ requests).
    replace (history ++ request_results r :: map request_results requests)
      with ((history ++ [request_results r]) ++ map request_results requests)
      by (rewrite <- app_assoc; reflexivity).
    apply IH. now apply AddFindRequest_tracks.
Qed.

Lemma tracks_new : tracks RequestQueue_new [].
Proof. repeat split. constructor. Qed.

End RequestQueueFacts.

Lemma GetNoResultRequests_snoc requests current record :
  GetNoResultRequests
    {| requests_ := requests ++ [record]; current_request_id_ := current |}
  = number_of_no_results record.
Proof.
  unfold GetNoResultRequests, deque_back. simpl requests_.
  rewrite last_last. destruct requests; reflexivity.
Qed.

Section RequestQueueWindow.
Context `{Cmath} `{Algorithm}.

(** One tracked request moves the running count by what enters the window
    and what leaves it. *)
Lemma AddFindRequest_running_count r q history :
  request_succeeds r ->
  tracks q history ->
  GetNoResultRequests
    (snd (AddFindRequest (request_server r) (request_query r)
            (request_predicate r) q))
  = GetNoResultRequests q
    + int_of_bool (request_results r =? 0)
    - (if deque_size (requests_ q) =? min_in_day_
       then int_of_bool (number_of_request_results (deque_front (requests_ q)) =? 0)
       else 0).
Proof.
  intros [results Hfind] (Hmap & Hcount & Hbound).
  unfold request_results, AddFindRequest. rewrite Hfind. simpl snd.
  destruct (requests_ q) as [|r0 rs] eqn:Hreqs.
  - unfold GetNoResultRequests at 2. rewrite Hreqs.
    change [?x] with ([] ++ [x]). rewrite GetNoResultRequests_snoc.
    cbn [number_of_no_results]. unfold deque_size, min_in_day_. simpl. lia.
  - unfold GetNoResultRequests at 2. rewrite Hreqs.
    assert (Hfront : 0 <= number_of_request_results r0 < 2147483648).
    { rewrite Forall_forall in Hbound. apply Hbound.
      apply (lastn_In (Z.to_nat min_in_day_)). rewrite <- Hmap. now left. }
    destruct (deque_size (r0 :: rs) =? min_in_day_).
    + unfold deque_pop_front. rewrite <- app_comm_cons. simpl tl.
      rewrite GetNoResultRequests_snoc. cbn [number_of_no_results].
      unfold deque_front. cbn [hd]. rewrite to_int_small; lia.
    + rewrite GetNoResultRequests_snoc. cbn [number_of_no_results]. lia.
Qed.

Lemma AddFindRequests_snoc requests r q :
  AddFindRequests (requests ++ [r]) q
  = snd (AddFindRequest (request_server r) (request_query r)
           (request_predicate r) (AddFindRequests requests q)).
Proof. unfold AddFindRequests. now rewrite fold_left_app. Qed.

(** C3. After n tracked requests that all return, made on a new queue, the
    queue holds one record for each of the most recent min (n, 1440)
    requests, oldest first (the older ones were evicted in the order of
    their arrival); the running count in the newest record, which is what
    [GetNoResultRequests] reports, is the number of requests among these
    that had no result.  The count is kept incrementally: one more request
    changes it by one for a request without results and by minus one when
    the record that it evicts had none. *)
Theorem RequestQueue_sliding_window requests :
  Forall request_succeeds requests ->
  List.length (requests_ (AddFindRequests requests RequestQueue_new))
  = Nat.min (List.length requests) (Z.to_nat min_in_day_) /\
  map number_of_request_results
    (requests_ (AddFindRequests requests RequestQueue_new))
  = lastn (Z.to_nat min_in_day_) (map request_results requests) /\
  number_of_no_results
    (deque_back (requests_ (AddFindRequests requests RequestQueue_new)))
  = count_zero (lastn (Z.to_nat min_in_day_) (map request_results requests)) /\
  GetNoResultRequests (AddFindRequests requests RequestQueue_new)
  = count_zero (lastn (Z.to_nat min_in_day_) (map request_results requests)) /\
  forall r,
    request_succeeds r ->
    GetNoResultRequests (AddFindRequests (requests ++ [r]) RequestQueue_new)
    = GetNoResultRequests (AddFindRequests requests RequestQueue_new)
      + int_of_bool (request_results r =? 0)
      - (if deque_size (requests_ (AddFindRequests requests RequestQueue_new))
            =? min_in_day_
         then int_of_bool
                (number_of_request_results
                   (deque_front
                      (requests_ (AddFindRequests requests RequestQueue_new))) =? 0)
         else 0).
Proof.
  intros Hall.
  pose proof (AddFindRequests_tracks requests RequestQueue_new [] Hall tracks_new)
    as Htracks.
  simpl app in Htracks.
  pose proof Htracks as (Hmap & Hback & _).
  split; [|split; [|split; [|split]]].
  - rewrite <- (length_map number_of_request_results), Hmap, lastn_length.
    rewrite length_map. lia.
  - exact Hmap.
  - exact Hback.
  - now apply tracks_GetNoResultRequests.
  - intros r Hr. rewrite AddFindRequests_snoc.
    eapply AddFindRequest_running_count; eauto.
Qed.

End RequestQueueWindow.

Lemma RequestQueue_sliding_window_witness :
  List.length
    (requests_ (@AddFindRequests Cmath_series Algorithm_insertion
                  main_requests RequestQueue_new)) = 4%nat /\
  map number_of_request_results
    (requests_ (@AddFindRequests Cmath_series Algorithm_insertion
                  main_requests RequestQueue_new)) = [3; 0; 0; 1] /\
  GetNoResultRequests
    (@AddFindRequests Cmath_series Algorithm_insertion
       main_requests RequestQueue_new) = 2.
Proof.
  destruct (@RequestQueue_sliding_window Cmath_series Algorithm_insertion
              main_requests) as (Hlen & Hmap & _ & Hcount & _).
  - repeat constructor; eexists; vm_compute; reflexivity.
  - split; [|split].
    + rewrite Hlen. reflexivity.
    + rewrite Hmap. vm_compute. reflexivity.
    + rewrite Hcount. vm_compute. reflexivity.
Defined.

(** The window of the specification's test: a request without results and
    1440 requests with results after it.  The count is 1 until the first
    request is evicted by the last one, and 0 then. *)
Example RequestQueue_first_request_evicted :
  let without := {| request_server := main_server; request_query := "zebra";
                    request_predicate := fun _ _ _ => true |} in
  let found := {| request_server := main_server; request_query := "red";
                  request_predicate := fun _ _ _ => true |} in
  GetNoResultRequests
    (@AddFindRequests Cmath_series Algorithm_insertion
       (without :: repeat found 1439) RequestQueue_new) = 1 /\
  GetNoResultRequests
    (@AddFindRequests Cmath_series Algorithm_insertion
       (without :: repeat found 1440) RequestQueue_new) = 0 /\
  List.length
    (requests_ (@AddFindRequests Cmath_series Algorithm_insertion
                  (without :: repeat found 1440) RequestQueue_new)) = 1440%nat.
Proof. vm_compute. repeat split; reflexivity. Qed.

(** ** FindAllDocuments *)

Section FindAllDocumentsFacts.
Context `{Cmath}.
Variable s : SearchServer.
Variable document_predicate : DocumentPredicate.
Hypothesis Hwf : well_formed s.

Lemma add_relevance_spec idf postings relevance :
  ordered postings ->
  ordered relevance ->
  (forall d f, In (d, f) postings ->
     exists data, map_find d (documents_ s) = Some data) ->
  exists relevance',
    add_relevance s document_predicate idf postings relevance
    = Ok relevance' /\
    ordered relevance' /\
    forall d,
      map_find d relevance'
      = match map_find d postings with
        | Some term_freq =>
            if passes s document_predicate d
            then Some (or_zero (map_find d relevance)
                       + term_freq * idf)%float
            else map_find d relevance
        | None => map_find d relevance
        end.
Proof.
  revert relevance.
  induction postings as [|[d0 tf0] postings IH]; intros relevance Hord Hrel Hstored.
  - simpl. eauto.
  - destruct Hord as [Hbelow Hord].
    destruct (Hstored d0 tf0 (or_introl eq_refl)) as [data Hdata].
    assert (Hstored' : forall d f, In (d, f) postings ->
              exists data, map_find d (documents_ s) = Some data).
    { intros d f Hin. apply (Hstored d f). now right. }
    cbn [add_relevance]. unfold map_at at 1. rewrite Hdata. cbn [bind].
    assert (Hpasses : passes s document_predicate d0
                      = document_predicate d0 (DocumentData.status data)
                          (DocumentData.rating data)).
    { unfold passes. now rewrite Hdata. }
    rewrite <- Hpasses.
    destruct (passes s document_predicate d0) eqn:Hp.
    + match goal with
      | |- context [add_relevance _ _ _ postings ?m] =>
          destruct (IH m Hord (ordered_update _ _ _ Hrel) Hstored')
            as (relevance' & Hrun & Hord' & Hfind)
      end.
      exists relevance'. split; [exact Hrun|]. split; [exact Hord'|].
      intros d. rewrite Hfind. cbn [map_find].
      destruct (cmp d d0) eqn:E.
      * apply cmp_eq in E. subst d.
        rewrite (below_find _ _ Hbelow), map_find_update_same, Hp. reflexivity.
      * rewrite (below_find _ _ (below_trans _ _ _ E Hbelow)).
        apply map_find_update_other. now apply cmp_lt_neq.
      * assert (Hne : d <> d0).
        { intros ->. rewrite cmp_refl in E. discriminate. }
        rewrite (map_find_update_other d0 d _ _ Hne). reflexivity.
    + destruct (IH _ Hord Hrel Hstored') as (relevance' & Hrun & Hord' & Hfind).
      exists relevance'. split; [exact Hrun|]. split; [exact Hord'|].
      intros d. rewrite Hfind. cbn [map_find].
      destruct (cmp d d0) eqn:E.
      * apply cmp_eq in E. subst d.
        rewrite (below_find _ _ Hbelow), Hp. reflexivity.
      * rewrite (below_find _ _ (below_trans _ _ _ E Hbelow)). reflexivity.
      * reflexivity.
Qed.

Lemma add_plus_words_spec words relevance :
  ordered relevance ->
  exists relevance',
    add_plus_words s document_predicate words relevance = Ok relevance' /\
    ordered relevance' /\
    forall d,
      map_find d relevance' = fold_left (add_word s document_predicate d) words (map_find d relevance).
Proof.
  revert relevance. induction words as [|w words IH]; intros relevance Hrel.
  - simpl. eauto.
  - cbn [add_plus_words fold_left].
    unfold ComputeWordInverseDocumentFreq, map_count at 1, map_at.
    destruct (map_find w (word_to_document_freqs_ s)) as [postings|] eqn:Hw.
    + cbn [Nat.eqb bind].
      pose proof (map_find_In _ _ _ Hw) as Hin.
      destruct (add_relevance_spec (inverse_document_freq s postings)
                  postings relevance)
        as (relevance1 & Hrun1 & Hord1 & Hfind1); auto.
      { eapply wf_postings_ordered; eauto. }
      { intros d f Hdf. eapply wf_postings_stored; eauto. }
      unfold inverse_document_freq in Hrun1. rewrite Hrun1. cbn [bind].
      destruct (IH _ Hord1) as (relevance' & Hrun & Hord' & Hfind).
      exists relevance'. split; [exact Hrun|]. split; [exact Hord'|].
      intros d. rewrite Hfind, Hfind1. f_equal.
      unfold add_word. rewrite Hw. reflexivity.
    + cbn [Nat.eqb]. destruct (IH _ Hrel) as (relevance' & Hrun & Hord' & Hfind).
      exists relevance'. split; [exact Hrun|]. split; [exact Hord'|].
      intros d. rewrite Hfind. f_equal. unfold add_word. now rewrite Hw.
Qed.

Lemma fold_add_word_fails d words r :
  passes s document_predicate d = false ->
  fold_left (add_word s document_predicate d) words r = r.
Proof.
  intros Hp. revert r. induction words as [|w words IH]; intros r; simpl; auto.
  rewrite IH. unfold add_word. rewrite Hp.
  destruct (map_find w (word_to_document_freqs_ s)) as [postings|]; auto.
  destruct (map_find d postings); auto.
Qed.

Lemma fold_add_word_unmatched d words r :
  existsb (has_posting s d) words = false ->
  fold_left (add_word s document_predicate d) words r = r.
Proof.
  revert r. induction words as [|w words IH]; intros r; simpl; auto.
  intros Hnone. apply orb_false_iff in Hnone. destruct Hnone as [Hw Hnone].
  rewrite (IH _ Hnone). unfold add_word. unfold has_posting, map_count in Hw.
  destruct (map_find w (word_to_document_freqs_ s)) as [postings|]; auto.
  destruct (map_find d postings); auto. discriminate.
Qed.

Lemma fold_add_word_Some d words x :
  passes s document_predicate d = true ->
  fold_left (add_word s document_predicate d) words (Some x)
  = Some (fold_left (add_term s d) words x).
Proof.
  intros Hp. revert x. induction words as [|w words IH]; intros x; simpl; auto.
  unfold add_word at 2, add_term at 2. rewrite Hp.
  destruct (map_find w (word_to_document_freqs_ s)) as [postings|]; auto.
  destruct (map_find d postings); apply IH.
Qed.

Lemma fold_add_word_matched d words r :
  passes s document_predicate d = true ->
  existsb (has_posting s d) words = true ->
  fold_left (add_word s document_predicate d) words r
  = Some (fold_left (add_term s d) words (or_zero r)).
Proof.
  intros Hp. revert r.
  induction words as [|w words IH]; intros r; simpl; try discriminate.
  unfold add_word at 2, add_term at 2, has_posting at 1, map_count.
  rewrite Hp.
  destruct (map_find w (word_to_document_freqs_ s)) as [postings|]; simpl; auto.
  destruct (map_find d postings) as [term_freq|]; simpl; auto.
  intros _. now apply fold_add_word_Some.
Qed.

Lemma existsb_posting (d : Z) (postings : list (Z * float)) :
  ordered postings ->
  existsb (fun posting => fst posting =? d) postings
  = (0 <? map_count d postings)%nat.
Proof.
  intros Hord. unfold map_count.
  destruct (map_find d postings) as [f|] eqn:Hfind.
  - apply existsb_exists. exists (d, f). split.
    + now apply map_find_In.
    + apply Z.eqb_refl.
  - apply not_true_is_false. intros Hex.
    apply existsb_exists in Hex. destruct Hex as ([d' f] & Hin & Heq).
    simpl in Heq. apply Z.eqb_eq in Heq. subst d'.
    rewrite (In_map_find _ _ _ Hord Hin) in Hfind. discriminate.
Qed.

Lemma erase_postings_spec postings rel_map :
  ordered rel_map ->
  ordered (erase_postings postings rel_map) /\
  forall d,
    map_find d (erase_postings postings rel_map)
    = if existsb (fun posting => fst posting =? d) postings then None
      else map_find d rel_map.
Proof.
  revert rel_map. unfold erase_postings.
  induction postings as [|[d0 f0] postings IH]; intros rel_map Hord; simpl; auto.
  destruct (IH _ (ordered_erase d0 _ Hord)) as [Hord' Hfind].
  split; [exact Hord'|]. intros d. rewrite Hfind.
  destruct (existsb _ postings); [now rewrite orb_true_r|].
  rewrite orb_false_r. destruct (Z.eqb_spec d0 d) as [-> | Hne].
  - now apply map_find_erase_same.
  - apply map_find_erase_other; auto.
Qed.

Lemma erase_minus_words_spec words rel_map :
  ordered rel_map ->
  exists rel_map',
    erase_minus_words s words rel_map = Ok rel_map' /\
    ordered rel_map' /\
    forall d,
      map_find d rel_map'
      = if existsb (has_posting s d) words then None else map_find d rel_map.
Proof.
  revert rel_map. induction words as [|w words IH]; intros rel_map Hord.
  - simpl. eauto.
  - cbn [erase_minus_words existsb].
    unfold has_posting at 1, map_count at 1, map_at.
    destruct (map_find w (word_to_document_freqs_ s)) as [postings|] eqn:Hw.
    + cbn [Nat.eqb bind].
      destruct (erase_postings_spec postings rel_map Hord) as [Hord1 Hfind1].
      destruct (IH _ Hord1) as (rel_map' & Hrun & Hord' & Hfind).
      exists rel_map'. split; [exact Hrun|]. split; [exact Hord'|].
      intros d. rewrite Hfind, Hfind1.
      rewrite existsb_posting
        by (apply (wf_postings_ordered s Hwf w); now apply map_find_In).
      destruct (0 <? map_count d postings)%nat; simpl; auto.
      now destruct (existsb _ words).
    + cbn [Nat.eqb]. destruct (IH _ Hord) as (rel_map' & Hrun & Hord' & Hfind).
      exists rel_map'. split; [exact Hrun|]. split; [exact Hord'|].
      intros d. rewrite Hfind. reflexivity.
Qed.

Lemma collect_documents_spec rel_map matched_documents :
  (forall d r, In (d, r) rel_map ->
     exists data, map_find d (documents_ s) = Some data) ->
  exists documents,
    collect_documents s rel_map matched_documents
    = Ok (matched_documents ++ documents) /\
    forall document,
      In document documents <->
      In (id document, relevance document) rel_map /\
      exists data,
        map_find (id document) (documents_ s) = Some data /\
        rating document = DocumentData.rating data.
Proof.
  revert matched_documents.
  induction rel_map as [|[d0 r0] rel_map IH]; intros matched_documents Hstored.
  - exists []. split; [simpl; now rewrite app_nil_r|].
    intros document. simpl. tauto.
  - destruct (Hstored d0 r0 (or_introl eq_refl)) as [data Hdata].
    cbn [collect_documents]. unfold map_at. rewrite Hdata. cbn [bind].
    edestruct IH as (documents & Hrun & Hin).
    { intros d r Hdr. apply (Hstored d r). now right. }
    rewrite Hrun, <- app_assoc.
    eexists. split; [reflexivity|].
    intros document. simpl. rewrite Hin. split.
    + intros [<- | [Hrel Hdoc]]; simpl; eauto.
    + intros [[Heq | Hrel] (data' & Hdata' & Hrating)].
      * left. inversion Heq; subst. destruct document as [i r g]. simpl in *.
        rewrite Hdata in Hdata'. inversion Hdata'; subst. reflexivity.
      * right. eauto.
Qed.

(** The documents that [FindAllDocuments] returns: the stored documents
    that the predicate accepts, with a posting under a plus word and under no
    minus word; the relevance of each is the sum of the specification. *)
Lemma FindAllDocuments_spec query :
  exists matched_documents,
    FindAllDocuments s query document_predicate = Ok matched_documents /\
    forall document,
      In document matched_documents <->
      (exists data,
         map_find (id document) (documents_ s) = Some data /\
         rating document = DocumentData.rating data) /\
      passes s document_predicate (id document) = true /\
      existsb (has_posting s (id document)) (plus_words query) = true /\
      existsb (has_posting s (id document)) (minus_words query) = false /\
      relevance document = relevance_sum s (plus_words query) (id document).
Proof.
  unfold FindAllDocuments.
  destruct (add_plus_words_spec (plus_words query) []) as (m1 & Hrun1 & Hord1 & Hfind1).
  { exact I. }
  rewrite Hrun1. cbn [bind].
  destruct (erase_minus_words_spec (minus_words query) m1 Hord1)
    as (m2 & Hrun2 & Hord2 & Hfind2).
  rewrite Hrun2. cbn [bind].
  assert (Hfind : forall d r,
            map_find d m2 = Some r <->
            passes s document_predicate d = true /\
            existsb (has_posting s d) (plus_words query) = true /\
            existsb (has_posting s d) (minus_words query) = false /\
            r = relevance_sum s (plus_words query) d).
  { intros d r. rewrite Hfind2, Hfind1. cbn [map_find].
    destruct (existsb (has_posting s d) (minus_words query)).
    { split; [discriminate | intros (_ & _ & Hfalse & _); discriminate]. }
    destruct (passes s document_predicate d) eqn:Hp.
    - destruct (existsb (has_posting s d) (plus_words query)) eqn:Hplus.
      + rewrite fold_add_word_matched by assumption. cbn [or_zero].
        unfold relevance_sum. split.
        * intros [= <-]. auto.
        * intros (_ & _ & _ & ->). reflexivity.
      + rewrite fold_add_word_unmatched by assumption.
        split; [discriminate | intros (_ & Hfalse & _); discriminate].
    - rewrite fold_add_word_fails by assumption.
      split; [discriminate | intros (Hfalse & _); discriminate]. }
  destruct (collect_documents_spec m2 []) as (documents & Hrun & Hin).
  { intros d r Hdr. apply (In_map_find _ _ _ Hord2) in Hdr.
    apply Hfind in Hdr. destruct Hdr as (Hp & _). unfold passes in Hp.
    destruct (map_find d (documents_ s)); [eauto | discriminate]. }
  exists documents. split; [exact Hrun|].
  intros document. rewrite Hin. split.
  - intros [Hrel Hdata]. apply (In_map_find _ _ _ Hord2) in Hrel.
    apply Hfind in Hrel. tauto.
  - intros (Hdata & Hrest). split; [|exact Hdata].
    apply map_find_In. apply Hfind. exact Hrest.
Qed.

End FindAllDocumentsFacts.

(** ** The insertion sort meets the contract of [std::sort] *)

Lemma insert_by_permutation {A : Type} (comp : A -> A -> bool) (x : A) (l : list A) :
  Permutation (insert_by comp x l) (x :: l).
Proof.
  induction l as [|y l IH]; simpl.
  - apply Permutation_refl.
  - destruct (comp x y).
    + apply Permutation_refl.
    + eapply perm_trans; [apply perm_skip, IH | apply perm_swap].
Qed.

Lemma insertion_sort_permutation {A : Type} (comp : A -> A -> bool) (l : list A) :
  Permutation (insertion_sort comp l) l.
Proof.
  induction l as [|x l IH]; simpl.
  - apply perm_nil.
  - eapply perm_trans; [apply insert_by_permutation | now apply perm_skip].
Qed.

Lemma strict_weak_order_on_incl {A : Type} (comp : A -> A -> bool) (l l' : list A) :
  incl l' l -> strict_weak_order_on comp l -> strict_weak_order_on comp l'.
Proof.
  intros Hincl [Hirr Htrans Hequiv]. split.
  - intros x Hx. apply Hirr. auto.
  - intros x y z Hx Hy Hz. apply Htrans; auto.
  - intros x y z Hx Hy Hz. apply Hequiv; auto.
Qed.

Lemma swo_asymmetric {A : Type} (comp : A -> A -> bool) (l : list A) (x y : A) :
  strict_weak_order_on comp l -> In x l -> In y l ->
  comp x y = true -> comp y x = false.
Proof.
  intros Hswo Hx Hy Hxy. destruct (comp y x) eqn:Hyx; auto.
  rewrite <- (swo_irreflexive comp l Hswo x Hx).
  symmetry. exact (swo_transitive comp l Hswo x y x Hx Hy Hx Hxy Hyx).
Qed.

Lemma insert_by_sorted {A : Type} (comp : A -> A -> bool) (x : A) (l : list A) :
  strict_weak_order_on comp (x :: l) ->
  sorted_by comp l ->
  sorted_by comp (insert_by comp x l).
Proof.
  unfold sorted_by. intros Hswo Hsorted.
  induction Hsorted as [|y l Hsorted IH Hy]; simpl.
  - constructor; constructor.
  - destruct (comp x y) eqn:Hxy.
    + constructor; [now constructor|].
      constructor.
      * apply (swo_asymmetric comp (x :: y :: l)); simpl; auto.
      * rewrite Forall_forall in *. intros z Hz.
        destruct (comp z x) eqn:Hzx; auto.
        rewrite <- (Hy z Hz). symmetry.
        apply (swo_transitive comp _ Hswo z x y); simpl; auto.
    + constructor.
      * apply IH. eapply strict_weak_order_on_incl; [|exact Hswo].
        intros z [<- | Hz]; simpl; auto.
      * rewrite Forall_forall in *. intros z Hz.
        apply (Permutation_in _ (insert_by_permutation comp x l)) in Hz.
        destruct Hz as [<- | Hz]; auto.
Qed.

Lemma insertion_sort_sorted {A : Type} (comp : A -> A -> bool) (l : list A) :
  strict_weak_order_on comp l -> sorted_by comp (insertion_sort comp l).
Proof.
  induction l as [|x l IH]; intros Hswo; simpl.
  - constructor.
  - apply insert_by_sorted.
    + eapply strict_weak_order_on_incl; [|exact Hswo].
      intros z [<- | Hz]; [now left | right].
      exact (Permutation_in _ (insertion_sort_permutation comp l) Hz).
    + apply IH. eapply strict_weak_order_on_incl; [|exact Hswo].
      intros z Hz. now right.
Qed.

Lemma AlgorithmSpec_insertion : @AlgorithmSpec Algorithm_insertion.
Proof.
  split.
  - intros A comp l. apply insertion_sort_permutation.
  - intros A comp l. apply insertion_sort_sorted.
Qed.

(** ** FindTopDocuments: relevance *)

Lemma In_firstn {A : Type} (n : nat) (l : list A) (x : A) :
  In x (firstn n l) -> In x l.
Proof.
  intros Hin. rewrite <- (firstn_skipn n l). apply in_or_app. now left.
Qed.

Section FindTopDocumentsFacts.
Context `{Cmath} `{Algorithm} `{!AlgorithmSpec}.

(** On a reachable server [FindTopDocuments] returns for every query that
    parses and is not empty: some documents found by [FindAllDocuments], in
    the order that [std::sort] gives them, cut after the first five. *)
Lemma FindTopDocuments_returns s raw_query document_predicate query :
  well_formed s ->
  raw_query <> EmptyString ->
  ParseQuery s raw_query = Ok query ->
  exists matched_documents,
    FindAllDocuments s query document_predicate = Ok matched_documents /\
    FindTopDocuments s raw_query document_predicate
    = Ok (firstn MAX_RESULT_DOCUMENT_COUNT (sort by_relevance matched_documents)).
Proof.
  intros Hwf Hraw Hparse.
  destruct (FindAllDocuments_spec s document_predicate Hwf query)
    as (matched & Hall & _).
  exists matched. split; [exact Hall|].
  unfold FindTopDocuments. rewrite Hparse. cbn [bind].
  rewrite (string_empty_false _ Hraw), Hall. cbn [bind].
  destruct (MAX_RESULT_DOCUMENT_COUNT <? _)%nat eqn:Hmany; [reflexivity|].
  apply Nat.ltb_ge in Hmany. now rewrite firstn_all2.
Qed.

(** C2. On a reachable server, every document that [FindTopDocuments]
    returns for a query has as its relevance the sum, over the plus words of
    the query that are in the inverted index, taken in the order of the set,
    of the term frequency of the word in the document times
    ln (document count / number of documents with the word); the document
    has a posting under a plus word and under no minus word, and it is a
    stored document that the predicate accepts (and whose rating is
    returned).  So a document that matches no plus word, or matches a minus
    word, or fails the predicate, is not in the result. *)
Theorem FindTopDocuments_relevance s raw_query document_predicate query documents :
  reachable s ->
  ParseQuery s raw_query = Ok query ->
  FindTopDocuments s raw_query document_predicate = Ok documents ->
  forall document,
    In document documents ->
    relevance document = relevance_sum s (plus_words query) (id document) /\
    existsb (has_posting s (id document)) (plus_words query) = true /\
    existsb (has_posting s (id document)) (minus_words query) = false /\
    exists data,
      map_find (id document) (documents_ s) = Some data /\
      rating document = DocumentData.rating data /\
      document_predicate (id document) (DocumentData.status data)
        (DocumentData.rating data) = true.
Proof.
  intros Hreach Hparse Hfind document Hin.
  apply reachable_well_formed in Hreach.
  assert (Hraw : raw_query <> EmptyString).
  { intros ->. unfold FindTopDocuments in Hfind.
    rewrite Hparse in Hfind. discriminate. }
  destruct (FindTopDocuments_returns s raw_query document_predicate query
              Hreach Hraw Hparse) as (matched & Hall & Htop).
  rewrite Htop in Hfind. apply Ok_inj in Hfind. subst documents.
  apply In_firstn in Hin.
  apply (Permutation_in _ (sort_permutation _ by_relevance matched)) in Hin.
  destruct (FindAllDocuments_spec s document_predicate Hreach query)
    as (matched' & Hall' & Hspec).
  rewrite Hall in Hall'. apply Ok_inj in Hall'. subst matched'.
  apply Hspec in Hin.
  destruct Hin as ((data & Hdata & Hrating) & Hpasses & Hplus & Hminus & Hrel).
  repeat split; auto.
  exists data. repeat split; auto.
  unfold passes in Hpasses. now rewrite Hdata in Hpasses.
Qed.

End FindTopDocumentsFacts.

Lemma FindTopDocuments_relevance_witness :
  Forall
    (fun document =>
       relevance document
       = @relevance_sum Cmath_series main_server ["cat"; "red"; "white"] (id document) /\
       existsb (has_posting main_server (id document)) ["cat"; "red"; "white"] = true /\
       existsb (has_posting main_server (id document)) ["parrot"] = false /\
       exists data,
         map_find (id document) (documents_ main_server) = Some data /\
         rating document = DocumentData.rating data /\
         DocumentStatus_eqb (DocumentData.status data) ACTUAL = true)
    [{| id := 3; relevance := 0x1.2efde816246e6p-2; rating := 1 |};
     {| id := 2; relevance := 0x1.f62f40794a7b8p-3; rating := 3 |}].
Proof.
  apply Forall_forall.
  apply (@FindTopDocuments_relevance Cmath_series Algorithm_insertion
           AlgorithmSpec_insertion main_server "white cat -parrot red the"
           (fun _ status _ => DocumentStatus_eqb status ACTUAL)
           {| plus_words := ["cat"; "red"; "white"]; minus_words := ["parrot"] |}).
  - exact main_server_reachable.
  - vm_compute. reflexivity.
  - vm_compute. reflexivity.
Defined.

(** ** FindTopDocuments: the order of the results *)





Section FindTopDocumentsOrder.
Context `{Cmath} `{Algorithm} `{!AlgorithmSpec}.


End FindTopDocumentsOrder.


(** *** Relevances within 1e-6 of one another, in a chain *)






(* ================================================================== *)
(** * Further properties of the code *)

(** ** SplitIntoWords *)

Lemma append_empty_r (word : string) : (word ++ EmptyString)%string = word.
Proof. induction word as [|c word IH]; simpl; congruence. Qed.

Lemma append_assoc_string (a b c : string) :
  ((a ++ b) ++ c)%string = (a ++ (b ++ c))%string.
Proof. induction a as [|x a IH]; simpl; congruence. Qed.

Lemma string_empty_append (a b : string) :
  string_empty (a ++ b)%string = string_empty a && string_empty b.
Proof. destruct a; reflexivity. Qed.

Lemma no_space_append (a b : string) :
  no_space (a ++ b)%string = no_space a && no_space b.
Proof.
  unfold no_space. induction a as [|x a IH]; simpl; auto.
  rewrite IH. now rewrite andb_assoc.
Qed.

Lemma SplitIntoWords_loop_tokens text word words :
  no_space word = true ->
  Forall is_token words ->
  Forall is_token (SplitIntoWords_loop text word words).
Proof.
  revert word words.
  induction text as [|c text IH]; intros word words Hword Hwords; simpl.
  - destruct (string_empty word) eqn:Hempty; auto.
    apply Forall_app. split; auto. repeat constructor; auto.
  - destruct (Ascii.eqb c space) eqn:Hc.
    + destruct (string_empty word) eqn:Hempty; auto.
      apply IH; auto. apply Forall_app. split; auto. repeat constructor; auto.
    + apply IH; auto. rewrite no_space_append, Hword. unfold no_space. simpl.
      now rewrite Hc.
Qed.

(** X1. Every word that [SplitIntoWords] returns is not empty and has no
    space in it, whatever the text: leading, trailing and repeated spaces
    give no empty word. *)
Theorem SplitIntoWords_tokens text :
  Forall is_token (SplitIntoWords text).
Proof. apply SplitIntoWords_loop_tokens; [reflexivity | constructor]. Qed.

Lemma SplitIntoWords_loop_word w rest word words :
  no_space w = true ->
  SplitIntoWords_loop (w ++ rest) word words
  = SplitIntoWords_loop rest (word ++ w) words.
Proof.
  revert word. induction w as [|c w IH]; intros word Hw; simpl.
  - now rewrite append_empty_r.
  - unfold no_space in Hw. simpl in Hw. apply andb_true_iff in Hw.
    destruct Hw as [Hc Hw]. apply negb_true_iff in Hc. rewrite Hc.
    rewrite (IH _ Hw), append_assoc_string. reflexivity.
Qed.

Lemma SplitIntoWords_loop_join ws words :
  Forall is_token ws ->
  SplitIntoWords_loop (join_words ws) EmptyString words = words ++ ws.
Proof.
  intros Hws. revert words.
  induction Hws as [|w ws [Hempty Hspace] Hws IH]; intros words.
  - simpl. now rewrite app_nil_r.
  - unfold join_words in *. destruct ws as [|w' ws].
    + simpl. rewrite <- (append_empty_r w) at 1.
      rewrite SplitIntoWords_loop_word by assumption. simpl. now rewrite Hempty.
    + cbn [String.concat].
      rewrite SplitIntoWords_loop_word by assumption. simpl.
      rewrite Hempty, IH, <- app_assoc. reflexivity.
Qed.

(** X2. Splitting is the inverse of joining: words that are not empty and
    have no space, joined with one space between them, are split into the
    same words. *)
Theorem SplitIntoWords_join_words words :
  Forall is_token words ->
  SplitIntoWords (join_words words) = words.
Proof. intros Hwords. apply (SplitIntoWords_loop_join words []). exact Hwords. Qed.

Lemma SplitIntoWords_join_words_witness :
  SplitIntoWords (join_words ["white"; "cat"; "-tail"]) = ["white"; "cat"; "-tail"].
Proof.
  apply SplitIntoWords_join_words.
  repeat constructor.
Defined.

Lemma SplitIntoWords_loop_words text word words :
  SplitIntoWords_loop text word words
  = words ++ SplitIntoWords_loop text word [].
Proof.
  revert word words.
  induction text as [|c text IH]; intros word words; simpl.
  - destruct (string_empty word); simpl; now rewrite ?app_nil_r.
  - destruct (Ascii.eqb c space); [destruct (string_empty word)|]; auto.
    rewrite IH, (IH _ [word]), app_assoc. reflexivity.
Qed.

Lemma SplitIntoWords_loop_space a b word words :
  SplitIntoWords_loop (a ++ String space b) word words
  = SplitIntoWords_loop b EmptyString (SplitIntoWords_loop a word words).
Proof.
  revert word words.
  induction a as [|c a IH]; intros word words; simpl.
  - destruct word; reflexivity.
  - destruct (Ascii.eqb c space); [destruct (string_empty word)|]; apply IH.
Qed.

(** X3. A space between two texts separates their words: the words of
    [a], a space and [b] are the words of [a] followed by those of [b]. *)
Theorem SplitIntoWords_space a b :
  SplitIntoWords (a ++ String space b) = SplitIntoWords a ++ SplitIntoWords b.
Proof.
  unfold SplitIntoWords.
  rewrite SplitIntoWords_loop_space. apply SplitIntoWords_loop_words.
Qed.

(** ** Sets *)

Section SetFacts.
Context {K : Type} `{CompareSpec K}.
Implicit Types (k x : K) (s : list K).

Lemma set_insert_In k x s : In x (set_insert k s) <-> x = k \/ In x s.
Proof.
  induction s as [|k' s IH]; simpl.
  - intuition.
  - destruct (cmp k k') eqn:E; simpl.
    + apply cmp_eq in E. subst k'. intuition.
    + intuition.
    + rewrite IH. intuition.
Qed.

Lemma increasing_head_lt k k' s :
  cmp k k' = Lt -> increasing (k' :: s) -> forall x, In x (k' :: s) -> cmp k x = Lt.
Proof.
  revert k'. induction s as [|k'' s IH]; intros k' Hlt Hinc x Hx.
  - destruct Hx as [<- | []]. exact Hlt.
  - destruct Hx as [<- | Hx]; [exact Hlt|].
    destruct Hinc as [Hlt' Hinc].
    apply (IH k''); auto. eapply cmp_trans; eauto.
Qed.

Lemma increasing_set_insert k s : increasing s -> increasing (set_insert k s).
Proof.
  induction s as [|k' s IH]; simpl; auto.
  intros [Hhead Hinc]. destruct (cmp k k') eqn:E.
  - simpl. auto.
  - simpl. auto.
  - cbn [increasing]. split; [|auto].
    destruct s as [|k'' s]; simpl.
    + now apply cmp_gt_lt.
    + destruct (cmp k k''); auto. now apply cmp_gt_lt.
Qed.

Lemma set_count_In_iff k s :
  increasing s -> ((0 <? set_count k s)%nat = true <-> In k s).
Proof.
  induction s as [|k' s IH]; simpl.
  - intros _. split; [discriminate | contradiction].
  - intros [Hhead Hinc]. destruct (cmp k k') eqn:E.
    + apply cmp_eq in E. subst k'. simpl. intuition.
    + simpl. split; [discriminate|]. intros [-> | Hin].
      * rewrite cmp_refl in E. discriminate.
      * exfalso. destruct s as [|k'' s]; [contradiction|].
        pose proof (increasing_head_lt k' k'' s Hhead Hinc k Hin) as Hlt.
        pose proof (cmp_trans _ _ _ E Hlt) as Hkk.
        rewrite cmp_refl in Hkk. discriminate.
    + rewrite (IH Hinc). split; auto. intros [-> | Hin]; auto.
      rewrite cmp_refl in E. discriminate.
Qed.

End SetFacts.

(** ** The constructors of SearchServer *)

Lemma MakeUniqueNonEmptyStrings_spec strings :
  increasing (MakeUniqueNonEmptyStrings strings) /\
  forall word,
    In word (MakeUniqueNonEmptyStrings strings)
    <-> In word strings /\ string_empty word = false.
Proof.
  unfold MakeUniqueNonEmptyStrings.
  assert (Hgen : forall acc,
            increasing acc ->
            increasing
              (fold_left (fun acc str =>
                            if string_empty str then acc else set_insert str acc)
                 strings acc) /\
            forall word,
              In word
                (fold_left (fun acc str =>
                              if string_empty str then acc else set_insert str acc)
                   strings acc)
              <-> (In word strings /\ string_empty word = false) \/ In word acc).
  { induction strings as [|str strings IH]; intros acc Hacc; simpl.
    - split; [exact Hacc | intuition].
    - destruct (string_empty str) eqn:Hempty.
      + destruct (IH acc Hacc) as [Hinc Hin]. split; [exact Hinc|].
        intros word. rewrite Hin. intuition. subst. congruence.
      + destruct (IH (set_insert str acc) (increasing_set_insert _ _ Hacc))
          as [Hinc Hin].
        split; [exact Hinc|].
        intros word. rewrite Hin, set_insert_In. intuition. subst. auto. }
  destruct (Hgen [] I) as [Hinc Hin]. split; [exact Hinc|].
  intros word. rewrite Hin. simpl. intuition.
Qed.

Lemma insert_stop_words_spec words acc :
  increasing acc ->
  (Forall (fun w => IsValidWord w = true) words ->
   exists stop_words,
     insert_stop_words words acc = Ok stop_words /\
     increasing stop_words /\
     forall word, In word stop_words <-> In word words \/ In word acc) /\
  ((exists w, In w words /\ IsValidWord w = false) ->
   insert_stop_words words acc = Throw (invalid_argument what_stop_words)).
Proof.
  revert acc. induction words as [|w words IH]; intros acc Hacc; simpl.
  - split.
    + intros _. exists acc. intuition.
    + intros (w & [] & _).
  - destruct (IH (set_insert w acc) (increasing_set_insert _ _ Hacc))
      as [IHok IHthrow].
    split.
    + intros Hvalid. inversion Hvalid as [|? ? Hw Hwords]; subst.
      rewrite Hw. destruct (IHok Hwords) as (stop_words & Hrun & Hinc & Hin).
      exists stop_words. split; [exact Hrun|]. split; [exact Hinc|].
      intros word. rewrite Hin, set_insert_In. intuition.
    + intros (x & Hx & Hinvalid).
      destruct (IsValidWord w) eqn:Hw; [|reflexivity].
      apply IHthrow. exists x. split; [|exact Hinvalid].
      destruct Hx as [-> | Hx]; [congruence | exact Hx].
Qed.

(** X4. The constructor from a container of stop words succeeds when no
    stop word has a control character: the server has no document, its set
    of stop words is strictly increasing, and a word is a stop word exactly
    when it is in the container and not empty.  When a stop word has a
    control character the constructor throws [invalid_argument]. *)
Theorem SearchServer_of_container_spec stop_words :
  (Forall (fun w => IsValidWord w = true) stop_words ->
   exists s,
     SearchServer_of_container stop_words = Ok s /\
     increasing (stop_words_ s) /\
     (forall word,
        IsStopWord s word = true
        <-> In word stop_words /\ string_empty word = false) /\
     word_to_document_freqs_ s = [] /\
     documents_ s = [] /\
     document_id_sequence_ s = [] /\
     GetDocumentCount s = 0) /\
  ((exists w, In w stop_words /\ IsValidWord w = false) ->
   SearchServer_of_container stop_words
   = Throw (invalid_argument what_stop_words)).
Proof.
  destruct (MakeUniqueNonEmptyStrings_spec stop_words) as [Hinc Hin].
  destruct (insert_stop_words_spec (MakeUniqueNonEmptyStrings stop_words) [] I)
    as [Hok Hthrow].
  unfold SearchServer_of_container. split.
  - intros Hvalid.
    destruct Hok as (sw & Hrun & Hinc' & Hin').
    { apply Forall_forall. intros w Hw. apply Hin in Hw.
      rewrite Forall_forall in Hvalid. now apply Hvalid. }
    rewrite Hrun. cbn [bind]. eexists. split; [reflexivity|]. cbn.
    split; [exact Hinc'|]. split; [|auto].
    intros word. unfold IsStopWord. cbn [stop_words_].
    rewrite (set_count_In_iff word sw Hinc'), Hin', Hin. simpl. intuition.
  - intros (w & Hw & Hinvalid). rewrite Hthrow; [reflexivity|].
    exists w. split; [|exact Hinvalid]. apply Hin. split; [exact Hw|].
    destruct w; [discriminate Hinvalid | reflexivity].
Qed.

Lemma SearchServer_of_container_spec_witness :
  (exists s,
     SearchServer_of_container ["the"; ""; "a"; "the"] = Ok s /\
     stop_words_ s = ["a"; "the"]) /\
  SearchServer_of_container
    ["the"; String (ascii_of_nat 9) "a"] = Throw (invalid_argument what_stop_words).
Proof.
  split.
  - destruct (SearchServer_of_container_spec ["the"; ""; "a"; "the"])
      as [Hok _].
    destruct Hok as (s & Hrun & _).
    { repeat constructor. }
    exists s. split; [exact Hrun|].
    vm_compute in Hrun. apply Ok_inj in Hrun. now subst s.
  - apply (SearchServer_of_container_spec ["the"; String (ascii_of_nat 9) "a"]).
    eexists. split; [right; left; reflexivity | reflexivity].
Defined.

(** X5. The constructor from a text takes the words of the text as stop
    words: on success a word is a stop word exactly when it is one of the
    words of the text. *)
Theorem SearchServer_of_text_stop_words stop_words_text s :
  SearchServer_of_text stop_words_text = Ok s ->
  forall word, IsStopWord s word = true <-> In word (SplitIntoWords stop_words_text).
Proof.
  unfold SearchServer_of_text. intros Hnew word.
  destruct (MakeUniqueNonEmptyStrings_spec (SplitIntoWords stop_words_text))
    as [Hinc Hin].
  destruct (insert_stop_words_spec
              (MakeUniqueNonEmptyStrings (SplitIntoWords stop_words_text)) [] I)
    as [Hok Hthrow].
  unfold SearchServer_of_container in Hnew.
  destruct (insert_stop_words _ []) as [sw|e] eqn:Hrun; [|discriminate].
  cbn [bind] in Hnew. apply Ok_inj in Hnew. subst s.
  assert (Hvalid : Forall (fun w => IsValidWord w = true)
                     (MakeUniqueNonEmptyStrings (SplitIntoWords stop_words_text))).
  { apply Forall_forall. intros w Hw.
    destruct (IsValidWord w) eqn:Hvalid; [reflexivity|].
    assert (Hfalse : Ok sw = Throw (invalid_argument what_stop_words))
      by (apply Hthrow; eauto).
    discriminate. }
  destruct (Hok Hvalid) as (sw' & Hrun' & Hinc' & Hin').
  apply Ok_inj in Hrun'. subst sw'.
  unfold IsStopWord. cbn [stop_words_].
  rewrite (set_count_In_iff word sw Hinc'), Hin', Hin. simpl.
  split; [tauto|]. intros Hword. left. split; [exact Hword|].
  pose proof (SplitIntoWords_loop_tokens stop_words_text EmptyString []
                eq_refl (Forall_nil _)) as Htokens.
  rewrite Forall_forall in Htokens. now apply Htokens.
Qed.

Lemma SearchServer_of_text_stop_words_witness :
  IsStopWord main_stop_words "with" = true
  <-> In "with" (SplitIntoWords "is are was a an in the with near at").
Proof.
  apply SearchServer_of_text_stop_words. vm_compute. reflexivity.
Defined.

(** ** SplitIntoWordsNoStop and AddDocument *)

Lemma SplitIntoWordsNoStop_loop_valid s split words :
  Forall (fun w => IsValidWord w = true) split ->
  SplitIntoWordsNoStop_loop s split words
  = Ok (words ++ filter (fun word => negb (IsStopWord s word)) split).
Proof.
  intros Hvalid. revert words.
  induction Hvalid as [|w split Hw _ IH]; intros words; simpl.
  - now rewrite app_nil_r.
  - rewrite Hw. destruct (negb (IsStopWord s w)).
    + rewrite IH, <- app_assoc. reflexivity.
    + apply IH.
Qed.

(** X6. [SplitIntoWordsNoStop] returns the words of the text that are not
    stop words, in their order and with their repetitions, when no word of
    the text has a control character; when one has, stop word or not, it
    throws [invalid_argument]. *)
Theorem SplitIntoWordsNoStop_spec s text :
  (Forall (fun w => IsValidWord w = true) (SplitIntoWords text) ->
   SplitIntoWordsNoStop s text = Ok (indexed_words s text)) /\
  ((exists w, In w (SplitIntoWords text) /\ IsValidWord w = false) ->
   SplitIntoWordsNoStop s text = Throw (invalid_argument what_document_chars)).
Proof.
  unfold SplitIntoWordsNoStop. split.
  - intros Hvalid. now rewrite SplitIntoWordsNoStop_loop_valid.
  - intros (w & Hin & Hinvalid).
    eapply SplitIntoWordsNoStop_loop_invalid; eauto.
Qed.

Lemma AddDocument_Ok document_id document status ratings s :
  0 <= document_id ->
  map_find document_id (documents_ s) = None ->
  Forall (fun w => IsValidWord w = true) (SplitIntoWords document) ->
  AddDocument document_id document status ratings s
  = (Ok tt,
     {| stop_words_ := stop_words_ s;
        word_to_document_freqs_ :=
          fold_left
            (add_word_freq document_id
               (1 / double_of_size (List.length (indexed_words s document)))%float)
            (indexed_words s document) (word_to_document_freqs_ s);
        documents_ :=
          map_emplace document_id
            {| DocumentData.rating := ComputeAverageRating ratings;
               DocumentData.status := status |}
            (documents_ s);
        document_id_sequence_ := document_id_sequence_ s ++ [document_id] |}).
Proof.
  intros Hid Hfresh Hvalid. unfold AddDocument.
  apply Z.ltb_ge in Hid. rewrite Hid.
  unfold map_count. rewrite Hfresh. simpl.
  unfold SplitIntoWordsNoStop.
  rewrite SplitIntoWordsNoStop_loop_valid by assumption. reflexivity.
Qed.

(** X7. [AddDocument] returns exactly when the id is not negative, not
    stored yet, and no word of the text, stop word or not, has a control
    character. *)
Theorem AddDocument_returns document_id document status ratings s :
  (exists s', AddDocument document_id document status ratings s = (Ok tt, s'))
  <-> (0 <= document_id /\
       map_find document_id (documents_ s) = None /\
       Forall (fun w => IsValidWord w = true) (SplitIntoWords document)).
Proof.
  split.
  - intros [s' Hadd].
    destruct (AddDocument_Ok_inv _ _ _ _ _ _ Hadd) as (Hid & Hfresh & words & Hsplit & _).
    split; [exact Hid|]. split; [exact Hfresh|].
    apply Forall_forall. intros w Hw.
    destruct (IsValidWord w) eqn:Hvalid; [reflexivity|].
    unfold SplitIntoWordsNoStop in Hsplit.
    rewrite (SplitIntoWordsNoStop_loop_invalid s _ [] w Hw Hvalid) in Hsplit.
    discriminate.
  - intros (Hid & Hfresh & Hvalid). eexists. now apply AddDocument_Ok.
Qed.

(** X8. After an [AddDocument] that returns, the store holds the document
    with the given status and the average of the ratings, every other id is
    stored or not as before and with the same data, the store has one
    document more and the id is the last of the insertion sequence. *)
Theorem AddDocument_stores document_id document status ratings s s' :
  AddDocument document_id document status ratings s = (Ok tt, s') ->
  map_find document_id (documents_ s')
  = Some {| DocumentData.rating := ComputeAverageRating ratings;
            DocumentData.status := status |} /\
  (forall other, other <> document_id ->
     map_find other (documents_ s') = map_find other (documents_ s)) /\
  List.length (documents_ s') = S (List.length (documents_ s)) /\
  document_id_sequence_ s' = document_id_sequence_ s ++ [document_id] /\
  stop_words_ s' = stop_words_ s.
Proof.
  intros Hadd.
  destruct (AddDocument_Ok_inv _ _ _ _ _ _ Hadd) as (Hid & Hfresh & words & Hsplit & ->).
  cbn [documents_ document_id_sequence_ stop_words_]. unfold map_emplace.
  split; [|split; [|split; [|split]]]; auto.
  - rewrite map_find_update_same, Hfresh. reflexivity.
  - intros other Hother. now apply map_find_update_other.
  - now apply map_update_length_absent.
Qed.

Lemma AddDocument_stores_witness :
  map_find 7 (documents_ (after_AddDocument 7 "grey cat" BANNED [5; 2; -1] main_server))
  = Some {| DocumentData.rating := 2; DocumentData.status := BANNED |} /\
  (forall other, other <> 7 ->
     map_find other
       (documents_ (after_AddDocument 7 "grey cat" BANNED [5; 2; -1] main_server))
     = map_find other (documents_ main_server)) /\
  List.length (documents_ (after_AddDocument 7 "grey cat" BANNED [5; 2; -1] main_server))
  = S (List.length (documents_ main_server)) /\
  document_id_sequence_ (after_AddDocument 7 "grey cat" BANNED [5; 2; -1] main_server)
  = document_id_sequence_ main_server ++ [7] /\
  stop_words_ (after_AddDocument 7 "grey cat" BANNED [5; 2; -1] main_server)
  = stop_words_ main_server.
Proof.
  apply (AddDocument_stores 7 "grey cat" BANNED [5; 2; -1] main_server).
  vm_compute. reflexivity.
Defined.

(** *** The postings that AddDocument writes *)

Lemma term_freq_add_word_freq document_id inv freqs word w d :
  match map_find w (add_word_freq document_id inv freqs word) with
  | Some postings => map_find d postings
  | None => None
  end
  = if String.eqb w word && (d =? document_id)
    then Some (or_zero match map_find w freqs with
                       | Some postings => map_find d postings
                       | None => None
                       end + inv)%float
    else match map_find w freqs with
         | Some postings => map_find d postings
         | None => None
         end.
Proof.
  unfold add_word_freq.
  destruct (String.eqb_spec w word) as [-> | Hw]; simpl.
  - rewrite map_find_update_same.
    destruct (Z.eqb_spec d document_id) as [-> | Hd].
    + rewrite map_find_update_same.
      destruct (map_find word freqs) as [postings|]; reflexivity.
    + rewrite map_find_update_other by assumption.
      destruct (map_find word freqs) as [postings|]; reflexivity.
  - rewrite map_find_update_other by assumption. reflexivity.
Qed.

Lemma term_freq_fold_add_word_freq document_id inv words freqs w d :
  match map_find w (fold_left (add_word_freq document_id inv) words freqs) with
  | Some postings => map_find d postings
  | None => None
  end
  = if d =? document_id
    then fold_left
           (fun freq word =>
              if String.eqb w word then Some (or_zero freq + inv)%float else freq)
           words
           match map_find w freqs with
           | Some postings => map_find d postings
           | None => None
           end
    else match map_find w freqs with
         | Some postings => map_find d postings
         | None => None
         end.
Proof.
  revert freqs. induction words as [|word words IH]; intros freqs; simpl.
  - now destruct (d =? document_id).
  - rewrite IH, term_freq_add_word_freq.
    destruct (d =? document_id); [|now rewrite andb_false_r].
    now rewrite andb_true_r.
Qed.

Lemma fold_repeated_sum inv w words freq :
  fold_left
    (fun freq word =>
       if String.eqb w word then Some (or_zero freq + inv)%float else freq)
    words freq
  = match count_occ string_dec words w with
    | O => freq
    | S k => Some (Nat.iter (S k) (fun f => (f + inv)%float) (or_zero freq))
    end.
Proof.
  revert freq. induction words as [|word words IH]; intros freq; simpl; auto.
  rewrite IH. destruct (string_dec word w) as [-> | Hne].
  - rewrite String.eqb_refl.
    destruct (count_occ string_dec words w) as [|k]; [reflexivity|].
    cbn [or_zero]. f_equal.
    exact (eq_sym (Nat.iter_succ_r (S k) float (fun f => (f + inv)%float) (or_zero freq))).
  - destruct (String.eqb_spec w word) as [-> | _]; [contradiction|]. reflexivity.
Qed.

Lemma SplitIntoWordsNoStop_loop_Ok s split words result :
  SplitIntoWordsNoStop_loop s split words = Ok result ->
  result = words ++ filter (fun word => negb (IsStopWord s word)) split.
Proof.
  revert words. induction split as [|w split IH]; intros words; simpl.
  - intros [= <-]. now rewrite app_nil_r.
  - destruct (IsValidWord w); [|discriminate].
    destruct (negb (IsStopWord s w)); intros Hrun; apply IH in Hrun.
    + now rewrite <- app_assoc in Hrun.
    + exact Hrun.
Qed.

Lemma term_freq_absent s word document_id :
  well_formed s ->
  map_find document_id (documents_ s) = None ->
  term_freq s word document_id = None.
Proof.
  intros Hwf Habsent. unfold term_freq.
  destruct (map_find word (word_to_document_freqs_ s)) as [postings|] eqn:Hw; auto.
  destruct (map_find document_id postings) as [f|] eqn:Hd; auto.
  apply map_find_In in Hw. apply map_find_In in Hd.
  destruct (wf_postings_stored s Hwf _ _ _ _ Hw Hd) as [data Hdata]. congruence.
Qed.

Lemma has_posting_term_freq s document_id word :
  has_posting s document_id word = true <-> term_freq s word document_id <> None.
Proof.
  unfold has_posting, term_freq, map_count.
  destruct (map_find word (word_to_document_freqs_ s)) as [postings|].
  - destruct (map_find document_id postings); simpl; split;
      congruence || discriminate || auto.
  - split; [discriminate | congruence].
Qed.

(** X9. After an [AddDocument] that returns on a reachable server, the
    index holds for the new document one posting for each of its words that
    is not a stop word: the term frequency of a word that occurs k times
    among the n indexed words is 1/n added k times from zero, and a word
    that does not occur has no posting.  The postings of every other
    document are what they were. *)
Theorem AddDocument_postings document_id document status ratings s s' :
  reachable s ->
  AddDocument document_id document status ratings s = (Ok tt, s') ->
  (forall word,
     term_freq s' word document_id
     = match count_occ string_dec (indexed_words s document) word with
       | O => None
       | S k =>
           Some (repeated_sum (S k)
                   (1 / double_of_size (List.length (indexed_words s document))))
       end) /\
  (forall word,
     has_posting s' document_id word = true <-> In word (indexed_words s document)) /\
  (forall word other, other <> document_id ->
     term_freq s' word other = term_freq s word other).
Proof.
  intros Hreach Hadd. apply reachable_well_formed in Hreach.
  destruct (AddDocument_Ok_inv _ _ _ _ _ _ Hadd)
    as (Hid & Hfresh & words & Hsplit & ->).
  apply SplitIntoWordsNoStop_loop_Ok in Hsplit. simpl in Hsplit.
  fold (indexed_words s document) in Hsplit. subst words.
  assert (Hnew : forall word,
            term_freq
              {| stop_words_ := stop_words_ s;
                 word_to_document_freqs_ :=
                   fold_left
                     (add_word_freq document_id
                        (1 / double_of_size
                               (List.length (indexed_words s document))))
                     (indexed_words s document) (word_to_document_freqs_ s);
                 documents_ :=
                   map_emplace document_id
                     {| DocumentData.rating := ComputeAverageRating ratings;
                        DocumentData.status := status |} (documents_ s);
                 document_id_sequence_ := document_id_sequence_ s ++ [document_id] |}
              word document_id
            = match count_occ string_dec (indexed_words s document) word with
              | O => None
              | S k =>
                  Some (repeated_sum (S k)
                          (1 / double_of_size
                                 (List.length (indexed_words s document))))
              end).
  { intros word. unfold term_freq at 1. cbn [word_to_document_freqs_].
    rewrite term_freq_fold_add_word_freq, Z.eqb_refl, fold_repeated_sum.
    pose proof (term_freq_absent s word document_id Hreach Hfresh) as Habsent.
    unfold term_freq in Habsent. rewrite Habsent. reflexivity. }
  split; [exact Hnew|]. split.
  - intros word. rewrite has_posting_term_freq, Hnew.
    rewrite (count_occ_In string_dec).
    destruct (count_occ string_dec (indexed_words s document) word);
      split; intros; try congruence; try lia; discriminate.
  - intros word other Hother. unfold term_freq. cbn [word_to_document_freqs_].
    rewrite term_freq_fold_add_word_freq.
    now replace (other =? document_id) with false
      by (symmetry; apply Z.eqb_neq; exact Hother).
Qed.

Lemma AddDocument_postings_witness :
  term_freq (after_AddDocument 7 "cat the cat dog" ACTUAL [] main_server) "cat" 7
  = Some (0 + 1 / 3 + 1 / 3)%float /\
  term_freq (after_AddDocument 7 "cat the cat dog" ACTUAL [] main_server) "the" 7
  = None /\
  term_freq (after_AddDocument 7 "cat the cat dog" ACTUAL [] main_server) "cat" 3
  = term_freq main_server "cat" 3.
Proof.
  destruct (AddDocument_postings 7 "cat the cat dog" ACTUAL [] main_server
              (after_AddDocument 7 "cat the cat dog" ACTUAL [] main_server))
    as (Hnew & _ & Hother).
  - exact main_server_reachable.
  - vm_compute. reflexivity.
  - split; [|split].
    + rewrite Hnew. vm_compute. reflexivity.
    + rewrite Hnew. vm_compute. reflexivity.
    + apply Hother. discriminate.
Defined.

(** ** ComputeAverageRating *)

Lemma fold_to_int_sum ratings lo hi acc :
  Forall (fun r => lo <= r <= hi) ratings ->
  -2147483648 <= acc + Z.of_nat (List.length ratings) * Z.min lo 0 ->
  acc + Z.of_nat (List.length ratings) * Z.max hi 0 < 2147483648 ->
  -2147483648 <= acc < 2147483648 ->
  fold_left (fun sum r => to_int (sum + r)) ratings acc
  = fold_left Z.add ratings acc.
Proof.
  intros Hall. revert acc.
  induction Hall as [|r ratings Hr _ IH]; intros acc Hlo Hhi Hacc; simpl; auto.
  cbn [List.length] in Hlo, Hhi. rewrite Nat2Z.inj_succ in Hlo, Hhi.
  rewrite to_int_small by nia. apply IH; nia.
Qed.

Lemma fold_add_bounds ratings lo hi acc :
  Forall (fun r => lo <= r <= hi) ratings ->
  acc + Z.of_nat (List.length ratings) * lo
  <= fold_left Z.add ratings acc
  <= acc + Z.of_nat (List.length ratings) * hi.
Proof.
  intros Hall. revert acc.
  induction Hall as [|r ratings Hr _ IH]; intros acc; [simpl; lia|].
  cbn [fold_left List.length].
  specialize (IH (acc + r)). rewrite Nat2Z.inj_succ. nia.
Qed.

(** X10. For ratings between [lo] and [hi], few enough for their sum to
    fit an [int], [ComputeAverageRating] is the quotient of their sum by
    their number, truncated toward zero, and it lies between [lo] and [hi];
    for no rating it is 0. *)
Theorem ComputeAverageRating_average ratings lo hi :
  ratings <> [] ->
  Forall (fun r => lo <= r <= hi) ratings ->
  -2147483648 <= Z.of_nat (List.length ratings) * Z.min lo 0 ->
  Z.of_nat (List.length ratings) * Z.max hi 0 < 2147483648 ->
  Z.of_nat (List.length ratings) < 2147483648 ->
  ComputeAverageRating ratings
  = Z.quot (ratings_sum ratings) (Z.of_nat (List.length ratings)) /\
  lo <= ComputeAverageRating ratings <= hi /\
  ComputeAverageRating [] = 0.
Proof.
  intros Hne Hall Hlo Hhi Hlen.
  assert (Hquot : ComputeAverageRating ratings
                  = Z.quot (ratings_sum ratings) (Z.of_nat (List.length ratings))).
  { unfold ComputeAverageRating, ratings_sum.
    destruct ratings as [|r ratings]; [congruence|].
    rewrite (fold_to_int_sum (r :: ratings) lo hi 0) by (auto; lia).
    rewrite to_int_small by lia. reflexivity. }
  split; [exact Hquot|]. split; [|reflexivity].
  rewrite Hquot. unfold ratings_sum.
  pose proof (fold_add_bounds ratings lo hi 0 Hall) as Hsum.
  assert (Hpos : 0 < Z.of_nat (List.length ratings)).
  { destruct ratings; [congruence | simpl; lia]. }
  set (n := Z.of_nat (List.length ratings)) in *.
  set (total := fold_left Z.add ratings 0) in *.
  pose proof (Z.quot_rem' total n) as Hqr.
  destruct (Z_lt_le_dec total 0) as [Hneg | Hnonneg].
  - pose proof (Z.rem_bound_pos_neg total n Hpos (Z.lt_le_incl _ _ Hneg)) as Hrem.
    nia.
  - pose proof (Z.rem_bound_pos_pos total n Hpos Hnonneg) as Hrem. nia.
Qed.

Lemma ComputeAverageRating_average_witness :
  ComputeAverageRating [-1; -2] = Z.quot (ratings_sum [-1; -2]) 2 /\
  -2 <= ComputeAverageRating [-1; -2] <= -1 /\
  ComputeAverageRating [] = 0.
Proof.
  apply (ComputeAverageRating_average [-1; -2] (-2) (-1)).
  - discriminate.
  - repeat constructor; lia.
  - simpl. lia.
  - simpl. lia.
  - simpl. lia.
Defined.

(** ** GetDocumentCount and GetDocumentId *)

Lemma reachable_sequence_invariant s : reachable s -> sequence_invariant s.
Proof.
  induction 1 as [stop_words s Hnew | s document_id document status ratings s' _ IH Hadd].
  - unfold SearchServer_of_container, bind in Hnew.
    destruct (insert_stop_words _ _); [|discriminate].
    apply Ok_inj in Hnew. subst s. split; simpl.
    + constructor.
    + intros document_id. split; [contradiction | intros [data Hdata]; discriminate].
    + constructor.
  - destruct (AddDocument_Ok_inv _ _ _ _ _ _ Hadd)
      as (Hid & Hfresh & words & _ & ->).
    destruct IH as [Hnodup Hstored Hnonneg]. split; simpl.
    + apply NoDup_app; [exact Hnodup | repeat constructor; auto |].
      intros x Hx [<- | []]. apply Hstored in Hx. destruct Hx as [data Hdata].
      congruence.
    + intros d. rewrite in_app_iff, Hstored. unfold map_emplace. simpl.
      destruct (Z.eq_dec d document_id) as [-> | Hne].
      * rewrite map_find_update_same. split; eauto.
      * rewrite map_find_update_other by assumption. intuition congruence.
    + apply Forall_app. split; [exact Hnonneg | repeat constructor; exact Hid].
Qed.

(** X11. On a reachable server with fewer than 2^31 documents,
    [GetDocumentCount] is the number of [AddDocument] calls that returned,
    and [GetDocumentId] enumerates the stored documents in the order of
    their insertion: it returns an id exactly for the positions from 0 below
    the count and throws [out_of_range] for any other, every id returned is
    stored and not negative, every stored id is returned at some position,
    and no id is returned at two positions. *)
Theorem GetDocumentId_enumerates s :
  reachable s ->
  Z.of_nat (List.length (documents_ s)) < 2147483648 ->
  GetDocumentCount s = Z.of_nat (List.length (document_id_sequence_ s)) /\
  (forall index,
     0 <= index < GetDocumentCount s ->
     exists document_id,
       GetDocumentId s index = Ok document_id /\
       nth_error (document_id_sequence_ s) (Z.to_nat index) = Some document_id /\
       0 <= document_id /\
       exists data, map_find document_id (documents_ s) = Some data) /\
  (forall index,
     index < 0 \/ GetDocumentCount s <= index ->
     GetDocumentId s index = Throw (out_of_range what_id_out_of_range)) /\
  (forall document_id data,
     map_find document_id (documents_ s) = Some data ->
     exists index, GetDocumentId s index = Ok document_id) /\
  (forall i j document_id,
     GetDocumentId s i = Ok document_id ->
     GetDocumentId s j = Ok document_id ->
     i = j).
Proof.
  intros Hreach Hfits.
  pose proof (reachable_sequence_invariant s Hreach) as [Hnodup Hstored Hnonneg].
  pose proof (wf_sequence s (reachable_well_formed s Hreach)) as Hlen.
  assert (Hcount : GetDocumentCount s
                   = Z.of_nat (List.length (document_id_sequence_ s))).
  { unfold GetDocumentCount. rewrite Hlen. apply to_int_small. lia. }
  assert (Hok : forall index,
            0 <= index < GetDocumentCount s ->
            GetDocumentId s index
            = Ok (nth (Z.to_nat index) (document_id_sequence_ s) 0)).
  { intros index Hindex. unfold GetDocumentId.
    replace (0 <=? index) with true by (symmetry; apply Z.leb_le; lia).
    replace (index <? GetDocumentCount s) with true
      by (symmetry; apply Z.ltb_lt; lia).
    reflexivity. }
  assert (Hthrow : forall index,
            index < 0 \/ GetDocumentCount s <= index ->
            GetDocumentId s index = Throw (out_of_range what_id_out_of_range)).
  { intros index Hindex. unfold GetDocumentId.
    destruct Hindex as [Hneg | Hbig].
    - replace (0 <=? index) with false by (symmetry; apply Z.leb_gt; lia).
      reflexivity.
    - replace (index <? GetDocumentCount s) with false
        by (symmetry; apply Z.ltb_ge; lia).
      now rewrite andb_false_r. }
  assert (Hinv : forall index document_id,
            GetDocumentId s index = Ok document_id ->
            0 <= index < GetDocumentCount s /\
            document_id = nth (Z.to_nat index) (document_id_sequence_ s) 0).
  { intros index document_id Hget.
    destruct (Z_lt_le_dec index 0) as [Hneg | Hnonneg'].
    { rewrite Hthrow in Hget by auto. discriminate. }
    destruct (Z_lt_le_dec index (GetDocumentCount s)) as [Hlt | Hge].
    - rewrite Hok in Hget by lia. apply Ok_inj in Hget. split; [lia | congruence].
    - rewrite Hthrow in Hget by auto. discriminate. }
  split; [exact Hcount|]. split; [|split; [exact Hthrow|split]].
  - intros index Hindex.
    exists (nth (Z.to_nat index) (document_id_sequence_ s) 0).
    assert (Hnat : (Z.to_nat index < List.length (document_id_sequence_ s))%nat)
      by lia.
    pose proof (nth_In _ 0 Hnat) as Hin.
    split; [now apply Hok|]. split; [now apply nth_error_nth'|]. split.
    + rewrite Forall_forall in Hnonneg. now apply Hnonneg.
    + now apply Hstored.
  - intros document_id data Hdata.
    assert (Hin : In document_id (document_id_sequence_ s))
      by (apply Hstored; eauto).
    destruct (In_nth _ _ 0 Hin) as (n & Hn & Hnth).
    exists (Z.of_nat n). rewrite Hok by lia. now rewrite Nat2Z.id, Hnth.
  - intros i j document_id Hi Hj.
    destruct (Hinv _ _ Hi) as [Hirange Hival].
    destruct (Hinv _ _ Hj) as [Hjrange Hjval].
    assert (Heq : Z.to_nat i = Z.to_nat j).
    { apply (proj1 (NoDup_nth (document_id_sequence_ s) 0) Hnodup);
        lia || congruence. }
    lia.
Qed.

Lemma GetDocumentId_enumerates_witness :
  GetDocumentCount main_server = 4 /\
  GetDocumentId main_server 2 = Ok 3 /\
  GetDocumentId main_server 4 = Throw (out_of_range what_id_out_of_range) /\
  GetDocumentId main_server (-1) = Throw (out_of_range what_id_out_of_range).
Proof.
  destruct (GetDocumentId_enumerates main_server main_server_reachable)
    as (Hcount & Hin & Hout & _).
  - vm_compute. reflexivity.
  - split; [rewrite Hcount; reflexivity|]. split; [|split].
    + destruct (Hin 2) as (document_id & Hget & Hnth & _).
      { rewrite Hcount. vm_compute. split; [discriminate | reflexivity]. }
      rewrite Hget. vm_compute in Hnth. congruence.
    + apply Hout. right. rewrite Hcount. vm_compute. discriminate.
    + apply Hout. left. lia.
Defined.

(** ** ParseQuery *)

Lemma ParseQueryWord_Ok_iff s word :
  (exists query_word, ParseQueryWord s word = Ok query_word)
  <-> query_word_ok word = true.
Proof.
  unfold ParseQueryWord, query_word_ok, starts_with_minus.
  destruct (IsValidWord word); simpl.
  - destruct (Ascii.eqb (string_front word) minus); simpl.
    + destruct (Ascii.eqb (string_front (substr1 word)) minus); simpl.
      * split; [intros [? ?]; discriminate | discriminate].
      * destruct (string_empty (substr1 word)); simpl;
          split; eauto; intros [? ?] || idtac; discriminate.
    + split; eauto.
  - split; [intros [? ?]; discriminate | discriminate].
Qed.

Lemma ParseQueryWord_Ok_inv s word query_word :
  ParseQueryWord s word = Ok query_word ->
  (starts_with_minus word = false /\
   query_word = {| data := word; is_minus := false; is_stop := IsStopWord s word |})
  \/
  (exists rest,
     word = String minus rest /\
     query_word = {| data := rest; is_minus := true; is_stop := IsStopWord s rest |}).
Proof.
  unfold ParseQueryWord, starts_with_minus.
  destruct (IsValidWord word); [|discriminate].
  destruct (Ascii.eqb (string_front word) minus) eqn:Hfront.
  - destruct (Ascii.eqb (string_front (substr1 word)) minus); [discriminate|].
    destruct (string_empty (substr1 word)); [discriminate|].
    intros [= <-]. right. exists (substr1 word). split; [|reflexivity].
    destruct word as [|c word]; [discriminate|].
    simpl in Hfront. apply Ascii.eqb_eq in Hfront. now subst c.
  - intros [= <-]. now left.
Qed.

Lemma ParseQuery_Ok_iff s text :
  (exists query, ParseQuery s text = Ok query)
  <-> Forall (fun word => query_word_ok word = true) (SplitIntoWords text).
Proof.
  unfold ParseQuery. generalize {| plus_words := []; minus_words := [] |}.
  induction (SplitIntoWords text) as [|word words IH]; intros query; simpl.
  - split; eauto.
  - destruct (ParseQueryWord s word) as [query_word|e] eqn:Hword; simpl.
    + assert (Hok : query_word_ok word = true)
        by (apply (ParseQueryWord_Ok_iff s); eauto).
      destruct (negb (is_stop query_word)); [destruct (is_minus query_word)|];
        rewrite IH; (split; [intros Hall; constructor; assumption
                            | intros Hall; now inversion Hall]).
    + split; [intros [? ?]; discriminate|].
      intros Hall. inversion Hall as [|? ? Hok _]; subst.
      apply (ParseQueryWord_Ok_iff s) in Hok. destruct Hok as [? Hok]. congruence.
Qed.

(** X12. Whether a query parses depends on its words alone, not on the
    server: [ParseQuery] returns a query exactly when every word of the text
    is free of control characters, is not [-] alone and does not begin with
    [--]. *)
Theorem ParseQuery_returns s text :
  (exists query, ParseQuery s text = Ok query)
  <-> Forall (fun word => query_word_ok word = true) (SplitIntoWords text).
Proof. exact (ParseQuery_Ok_iff s text). Qed.

Lemma starts_with_minus_cons rest :
  starts_with_minus (String minus rest) = true.
Proof. reflexivity. Qed.

Lemma ParseQuery_loop_words s words query0 query :
  ParseQuery_loop s words query0 = Ok query ->
  increasing (plus_words query0) ->
  increasing (minus_words query0) ->
  increasing (plus_words query) /\
  increasing (minus_words query) /\
  (forall word,
     In word (plus_words query)
     <-> In word (plus_words query0)
         \/ (In word words /\ starts_with_minus word = false
             /\ IsStopWord s word = false)) /\
  (forall word,
     In word (minus_words query)
     <-> In word (minus_words query0)
         \/ (In (String minus word) words /\ IsStopWord s word = false)).
Proof.
  revert query0. induction words as [|w words IH]; intros query0 Hrun Hplus Hminus.
  - simpl in Hrun. apply Ok_inj in Hrun. subst query.
    split; [exact Hplus|]. split; [exact Hminus|]. simpl. intuition.
  - simpl in Hrun.
    destruct (ParseQueryWord s w) as [query_word|] eqn:Hw; [|discriminate].
    cbn [bind] in Hrun.
    destruct (ParseQueryWord_Ok_inv _ _ _ Hw) as [[Hfront ->] | (rest & -> & ->)];
      cbn [is_stop is_minus data] in Hrun.
    + destruct (IsStopWord s w) eqn:Hstop; cbn [negb] in Hrun.
      * destruct (IH _ Hrun Hplus Hminus) as (H1 & H2 & H3 & H4).
        split; [exact H1|]. split; [exact H2|]. split.
        -- intros word. rewrite H3. simpl. intuition; subst; congruence.
        -- intros word. rewrite H4. simpl. intuition; subst.
           now rewrite starts_with_minus_cons in Hfront.
      * destruct (IH _ Hrun) as (H1 & H2 & H3 & H4);
          [now apply increasing_set_insert | exact Hminus |].
        split; [exact H1|]. split; [exact H2|]. split.
        -- intros word. rewrite H3. cbn [plus_words]. rewrite set_insert_In.
           simpl. intuition; subst; auto.
        -- intros word. rewrite H4. cbn [minus_words]. simpl. intuition; subst.
           now rewrite starts_with_minus_cons in Hfront.
    + assert (Hfront := starts_with_minus_cons rest).
      destruct (IsStopWord s rest) eqn:Hstop; cbn [negb] in Hrun.
      * destruct (IH _ Hrun Hplus Hminus) as (H1 & H2 & H3 & H4).
        split; [exact H1|]. split; [exact H2|]. split.
        -- intros word. rewrite H3. simpl. intuition; subst; congruence.
        -- intros word. rewrite H4. simpl. intuition.
           match goal with Heq : String minus _ = String minus _ |- _ =>
             inversion Heq; subst; congruence end.
      * destruct (IH _ Hrun) as (H1 & H2 & H3 & H4);
          [exact Hplus | now apply increasing_set_insert |].
        split; [exact H1|]. split; [exact H2|]. split.
        -- intros word. rewrite H3. cbn [plus_words]. simpl.
           intuition; subst; congruence.
        -- intros word. rewrite H4. cbn [minus_words]. rewrite set_insert_In.
           simpl. intuition; subst; auto.
           match goal with Heq : String minus _ = String minus _ |- _ =>
             inversion Heq; subst; auto end.
Qed.

(** X13. The query that [ParseQuery] returns holds two strictly increasing
    sets without stop words: the plus words are the words of the text that
    do not begin with [-] and are not stop words; the minus words are the
    words that follow a [-] at the beginning of a word of the text and are
    not stop words. *)
Theorem ParseQuery_words s text query :
  ParseQuery s text = Ok query ->
  increasing (plus_words query) /\
  increasing (minus_words query) /\
  (forall word,
     In word (plus_words query)
     <-> In word (SplitIntoWords text) /\ starts_with_minus word = false
         /\ IsStopWord s word = false) /\
  (forall word,
     In word (minus_words query)
     <-> In (String minus word) (SplitIntoWords text) /\ IsStopWord s word = false).
Proof.
  intros Hparse.
  destruct (ParseQuery_loop_words s _ _ _ Hparse I I) as (H1 & H2 & H3 & H4).
  split; [exact H1|]. split; [exact H2|]. split.
  - intros word. rewrite H3. simpl. tauto.
  - intros word. rewrite H4. simpl. tauto.
Qed.

Lemma ParseQuery_words_witness :
  ParseQuery main_server "white -cat the cat -in white"
  = Ok {| plus_words := ["cat"; "white"]; minus_words := ["cat"] |} /\
  (In "cat" ["cat"]
   <-> In (String minus "cat") (SplitIntoWords "white -cat the cat -in white")
       /\ IsStopWord main_server "cat" = false).
Proof.
  assert (Hparse : ParseQuery main_server "white -cat the cat -in white"
                   = Ok {| plus_words := ["cat"; "white"]; minus_words := ["cat"] |})
    by (vm_compute; reflexivity).
  split; [exact Hparse|].
  apply (ParseQuery_words main_server "white -cat the cat -in white" _ Hparse).
Defined.

(** ** FindAllDocuments and FindTopDocuments: the documents found *)

Section OrderedKeys.
Context {K : Type} `{CompareSpec K}.

Lemma increasing_NoDup (s : list K) : increasing s -> NoDup s.
Proof.
  induction s as [|k s IH]; [constructor|].
  intros [Hhead Hinc]. constructor; [|auto].
  destruct s as [|k' s]; [intros []|].
  intros Hin. pose proof (increasing_head_lt k k' s Hhead Hinc k Hin) as Hlt.
  rewrite cmp_refl in Hlt. discriminate.
Qed.

Lemma ordered_increasing {V : Type} (m : list (K * V)) :
  ordered m -> increasing (map fst m).
Proof.
  induction m as [|[k v] m IH]; simpl; auto.
  intros [Hbelow Hord]. split; [|auto].
  destruct m as [|[k' v'] m]; simpl; auto.
Qed.

Lemma increasing_filter (f : K -> bool) (s : list K) :
  increasing s -> increasing (filter f s).
Proof.
  induction s as [|k s IH]; [auto|].
  intros [Hhead Hinc]. simpl filter.
  destruct (f k); [|auto].
  cbn [increasing]. split; [|auto].
  destruct (filter f s) as [|k' l] eqn:E; [exact I|].
  assert (Hin : In k' s).
  { apply (proj1 (filter_In f k' s)). rewrite E. now left. }
  destruct s as [|k'' s']; [contradiction|].
  exact (increasing_head_lt k k'' s' Hhead Hinc k' Hin).
Qed.

End OrderedKeys.

Lemma firstn_NoDup {A : Type} (n : nat) (l : list A) : NoDup l -> NoDup (firstn n l).
Proof.
  intros Hnodup. rewrite <- (firstn_skipn n l) in Hnodup.
  now apply NoDup_app_remove_r in Hnodup.
Qed.

Lemma collect_documents_ids s rel_map matched_documents documents :
  collect_documents s rel_map matched_documents = Ok documents ->
  map id documents = map id matched_documents ++ map fst rel_map.
Proof.
  revert matched_documents.
  induction rel_map as [|[d r] rel_map IH]; intros matched_documents; simpl.
  - intros Hrun. apply Ok_inj in Hrun. subst. now rewrite app_nil_r.
  - destruct (map_at d (documents_ s)) as [data|]; [|discriminate]. cbn [bind].
    intros Hrun. apply IH in Hrun.
    rewrite Hrun, map_app, <- app_assoc. reflexivity.
Qed.

Lemma DocumentStatus_eqb_eq a b : DocumentStatus_eqb a b = true -> a = b.
Proof. destruct a, b; simpl; congruence. Qed.

Lemma existsb_filter {A : Type} (f : A -> bool) (l : list A) :
  existsb f l = true -> filter f l <> [].
Proof.
  induction l as [|x l IH]; simpl; [discriminate|].
  destruct (f x); [discriminate | exact IH].
Qed.

Lemma ParseQuery_loop_invalid_argument s words query e :
  ParseQuery_loop s words query = Throw e -> exists what, e = invalid_argument what.
Proof.
  revert query. induction words as [|w words IH]; intros query; simpl; [discriminate|].
  destruct (ParseQueryWord s w) as [query_word|e'] eqn:Hw; simpl.
  - destruct (negb (is_stop query_word)); [destruct (is_minus query_word)|]; apply IH.
  - intros [= <-]. exact (ParseQueryWord_Throw _ _ _ Hw).
Qed.

Section FindTopDocumentsAnswers.
Context `{Cmath} `{Algorithm} `{!AlgorithmSpec}.

(** [FindAllDocuments] lists the documents by ascending id. *)
Lemma FindAllDocuments_ids s document_predicate query documents :
  well_formed s ->
  FindAllDocuments s query document_predicate = Ok documents ->
  increasing (map id documents).
Proof.
  intros Hwf. unfold FindAllDocuments.
  destruct (add_plus_words_spec s document_predicate Hwf (plus_words query) [])
    as (m1 & Hrun1 & Hord1 & _); [exact I|].
  rewrite Hrun1. cbn [bind].
  destruct (erase_minus_words_spec s Hwf (minus_words query) m1 Hord1)
    as (m2 & Hrun2 & Hord2 & _).
  rewrite Hrun2. cbn [bind].
  intros Hrun. apply collect_documents_ids in Hrun. rewrite Hrun. simpl.
  now apply ordered_increasing.
Qed.

Lemma answers_FindAllDocuments s document_predicate query matched_documents :
  well_formed s ->
  FindAllDocuments s query document_predicate = Ok matched_documents ->
  forall document_id,
    answers s document_predicate query document_id = true
    <-> In document_id (map id matched_documents).
Proof.
  intros Hwf Hall d.
  destruct (FindAllDocuments_spec s document_predicate Hwf query)
    as (matched' & Hall' & Hspec).
  rewrite Hall in Hall'. apply Ok_inj in Hall'. subst matched'.
  unfold answers. rewrite in_map_iff. split.
  - intros Ha. apply andb_true_iff in Ha. destruct Ha as [Ha Hminus].
    apply andb_true_iff in Ha. destruct Ha as [Hp Hplus].
    apply negb_true_iff in Hminus.
    pose proof Hp as Hp'. unfold passes in Hp'.
    destruct (map_find d (documents_ s)) as [data|] eqn:Hdata; [|discriminate].
    exists {| id := d; relevance := relevance_sum s (plus_words query) d;
              rating := DocumentData.rating data |}.
    split; [reflexivity|]. apply Hspec. simpl.
    split; [exists data; auto|]. auto.
  - intros (document & <- & Hin). apply Hspec in Hin.
    destruct Hin as (_ & Hp & Hplus & Hminus & _).
    now rewrite Hp, Hplus, Hminus.
Qed.

(** What [FindTopDocuments] says of a document it returns. *)
Lemma FindTopDocuments_In s raw_query document_predicate documents document :
  well_formed s ->
  FindTopDocuments s raw_query document_predicate = Ok documents ->
  In document documents ->
  exists query data,
    ParseQuery s raw_query = Ok query /\
    raw_query <> EmptyString /\
    map_find (id document) (documents_ s) = Some data /\
    rating document = DocumentData.rating data /\
    document_predicate (id document) (DocumentData.status data)
      (DocumentData.rating data) = true /\
    existsb (has_posting s (id document)) (plus_words query) = true /\
    existsb (has_posting s (id document)) (minus_words query) = false.
Proof.
  intros Hwf Hfind Hin.
  destruct (ParseQuery s raw_query) as [query|e] eqn:Hparse;
    [|unfold FindTopDocuments in Hfind; rewrite Hparse in Hfind; discriminate].
  assert (Hraw : raw_query <> EmptyString).
  { intros ->. unfold FindTopDocuments in Hfind.
    rewrite Hparse in Hfind. discriminate. }
  destruct (FindTopDocuments_returns s raw_query document_predicate query
              Hwf Hraw Hparse) as (matched & Hall & Htop).
  rewrite Htop in Hfind. apply Ok_inj in Hfind. subst documents.
  apply In_firstn in Hin.
  apply (Permutation_in _ (sort_permutation _ by_relevance matched)) in Hin.
  destruct (FindAllDocuments_spec s document_predicate Hwf query)
    as (matched' & Hall' & Hspec).
  rewrite Hall in Hall'. apply Ok_inj in Hall'. subst matched'.
  apply Hspec in Hin.
  destruct Hin as ((data & Hdata & Hrating) & Hpasses & Hplus & Hminus & _).
  exists query, data. unfold passes in Hpasses. rewrite Hdata in Hpasses.
  repeat split; assumption.
Qed.

(** X14. On a reachable server [FindTopDocuments] returns no document
    twice, and it leaves out a document that answers the query (a stored
    document that the predicate accepts, with a posting under a plus word
    and under no minus word) only when it returns five documents; it
    returns no document exactly when no document answers the query. *)
Theorem FindTopDocuments_answers s raw_query document_predicate query documents :
  reachable s ->
  ParseQuery s raw_query = Ok query ->
  FindTopDocuments s raw_query document_predicate = Ok documents ->
  NoDup (map id documents) /\
  (forall document_id,
     answers s document_predicate query document_id = true ->
     In document_id (map id documents)
     \/ List.length documents = MAX_RESULT_DOCUMENT_COUNT) /\
  (documents = []
   <-> forall document_id,
         answers s document_predicate query document_id = false).
Proof.
  intros Hreach Hparse Hfind.
  apply reachable_well_formed in Hreach.
  assert (Hraw : raw_query <> EmptyString).
  { intros ->. unfold FindTopDocuments in Hfind.
    rewrite Hparse in Hfind. discriminate. }
  destruct (FindTopDocuments_returns s raw_query document_predicate query
              Hreach Hraw Hparse) as (matched & Hall & Htop).
  rewrite Htop in Hfind. apply Ok_inj in Hfind. subst documents.
  pose proof (answers_FindAllDocuments _ _ _ _ Hreach Hall) as Hanswer.
  pose proof (sort_permutation _ by_relevance matched) as Hperm.
  pose proof (increasing_NoDup _ (FindAllDocuments_ids _ _ _ _ Hreach Hall))
    as Hnodup.
  revert Hperm. generalize (sort by_relevance matched). intros sorted Hperm.
  split; [|split].
  - apply (Permutation_NoDup (Permutation_map id (Permutation_sym Hperm))) in Hnodup.
    rewrite <- (firstn_skipn MAX_RESULT_DOCUMENT_COUNT sorted), map_app in Hnodup.
    now apply NoDup_app_remove_r in Hnodup.
  - intros d Ha. apply Hanswer in Ha.
    destruct (Nat.le_gt_cases (List.length sorted) MAX_RESULT_DOCUMENT_COUNT)
      as [Hfew | Hmany].
    + left. rewrite firstn_all2 by assumption.
      exact (Permutation_in _ (Permutation_map id (Permutation_sym Hperm)) Ha).
    + right. rewrite length_firstn. lia.
  - split.
    + intros Hempty d.
      destruct (answers s document_predicate query d) eqn:Ha; [|reflexivity].
      apply Hanswer in Ha.
      destruct sorted as [|document sorted]; [|discriminate].
      apply Permutation_nil in Hperm. subst matched. contradiction.
    + intros Hnone. destruct matched as [|document matched].
      * apply Permutation_sym, Permutation_nil in Hperm. now subst sorted.
      * specialize (Hnone (id document)).
        assert (Htrue : answers s document_predicate query (id document) = true)
          by (apply Hanswer; now left).
        congruence.
Qed.

(** X15. On a reachable server [FindTopDocuments] returns exactly for the
    queries that are not empty and whose words [ParseQueryWord] accepts; the
    empty query is refused with [invalid_argument], and whatever is thrown is
    an [invalid_argument]: the lookups in the index and in the store find
    their keys. *)
Theorem FindTopDocuments_outcome s raw_query document_predicate :
  reachable s ->
  ((exists documents,
      FindTopDocuments s raw_query document_predicate = Ok documents)
   <-> raw_query <> EmptyString
       /\ Forall (fun word => query_word_ok word = true)
            (SplitIntoWords raw_query)) /\
  (raw_query = EmptyString ->
   FindTopDocuments s raw_query document_predicate
   = Throw (invalid_argument what_empty_request)) /\
  (forall e,
     FindTopDocuments s raw_query document_predicate = Throw e ->
     exists what, e = invalid_argument what).
Proof.
  intros Hreach. apply reachable_well_formed in Hreach.
  pose proof (ParseQuery_Ok_iff s raw_query) as Hiff.
  destruct (ParseQuery s raw_query) as [query|e] eqn:Hparse.
  - destruct raw_query as [|c raw] eqn:Hraw.
    + split; [|split].
      * split; [intros [documents Hfind]; discriminate | intros [Hne _]; congruence].
      * reflexivity.
      * intros e [= <-]. eauto.
    + destruct (FindTopDocuments_returns s (String c raw) document_predicate query
                  Hreach ltac:(discriminate) Hparse) as (matched & _ & Htop).
      split; [|split].
      * split; [|eauto]. intros _. split; [discriminate|]. apply Hiff. eauto.
      * discriminate.
      * intros e. rewrite Htop. discriminate.
  - assert (Hthrow : FindTopDocuments s raw_query document_predicate = Throw e).
    { unfold FindTopDocuments. now rewrite Hparse. }
    split; [|split].
    + split.
      * intros [documents Hfind]. congruence.
      * intros [_ Hall]. apply Hiff in Hall. destruct Hall as [query Hquery].
        discriminate.
    + intros ->. discriminate.
    + intros e'. rewrite Hthrow. intros [= <-].
      exact (ParseQuery_loop_invalid_argument _ _ _ _ Hparse).
Qed.

(** X16. On a reachable server every document that the overload of
    [FindTopDocuments] with a status returns is stored with that status, and
    every document that the overload without one returns is stored as
    [ACTUAL]. *)
Theorem FindTopDocuments_status_results s raw_query :
  reachable s ->
  (forall status documents,
     FindTopDocuments_status s raw_query status = Ok documents ->
     forall document,
       In document documents ->
       exists data,
         map_find (id document) (documents_ s) = Some data /\
         DocumentData.status data = status) /\
  (forall documents,
     FindTopDocuments_default s raw_query = Ok documents ->
     forall document,
       In document documents ->
       exists data,
         map_find (id document) (documents_ s) = Some data /\
         DocumentData.status data = ACTUAL).
Proof.
  intros Hreach. apply reachable_well_formed in Hreach.
  assert (Hstatus : forall status documents,
            FindTopDocuments_status s raw_query status = Ok documents ->
            forall document,
              In document documents ->
              exists data,
                map_find (id document) (documents_ s) = Some data /\
                DocumentData.status data = status).
  { intros status documents Hfind document Hin.
    destruct (FindTopDocuments_In _ _ _ _ _ Hreach Hfind Hin)
      as (query & data & _ & _ & Hdata & _ & Hp & _).
    exists data. split; [exact Hdata|]. now apply DocumentStatus_eqb_eq. }
  split; [exact Hstatus|].
  intros documents Hfind. exact (Hstatus ACTUAL documents Hfind).
Qed.

(** X17. On a reachable server a query that is not empty, parses, and has
    only minus words and stop words finds no document, whatever the
    predicate. *)
Theorem FindTopDocuments_without_plus_words s raw_query document_predicate :
  reachable s ->
  raw_query <> EmptyString ->
  Forall (fun word => query_word_ok word = true) (SplitIntoWords raw_query) ->
  Forall (fun word => minus_or_stop s word = true) (SplitIntoWords raw_query) ->
  FindTopDocuments s raw_query document_predicate = Ok [].
Proof.
  intros Hreach Hraw Hok Hall. apply reachable_well_formed in Hreach.
  apply (ParseQuery_Ok_iff s) in Hok. destruct Hok as [query Hparse].
  destruct (ParseQuery_loop_words s _ _ _ Hparse I I) as (_ & _ & Hplus & _).
  assert (Hnone : plus_words query = []).
  { destruct (plus_words query) as [|word words] eqn:Hwords; [reflexivity|].
    destruct (proj1 (Hplus word)) as [[] | (Hin & Hfront & Hstop)]; [now left|].
    rewrite Forall_forall in Hall. specialize (Hall word Hin).
    unfold minus_or_stop in Hall. rewrite Hfront, Hstop in Hall. discriminate. }
  destruct (FindTopDocuments_returns s raw_query document_predicate query
              Hreach Hraw Hparse) as (matched & Hfind & Htop).
  rewrite Htop.
  pose proof (answers_FindAllDocuments _ _ _ _ Hreach Hfind) as Hanswer.
  destruct matched as [|document matched].
  - pose proof (sort_permutation _ by_relevance (@nil Document)) as Hperm.
    apply Permutation_sym, Permutation_nil in Hperm. now rewrite Hperm.
  - assert (Htrue : answers s document_predicate query (id document) = true)
      by (apply Hanswer; now left).
    unfold answers in Htrue. rewrite Hnone in Htrue. simpl in Htrue.
    rewrite andb_false_r in Htrue. discriminate.
Qed.

End FindTopDocumentsAnswers.

Section FindTopDocumentsMatch.
Context `{Cmath} `{Algorithm} `{!AlgorithmSpec}.

(** X18. On a reachable server [MatchDocument], called with the query and
    the id of a document that [FindTopDocuments] returned for it, returns:
    it reports at least one matched word, and the status it reports is one
    that the predicate accepted with the id and the rating of the document. *)
Theorem FindTopDocuments_MatchDocument s raw_query document_predicate documents document :
  reachable s ->
  FindTopDocuments s raw_query document_predicate = Ok documents ->
  In document documents ->
  exists words status,
    MatchDocument s raw_query (id document) = Ok (words, status) /\
    words <> [] /\
    document_predicate (id document) status (rating document) = true.
Proof.
  intros Hreach Hfind Hin.
  pose proof (reachable_sequence_invariant _ Hreach) as [_ Hstored Hnonneg].
  apply reachable_well_formed in Hreach.
  destruct (FindTopDocuments_In _ _ _ _ _ Hreach Hfind Hin)
    as (query & data & Hparse & Hraw & Hdata & Hrating & Hp & Hplus & Hminus).
  assert (Hid : 0 <= id document).
  { rewrite Forall_forall in Hnonneg. apply Hnonneg. apply Hstored. eauto. }
  exists (filter (has_posting s (id document)) (plus_words query)),
         (DocumentData.status data).
  split; [|split].
  - unfold MatchDocument.
    apply Z.ltb_ge in Hid. rewrite Hid, Hparse. simpl.
    rewrite (string_empty_false _ Hraw).
    rewrite match_plus_words_filter. simpl.
    rewrite match_minus_words_existsb. simpl.
    unfold map_at. rewrite Hdata, Hminus. reflexivity.
  - now apply existsb_filter.
  - now rewrite Hrating.
Qed.

End FindTopDocumentsMatch.

Lemma FindTopDocuments_answers_witness :
  NoDup (map id [{| id := 3; relevance := 0x1.0a2b23f3bab73p-2; rating := 1 |};
                 {| id := 2; relevance := 0x1.62e42fefa39efp-3; rating := 3 |}]) /\
  (forall document_id,
     answers main_server any_document
       {| plus_words := ["cat"; "white"]; minus_words := ["hound"] |} document_id
     = true ->
     In document_id
       (map id [{| id := 3; relevance := 0x1.0a2b23f3bab73p-2; rating := 1 |};
                {| id := 2; relevance := 0x1.62e42fefa39efp-3; rating := 3 |}])
     \/ List.length
          [{| id := 3; relevance := 0x1.0a2b23f3bab73p-2; rating := 1 |};
           {| id := 2; relevance := 0x1.62e42fefa39efp-3; rating := 3 |}]
        = MAX_RESULT_DOCUMENT_COUNT) /\
  ([{| id := 3; relevance := 0x1.0a2b23f3bab73p-2; rating := 1 |};
    {| id := 2; relevance := 0x1.62e42fefa39efp-3; rating := 3 |}] = []
   <-> forall document_id,
         answers main_server any_document
           {| plus_words := ["cat"; "white"]; minus_words := ["hound"] |} document_id
         = false).
Proof.
  apply (@FindTopDocuments_answers Cmath_series Algorithm_insertion
           AlgorithmSpec_insertion main_server "white cat -hound" any_document).
  - exact main_server_reachable.
  - vm_compute. reflexivity.
  - vm_compute. reflexivity.
Defined.

Lemma FindTopDocuments_outcome_witness :
  ((exists documents,
      @FindTopDocuments Cmath_series Algorithm_insertion main_server
        "white --cat" any_document = Ok documents)
   <-> "white --cat" <> EmptyString
       /\ Forall (fun word => query_word_ok word = true)
            (SplitIntoWords "white --cat")) /\
  ("white --cat" = EmptyString ->
   @FindTopDocuments Cmath_series Algorithm_insertion main_server
     "white --cat" any_document
   = Throw (invalid_argument what_empty_request)) /\
  (forall e,
     @FindTopDocuments Cmath_series Algorithm_insertion main_server
       "white --cat" any_document = Throw e ->
     exists what, e = invalid_argument what).
Proof.
  apply (@FindTopDocuments_outcome Cmath_series Algorithm_insertion
           main_server "white --cat" any_document).
  exact main_server_reachable.
Defined.

Lemma FindTopDocuments_status_results_witness :
  (forall status documents,
     @FindTopDocuments_status Cmath_series Algorithm_insertion main_server
       "white cat" status = Ok documents ->
     forall document,
       In document documents ->
       exists data,
         map_find (id document) (documents_ main_server) = Some data /\
         DocumentData.status data = status) /\
  (forall documents,
     @FindTopDocuments_default Cmath_series Algorithm_insertion main_server
       "white cat" = Ok documents ->
     forall document,
       In document documents ->
       exists data,
         map_find (id document) (documents_ main_server) = Some data /\
         DocumentData.status data = ACTUAL).
Proof.
  apply (@FindTopDocuments_status_results Cmath_series Algorithm_insertion
           AlgorithmSpec_insertion main_server "white cat").
  exact main_server_reachable.
Defined.

Lemma FindTopDocuments_without_plus_words_witness :
  @FindTopDocuments Cmath_series Algorithm_insertion main_server
    "-white the -cat" any_document = Ok [].
Proof.
  apply (@FindTopDocuments_without_plus_words Cmath_series Algorithm_insertion
           AlgorithmSpec_insertion main_server "-white the -cat" any_document).
  - exact main_server_reachable.
  - discriminate.
  - repeat constructor.
  - repeat constructor.
Defined.

Lemma FindTopDocuments_MatchDocument_witness :
  exists words status,
    MatchDocument main_server "white cat -hound"
      (id {| id := 3; relevance := 0x1.0a2b23f3bab73p-2; rating := 1 |})
    = Ok (words, status) /\
    words <> [] /\
    any_document (id {| id := 3; relevance := 0x1.0a2b23f3bab73p-2; rating := 1 |})
      status (rating {| id := 3; relevance := 0x1.0a2b23f3bab73p-2; rating := 1 |})
    = true.
Proof.
  apply (@FindTopDocuments_MatchDocument Cmath_series Algorithm_insertion
           AlgorithmSpec_insertion main_server "white cat -hound" any_document
           [{| id := 3; relevance := 0x1.0a2b23f3bab73p-2; rating := 1 |};
            {| id := 2; relevance := 0x1.62e42fefa39efp-3; rating := 3 |}]).
  - exact main_server_reachable.
  - vm_compute. reflexivity.
  - now left.
Defined.

(** ** RequestQueue: requests that throw, bounds and request ids *)

Lemma count_zero_bounds (l : list Z) :
  0 <= count_zero l <= Z.of_nat (List.length l).
Proof.
  induction l as [|x l IH]; [simpl; lia|].
  cbn [count_zero List.length]. rewrite Nat2Z.inj_succ.
  destruct (x =? 0); simpl int_of_bool; lia.
Qed.

Lemma request_times_S (n : nat) :
  request_times (S n) = request_times n ++ [to_uint64 (Z.of_nat (S n))].
Proof. unfold request_times. rewrite seq_S, map_app. reflexivity. Qed.

Lemma request_times_length (n : nat) : List.length (request_times n) = n.
Proof. unfold request_times. now rewrite length_map, length_seq. Qed.

Section RequestQueueBounds.
Context `{Cmath} `{Algorithm}.

Lemma request_returns_succeeds r : request_returns r = true <-> request_succeeds r.
Proof.
  unfold request_returns, request_succeeds.
  destruct (FindTopDocuments _ _ _) as [results|e]; split; eauto.
  - discriminate.
  - intros [results Hresults]. discriminate.
Qed.

Lemma AddFindRequests_filter requests q :
  AddFindRequests requests q = AddFindRequests (filter request_returns requests) q.
Proof.
  revert q. induction requests as [|r requests IH]; intros q; [reflexivity|].
  cbn [filter]. destruct (request_returns r) eqn:Hr.
  - unfold AddFindRequests. cbn [fold_left]. apply IH.
  - unfold AddFindRequests at 1. cbn [fold_left].
    unfold request_returns in Hr.
    destruct (FindTopDocuments (request_server r) (request_query r)
                (request_predicate r)) as [results|e] eqn:Hfind; [discriminate|].
    rewrite (AddFindRequest_Throw _ _ _ _ _ Hfind). apply IH.
Qed.

Lemma filter_request_returns requests :
  Forall request_succeeds (filter request_returns requests).
Proof.
  apply Forall_forall. intros r Hr. apply filter_In in Hr.
  now apply request_returns_succeeds.
Qed.

(** The queue after a request that returns: the record of the request
    behind the records that were there, less the oldest one when the queue
    was full. *)
Lemma AddFindRequest_requests r q results :
  FindTopDocuments (request_server r) (request_query r) (request_predicate r)
  = Ok results ->
  exists record,
    request_time record = to_uint64 (current_request_id_ q + 1) /\
    number_of_request_results record = Z.of_nat (List.length results) /\
    current_request_id_
      (snd (AddFindRequest (request_server r) (request_query r)
              (request_predicate r) q))
    = to_uint64 (current_request_id_ q + 1) /\
    requests_
      (snd (AddFindRequest (request_server r) (request_query r)
              (request_predicate r) q))
    = if deque_size (requests_ q) =? min_in_day_
      then tl (requests_ q ++ [record])
      else requests_ q ++ [record].
Proof.
  intros Hfind. unfold AddFindRequest. rewrite Hfind. cbn [snd requests_ current_request_id_].
  destruct (requests_ q) as [|r0 rs] eqn:Hreqs.
  - eexists. repeat apply conj. 4: reflexivity. all: reflexivity.
  - destruct (deque_size (r0 :: rs) =? min_in_day_);
      (eexists; repeat apply conj; [| | |reflexivity]; reflexivity).
Qed.

Lemma AddFindRequest_bounded r q history :
  request_succeeds r ->
  tracks q history ->
  Forall record_bounded (requests_ q) ->
  Forall record_bounded
    (requests_ (snd (AddFindRequest (request_server r) (request_query r)
                       (request_predicate r) q))).
Proof.
  intros Hr Htracks Hbounded.
  pose proof (AddFindRequest_tracks r q history Hr Htracks) as (Hmap & Hcount & _).
  destruct Hr as [results Hfind].
  pose proof (FindTopDocuments_length _ _ _ _ Hfind) as Hfive.
  destruct (AddFindRequest_requests r q results Hfind)
    as (record & _ & Hresults & _ & Hreqs).
  set (window := Z.to_nat min_in_day_) in *.
  assert (Hwindow : Z.of_nat window = min_in_day_).
  { subst window. unfold min_in_day_. lia. }
  rewrite Hreqs in Hmap, Hcount |- *.
  assert (Hrecord : record_bounded record).
  { split; [|rewrite Hresults; lia].
    assert (Hback : number_of_no_results record
                    = count_zero (lastn window (history ++ [request_results r]))).
    { rewrite <- Hcount. unfold deque_back.
      destruct (deque_size (requests_ q) =? min_in_day_) eqn:Hfull.
      - destruct (requests_ q) as [|r0 rs].
        + discriminate.
        + rewrite <- app_comm_cons. cbn [tl]. now rewrite last_last.
      - now rewrite last_last. }
    rewrite Hback.
    pose proof (count_zero_bounds (lastn window (history ++ [request_results r])))
      as Hzero.
    rewrite lastn_length in Hzero. lia. }
  assert (Hall : Forall record_bounded (requests_ q ++ [record])).
  { apply Forall_app. split; [exact Hbounded | now constructor]. }
  destruct (deque_size (requests_ q) =? min_in_day_); [|exact Hall].
  destruct (requests_ q ++ [record]); [constructor|].
  now inversion Hall.
Qed.

Lemma AddFindRequests_bounded requests q history :
  Forall request_succeeds requests ->
  tracks q history ->
  Forall record_bounded (requests_ q) ->
  Forall record_bounded (requests_ (AddFindRequests requests q)).
Proof.
  intros Hall. revert q history.
  induction Hall as [|r requests Hr _ IH]; intros q history Htracks Hbounded.
  - exact Hbounded.
  - unfold AddFindRequests. cbn [fold_left].
    apply (IH _ (history ++ [request_results r])).
    + now apply AddFindRequest_tracks.
    + now apply (AddFindRequest_bounded r q history).
Qed.

Lemma AddFindRequest_numbered r q n results :
  FindTopDocuments (request_server r) (request_query r) (request_predicate r)
  = Ok results ->
  numbered q n ->
  numbered
    (snd (AddFindRequest (request_server r) (request_query r)
            (request_predicate r) q))
    (S n).
Proof.
  intros Hfind [Hcurrent Htimes].
  destruct (AddFindRequest_requests r q results Hfind)
    as (record & Htime & _ & Hcurrent' & Hreqs).
  assert (Hnext : to_uint64 (current_request_id_ q + 1) = to_uint64 (Z.of_nat (S n))).
  { rewrite Hcurrent. unfold to_uint64. rewrite Zplus_mod_idemp_l.
    f_equal. lia. }
  split; [now rewrite Hcurrent'|].
  rewrite Hreqs, request_times_S.
  set (window := Z.to_nat min_in_day_) in *.
  assert (Hwindow : (0 < window)%nat /\ Z.of_nat window = min_in_day_).
  { subst window. unfold min_in_day_. lia. }
  assert (Hlen : List.length (requests_ q) = Nat.min window n).
  { rewrite <- (length_map request_time), Htimes, lastn_length,
      request_times_length. reflexivity. }
  destruct (deque_size (requests_ q) =? min_in_day_) eqn:Hfull.
  - apply Z.eqb_eq in Hfull. unfold deque_size in Hfull.
    rewrite lastn_snoc_full by (rewrite request_times_length; lia).
    rewrite <- Htimes, <- Hnext, <- Htime.
    destruct (requests_ q); simpl; [reflexivity|].
    now rewrite map_app.
  - apply Z.eqb_neq in Hfull. unfold deque_size in Hfull.
    rewrite lastn_all in Htimes by (rewrite request_times_length; lia).
    rewrite lastn_all by (rewrite length_app, request_times_length; simpl; lia).
    rewrite map_app, Htimes, <- Hnext, <- Htime. reflexivity.
Qed.

Lemma AddFindRequests_numbered requests q n :
  numbered q n ->
  numbered (AddFindRequests requests q)
    (n + List.length (filter request_returns requests)).
Proof.
  revert q n. induction requests as [|r requests IH]; intros q n Hq.
  - simpl. now rewrite Nat.add_0_r.
  - unfold AddFindRequests. cbn [fold_left filter].
    destruct (request_returns r) eqn:Hr; unfold request_returns in Hr;
      destruct (FindTopDocuments (request_server r) (request_query r)
                  (request_predicate r)) as [results|e] eqn:Hfind;
      try discriminate.
    + cbn [List.length]. rewrite Nat.add_succ_r.
      apply (IH _ (S n)). now apply (AddFindRequest_numbered r q n results).
    + rewrite (AddFindRequest_Throw _ _ _ _ _ Hfind). cbn [snd]. now apply IH.
Qed.

(** X19. A request whose [FindTopDocuments] throws leaves no trace:
    [AddFindRequest] throws the same exception and the queue is the one it
    was, so the queue after any requests is the queue after those of them
    that return.  What [AddFindRequest] returns or throws is in every case
    what [FindTopDocuments] returns or throws. *)
Theorem AddFindRequests_failed_requests requests q :
  AddFindRequests requests q = AddFindRequests (filter request_returns requests) q /\
  (forall search_server_ raw_query document_predicate e,
     FindTopDocuments search_server_ raw_query document_predicate = Throw e ->
     AddFindRequest search_server_ raw_query document_predicate q = (Throw e, q)) /\
  (forall r,
     request_returns r = false ->
     exists e,
       FindTopDocuments (request_server r) (request_query r) (request_predicate r)
       = Throw e /\
       AddFindRequest (request_server r) (request_query r) (request_predicate r) q
       = (Throw e, q)) /\
  (forall search_server_ raw_query document_predicate,
     fst (AddFindRequest search_server_ raw_query document_predicate q)
     = FindTopDocuments search_server_ raw_query document_predicate).
Proof.
  split; [apply AddFindRequests_filter|]. split; [|split].
  - intros search_server_ raw_query document_predicate e.
    apply AddFindRequest_Throw.
  - intros r Hr. unfold request_returns in Hr.
    destruct (FindTopDocuments (request_server r) (request_query r)
                (request_predicate r)) as [results|e] eqn:Hfind; [discriminate|].
    exists e. split; [reflexivity|].
    now apply (AddFindRequest_Throw (request_server r)).
  - intros search_server_ raw_query document_predicate. unfold AddFindRequest.
    now destruct (FindTopDocuments search_server_ raw_query document_predicate).
Qed.

(** X20. Whatever requests are made on a new queue, the queue holds one
    record for each of the most recent requests that returned, 1440 at
    most; in every record the number of results is between 0 and 5 and the
    running count of requests without results is between 0 and 1440: the
    [int] arithmetic of the count never leaves that range. *)
Theorem RequestQueue_bounds requests :
  List.length (requests_ (AddFindRequests requests RequestQueue_new))
  = Nat.min (List.length (filter request_returns requests)) (Z.to_nat min_in_day_) /\
  Forall record_bounded (requests_ (AddFindRequests requests RequestQueue_new)).
Proof.
  rewrite AddFindRequests_filter.
  pose proof (filter_request_returns requests) as Hall.
  pose proof (AddFindRequests_tracks _ RequestQueue_new [] Hall tracks_new)
    as Htracks.
  split.
  - destruct Htracks as (Hmap & _).
    rewrite <- (length_map number_of_request_results), Hmap, lastn_length.
    simpl app. rewrite length_map. lia.
  - apply (AddFindRequests_bounded _ RequestQueue_new [] Hall tracks_new).
    constructor.
Qed.

(** X21. The requests that return are numbered 1, 2, ... in [uint64_t]:
    after any requests on a new queue, n of which returned, the counter of
    the queue is n (modulo 2^64) and the records hold, oldest first, the
    numbers of the most recent min (n, 1440) of them. *)
Theorem RequestQueue_request_times requests :
  current_request_id_ (AddFindRequests requests RequestQueue_new)
  = to_uint64 (Z.of_nat (List.length (filter request_returns requests))) /\
  map request_time (requests_ (AddFindRequests requests RequestQueue_new))
  = lastn (Z.to_nat min_in_day_)
      (request_times (List.length (filter request_returns requests))).
Proof.
  apply (AddFindRequests_numbered requests RequestQueue_new 0).
  split; reflexivity.
Qed.

End RequestQueueBounds.

(** ** Paginator: the pages of a positive page size *)

Lemma firstn_add {A : Type} (a j : nat) (l : list A) :
  firstn a l ++ firstn j (skipn a l) = firstn (a + j) l.
Proof.
  revert l. induction a as [|a IH]; intros [|x l]; simpl; auto.
  - now rewrite firstn_nil.
  - now rewrite IH.
Qed.

Section Pages.
Context {A : Type}.
Variable c : list A.
Variable page_size : Z.
Hypothesis Hsize : 0 < page_size.

Lemma pages_from_spec m temp_begin range_end :
  0 <= temp_begin ->
  range_end <= Z.of_nat (List.length c) ->
  Z.of_nat m * page_size < range_end - temp_begin <= (Z.of_nat m + 1) * page_size ->
  List.concat (map (page_elements c) (pages_from (S m) page_size temp_begin range_end))
  = firstn (Z.to_nat (range_end - temp_begin)) (skipn (Z.to_nat temp_begin) c) /\
  Forall (fun page => 0 < page_length c page <= page_size)
    (pages_from (S m) page_size temp_begin range_end) /\
  Forall (fun page => page_length c page = page_size)
    (removelast (pages_from (S m) page_size temp_begin range_end)) /\
  List.length (pages_from (S m) page_size temp_begin range_end) = S m.
Proof.
  revert temp_begin. induction m as [|m IH]; intros temp_begin Hbegin Hend Hrange.
  - cbn [pages_from map List.concat removelast List.length].
    unfold page_length, page_elements. cbn [page_begin_ page_end_].
    rewrite app_nil_r. split; [reflexivity|].
    split; [|split; [constructor | reflexivity]].
    constructor; [|constructor].
    unfold page_length, page_elements. cbn [page_begin_ page_end_].
    rewrite length_firstn, length_skipn. lia.
  - assert (Hrange' : Z.of_nat m * page_size
                      < range_end - (temp_begin + page_size)
                      <= (Z.of_nat m + 1) * page_size) by lia.
    destruct (IH (temp_begin + page_size) ltac:(lia) Hend Hrange')
      as (Hconcat & Hall & Hfull & Hlen).
    assert (Hpages : pages_from (S (S m)) page_size temp_begin range_end
                     = {| page_begin_ := temp_begin;
                          page_end_ := temp_begin + page_size |}
                       :: pages_from (S m) page_size (temp_begin + page_size) range_end)
      by reflexivity.
    rewrite Hpages. clear Hpages.
    assert (Hfirst : page_length c {| page_begin_ := temp_begin;
                                      page_end_ := temp_begin + page_size |}
                     = page_size).
    { unfold page_length, page_elements. cbn [page_begin_ page_end_].
      rewrite length_firstn, length_skipn. lia. }
    split; [|split; [|split]].
    + cbn [map List.concat]. rewrite Hconcat.
      unfold page_elements. cbn [page_begin_ page_end_].
      replace (Z.to_nat (temp_begin + page_size))
        with (Z.to_nat page_size + Z.to_nat temp_begin)%nat by lia.
      rewrite <- skipn_skipn.
      replace (temp_begin + page_size - temp_begin) with page_size by lia.
      rewrite firstn_add. f_equal. lia.
    + constructor; [lia | exact Hall].
    + destruct (pages_from (S m) page_size (temp_begin + page_size) range_end)
        as [|page pages] eqn:Hrest; [discriminate|].
      cbn [removelast]. constructor; [exact Hfirst | exact Hfull].
    + cbn [List.length]. now rewrite Hlen.
Qed.

End Pages.

(** X22. For a page size between 1 and 2^31 - 1 and a sequence of fewer than
    2^31 - 1 elements [Paginate] returns a paginator whose pages, in order,
    cut the sequence into consecutive parts: together they are the sequence,
    no page is empty or longer than the page size, and every page but the
    last has exactly the page size.  [size()] is the number of pages, the
    length of the sequence divided by the page size and rounded up; an empty
    sequence has no page. *)
Theorem Paginate_pages {A : Type} (c : list A) (page_size : Z) :
  0 < page_size < 2147483648 ->
  Z.of_nat (List.length c) < 2147483647 ->
  exists paginator,
    Paginate c page_size = Completes (Ok paginator) /\
    List.concat (map (page_elements c) (pages_ paginator)) = c /\
    Forall (fun page => 0 < page_length c page <= page_size) (pages_ paginator) /\
    Forall (fun page => page_length c page = page_size)
      (removelast (pages_ paginator)) /\
    Paginator_size paginator = Z.of_nat (List.length (pages_ paginator)) /\
    Paginator_size paginator
    = (Z.of_nat (List.length c) + page_size - 1) / page_size.
Proof.
  intros Hsize Hlen. unfold Paginate.
  rewrite (to_int_small page_size) by lia.
  set (n := Z.of_nat (List.length c)) in *.
  assert (Hn : 0 <= n) by (subst n; lia).
  rewrite Paginator_new_positive by (unfold INT_MAX; lia).
  eexists. split; [reflexivity|].
  unfold Paginator_size. cbn [pages_ pages_count_].
  set (pages_count := (n + page_size - 1) / page_size).
  pose proof (Z.div_mod (n + page_size - 1) page_size ltac:(lia)) as Hdiv.
  pose proof (Z.mod_pos_bound (n + page_size - 1) page_size ltac:(lia)) as Hmod.
  fold pages_count in Hdiv.
  destruct (Z.eq_dec n 0) as [Hzero | Hpos].
  - assert (Hnone : pages_count = 0).
    { subst pages_count. rewrite Hzero. apply Z.div_small. lia. }
    assert (c = []) as -> by (destruct c; [reflexivity | subst n; simpl in Hzero; lia]).
    rewrite Hnone. simpl.
    repeat split; constructor.
  - assert (Hsome : 1 <= pages_count /\
                    (pages_count - 1) * page_size < n <= pages_count * page_size)
      by nia.
    destruct Hsome as [Hone Hbounds].
    replace (Z.to_nat pages_count) with (S (Z.to_nat (pages_count - 1))) by lia.
    destruct (pages_from_spec c page_size ltac:(lia) (Z.to_nat (pages_count - 1)) 0 n)
      as (Hconcat & Hall & Hfull & Hpages); try lia.
    { rewrite Z2Nat.id by lia. nia. }
    split; [|split; [|split; [|split]]].
    + rewrite Hconcat. rewrite Z.sub_0_r. simpl skipn.
      apply firstn_all2. subst n. lia.
    + exact Hall.
    + exact Hfull.
    + rewrite Hpages. lia.
    + reflexivity.
Qed.

Lemma Paginate_pages_witness :
  exists paginator,
    Paginate [1; 2; 3; 4; 5; 6; 7] 3 = Completes (Ok paginator) /\
    List.concat (map (page_elements [1; 2; 3; 4; 5; 6; 7]) (pages_ paginator))
    = [1; 2; 3; 4; 5; 6; 7] /\
    Forall (fun page => 0 < page_length [1; 2; 3; 4; 5; 6; 7] page <= 3)
      (pages_ paginator) /\
    Forall (fun page => page_length [1; 2; 3; 4; 5; 6; 7] page = 3)
      (removelast (pages_ paginator)) /\
    Paginator_size paginator = Z.of_nat (List.length (pages_ paginator)) /\
    Paginator_size paginator
    = (Z.of_nat (List.length [1; 2; 3; 4; 5; 6; 7]) + 3 - 1) / 3.
Proof.
  apply (Paginate_pages [1; 2; 3; 4; 5; 6; 7] 3).
  - lia.
  - simpl. lia.
Defined.

(** ** FindAllDocuments *)

Section FindAllDocumentsDocuments.
Context `{Cmath}.

(** X23. On a reachable server [FindAllDocuments] returns for every query
    and predicate: none of its lookups in the index or in the store throws.
    It lists the documents by strictly ascending id, and the ids listed are
    exactly those of the documents that answer the query (stored and
    accepted by the predicate, with a posting under a plus word and under no
    minus word). *)
Theorem FindAllDocuments_documents s query document_predicate :
  reachable s ->
  exists documents,
    FindAllDocuments s query document_predicate = Ok documents /\
    increasing (map id documents) /\
    forall document_id,
      In document_id (map id documents)
      <-> answers s document_predicate query document_id = true.
Proof.
  intros Hreach. apply reachable_well_formed in Hreach.
  destruct (FindAllDocuments_spec s document_predicate Hreach query)
    as (documents & Hall & _).
  exists documents. split; [exact Hall|]. split.
  - exact (FindAllDocuments_ids _ _ _ _ Hreach Hall).
  - intros document_id. symmetry.
    exact (answers_FindAllDocuments _ _ _ _ Hreach Hall document_id).
Qed.

End FindAllDocumentsDocuments.

Lemma FindAllDocuments_documents_witness :
  exists documents,
    @FindAllDocuments Cmath_series main_server
      {| plus_words := ["cat"; "white"]; minus_words := ["hound"] |} any_document
    = Ok documents /\
    increasing (map id documents) /\
    forall document_id,
      In document_id (map id documents)
      <-> answers main_server any_document
            {| plus_words := ["cat"; "white"]; minus_words := ["hound"] |}
            document_id = true.
Proof.
  apply (@FindAllDocuments_documents Cmath_series main_server).
  exact main_server_reachable.
Defined.

(** ** The first version of the server *)

Lemma fold_set_insert_spec (words acc : list string) :
  increasing acc ->
  increasing (fold_left (fun s word => set_insert word s) words acc) /\
  forall word,
    In word (fold_left (fun s word => set_insert word s) words acc)
    <-> In word acc \/ In word words.
Proof.
  revert acc. induction words as [|w words IH]; intros acc Hacc; simpl.
  - split; [exact Hacc | intros word; tauto].
  - destruct (IH (set_insert w acc) (increasing_set_insert w acc Hacc))
      as [Hinc Hin].
    split; [exact Hinc|].
    intros word. rewrite Hin, set_insert_In. intuition.
Qed.

Lemma Legacy_stop_words_increasing s :
  Legacy.reachable s -> increasing (Legacy.stop_words_ s).
Proof.
  induction 1 as [|text s _ IH|document_id document s _ IH]; simpl.
  - exact I.
  - now apply fold_set_insert_spec.
  - exact IH.
Qed.

Lemma Legacy_SplitIntoWordsNoStop_loop s (split words : list string) :
  fold_left
    (fun words word =>
       if negb (Legacy.IsStopWord s word) then words ++ [word] else words)
    split words
  = words ++ filter (fun word => negb (Legacy.IsStopWord s word)) split.
Proof.
  revert words. induction split as [|w split IH]; intros words; simpl.
  - now rewrite app_nil_r.
  - rewrite IH. destruct (negb (Legacy.IsStopWord s w)); [|reflexivity].
    now rewrite <- app_assoc.
Qed.

Lemma Legacy_SplitIntoWordsNoStop_filter s text :
  Legacy.SplitIntoWordsNoStop s text = Legacy.indexed_words s text.
Proof. apply (Legacy_SplitIntoWordsNoStop_loop s _ []). Qed.

(** X24. [SetStopWords] of the first version adds to the stop words that
    are there and replaces none: on a server made by the operations, a word
    is a stop word afterwards exactly when it was one or is a word of the
    text.  The index and the document count stay as they are, so words of
    documents added earlier stay indexed. *)
Theorem Legacy_SetStopWords_adds text s :
  Legacy.reachable s ->
  (forall word,
     Legacy.IsStopWord (Legacy.SetStopWords text s) word = true
     <-> Legacy.IsStopWord s word = true \/ In word (SplitIntoWords text)) /\
  Legacy.word_to_document_freqs_ (Legacy.SetStopWords text s)
  = Legacy.word_to_document_freqs_ s /\
  Legacy.document_count_ (Legacy.SetStopWords text s) = Legacy.document_count_ s.
Proof.
  intros Hreach. split; [|split; reflexivity].
  pose proof (Legacy_stop_words_increasing s Hreach) as Hinc.
  destruct (fold_set_insert_spec (SplitIntoWords text) _ Hinc) as [Hinc' Hin].
  intros word. unfold Legacy.IsStopWord.
  rewrite (set_count_In_iff word _ Hinc), <- Hin.
  apply set_count_In_iff. exact Hinc'.
Qed.

Lemma Legacy_SetStopWords_adds_witness :
  (forall word,
     Legacy.IsStopWord (Legacy.SetStopWords "of on" Legacy.example_server) word = true
     <-> Legacy.IsStopWord Legacy.example_server word = true
         \/ In word (SplitIntoWords "of on")) /\
  Legacy.word_to_document_freqs_ (Legacy.SetStopWords "of on" Legacy.example_server)
  = Legacy.word_to_document_freqs_ Legacy.example_server /\
  Legacy.document_count_ (Legacy.SetStopWords "of on" Legacy.example_server)
  = Legacy.document_count_ Legacy.example_server.
Proof.
  apply (Legacy_SetStopWords_adds "of on" Legacy.example_server).
  repeat constructor.
Defined.

Lemma Legacy_ParseQuery_loop words query0 :
  increasing (Legacy.plus_query_words query0) ->
  increasing (Legacy.minus_query_words query0) ->
  let query :=
    fold_left
      (fun query_words word =>
         if Ascii.eqb (string_front word) minus
         then {| Legacy.plus_query_words := Legacy.plus_query_words query_words;
                 Legacy.minus_query_words :=
                   set_insert (substr1 word)
                     (Legacy.minus_query_words query_words) |}
         else {| Legacy.plus_query_words :=
                   set_insert word (Legacy.plus_query_words query_words);
                 Legacy.minus_query_words :=
                   Legacy.minus_query_words query_words |})
      words query0 in
  increasing (Legacy.plus_query_words query) /\
  increasing (Legacy.minus_query_words query) /\
  (forall word,
     In word (Legacy.plus_query_words query)
     <-> In word (Legacy.plus_query_words query0)
         \/ (In word words /\ starts_with_minus word = false)) /\
  (forall word,
     In word (Legacy.minus_query_words query)
     <-> In word (Legacy.minus_query_words query0)
         \/ In (String minus word) words).
Proof.
  revert query0. induction words as [|w words IH]; intros query0 Hplus Hminus.
  - simpl. split; [exact Hplus|]. split; [exact Hminus|]. intuition.
  - cbn [fold_left]. cbv zeta in IH |- *.
    destruct (Ascii.eqb (string_front w) minus) eqn:Hfront.
    + assert (Hw : w = String minus (substr1 w)).
      { destruct w as [|c w]; [discriminate|].
        simpl in Hfront. apply Ascii.eqb_eq in Hfront. now subst c. }
      match goal with
      | |- context [fold_left _ words ?q] =>
          destruct (IH q) as (H1 & H2 & H3 & H4);
            [exact Hplus | now apply increasing_set_insert |]
      end.
      split; [exact H1|]. split; [exact H2|]. split.
      * intros word. rewrite H3. cbn [Legacy.plus_query_words]. simpl In.
        assert (Hne : w = word -> starts_with_minus word = false -> False).
        { intros <-. unfold starts_with_minus. congruence. }
        tauto.
      * intros word. rewrite H4. cbn [Legacy.minus_query_words].
        rewrite set_insert_In. simpl In.
        assert (Heq : word = substr1 w <-> w = String minus word).
        { split; [intros ->; exact Hw | intros ->; reflexivity]. }
        tauto.
    + match goal with
      | |- context [fold_left _ words ?q] =>
          destruct (IH q) as (H1 & H2 & H3 & H4);
            [now apply increasing_set_insert | exact Hminus |]
      end.
      split; [exact H1|]. split; [exact H2|]. split.
      * intros word. rewrite H3. cbn [Legacy.plus_query_words].
        rewrite set_insert_In. simpl In.
        assert (Heq : word = w <-> w = word /\ starts_with_minus word = false).
        { split; [intros ->; now split | intros [-> _]; reflexivity]. }
        tauto.
      * intros word. rewrite H4. cbn [Legacy.minus_query_words]. simpl In.
        assert (Hne : w = String minus word -> False).
        { intros ->. simpl in Hfront. discriminate. }
        tauto.
Qed.

(** X25. [ParseQuery] of the first version takes every text: it drops the
    stop words first and strips the [-] after that.  The plus words are the
    words of the text that are not stop words and do not begin with [-]; the
    minus words are what follows the [-] in the words that begin with one
    and are not, with their [-], stop words.  So [-] alone gives the empty
    minus word, [--cat] the minus word [-cat], and a stop word behind a [-]
    stays a minus word.  Both sets are strictly increasing. *)
Theorem Legacy_ParseQuery_words s text :
  increasing (Legacy.plus_query_words (Legacy.ParseQuery s text)) /\
  increasing (Legacy.minus_query_words (Legacy.ParseQuery s text)) /\
  (forall word,
     In word (Legacy.plus_query_words (Legacy.ParseQuery s text))
     <-> In word (SplitIntoWords text)
         /\ Legacy.IsStopWord s word = false
         /\ starts_with_minus word = false) /\
  (forall word,
     In word (Legacy.minus_query_words (Legacy.ParseQuery s text))
     <-> In (String minus word) (SplitIntoWords text)
         /\ Legacy.IsStopWord s (String minus word) = false).
Proof.
  unfold Legacy.ParseQuery. rewrite Legacy_SplitIntoWordsNoStop_filter.
  destruct (Legacy_ParseQuery_loop (Legacy.indexed_words s text)
              {| Legacy.plus_query_words := []; Legacy.minus_query_words := [] |}
              I I) as (H1 & H2 & H3 & H4).
  split; [exact H1|]. split; [exact H2|]. split.
  - intros word. rewrite H3. unfold Legacy.indexed_words.
    rewrite filter_In, negb_true_iff. simpl. tauto.
  - intros word. rewrite H4. unfold Legacy.indexed_words.
    rewrite filter_In, negb_true_iff. simpl. tauto.
Qed.

(** X26. [AddDocument] of the first version checks nothing: it counts the
    document and adds, for every occurrence of a word of the text that is
    not a stop word, one over the number of such words to the term frequency
    that the index holds for the word and the id, so that adding an id again
    adds to its frequencies.  The frequencies of other ids and the stop words
    stay as they are. *)
Theorem Legacy_AddDocument_index document_id document s :
  (forall word d,
     Legacy.term_freq (Legacy.AddDocument document_id document s) word d
     = if d =? document_id
       then match count_occ string_dec (Legacy.indexed_words s document) word with
            | O => Legacy.term_freq s word d
            | S k =>
                Some (Nat.iter (S k)
                        (fun freq =>
                           (freq + 1 / double_of_size
                                         (List.length
                                            (Legacy.indexed_words s document)))%float)
                        (or_zero (Legacy.term_freq s word d)))
            end
       else Legacy.term_freq s word d) /\
  Legacy.document_count_ (Legacy.AddDocument document_id document s)
  = to_int (Legacy.document_count_ s + 1) /\
  Legacy.stop_words_ (Legacy.AddDocument document_id document s)
  = Legacy.stop_words_ s.
Proof.
  split; [|split; reflexivity].
  intros word d. unfold Legacy.term_freq, Legacy.AddDocument.
  cbn [Legacy.word_to_document_freqs_].
  rewrite Legacy_SplitIntoWordsNoStop_filter.
  rewrite term_freq_fold_add_word_freq.
  destruct (d =? document_id); [|reflexivity].
  apply fold_repeated_sum.
Qed.

Lemma Legacy_ignore_postings_spec postings ignored :
  increasing ignored ->
  increasing (Legacy.ignore_postings postings ignored) /\
  forall d,
    In d (Legacy.ignore_postings postings ignored)
    <-> In d ignored \/ existsb (fun posting => fst posting =? d) postings = true.
Proof.
  revert ignored. induction postings as [|p postings IH]; intros ignored Hinc.
  - simpl. split; [exact Hinc|]. intros d. intuition discriminate.
  - unfold Legacy.ignore_postings. cbn [fold_left existsb].
    destruct (IH (set_insert (fst p) ignored) (increasing_set_insert _ _ Hinc))
      as [Hinc' Hin].
    split; [exact Hinc'|].
    intros d. unfold Legacy.ignore_postings in Hin. rewrite Hin.
    rewrite set_insert_In, orb_true_iff, Z.eqb_eq.
    intuition.
Qed.

Lemma Legacy_ignore_minus_words_spec s words ignored :
  increasing ignored ->
  exists ignored',
    Legacy.ignore_minus_words s words ignored = Ok ignored' /\
    increasing ignored' /\
    forall d,
      In d ignored'
      <-> In d ignored \/ existsb (Legacy.has_posting s d) words = true.
Proof.
  revert ignored. induction words as [|word words IH]; intros ignored Hinc.
  - exists ignored. split; [reflexivity|]. split; [exact Hinc|].
    intros d. simpl. intuition discriminate.
  - cbn [Legacy.ignore_minus_words existsb].
    unfold map_count, map_at, Legacy.has_posting.
    destruct (map_find word (Legacy.word_to_document_freqs_ s)) as [postings|];
      cbn [Nat.eqb negb bind].
    + destruct (Legacy_ignore_postings_spec postings ignored Hinc) as [Hinc' Hin].
      destruct (IH _ Hinc') as (ignored' & Hrun & Hinc'' & Hin').
      exists ignored'. split; [exact Hrun|]. split; [exact Hinc''|].
      intros d. rewrite Hin', Hin, orb_true_iff.
      unfold Legacy.has_posting. tauto.
    + destruct (IH _ Hinc) as (ignored' & Hrun & Hinc'' & Hin').
      exists ignored'. split; [exact Hrun|]. split; [exact Hinc''|].
      intros d. rewrite Hin'. unfold Legacy.has_posting. simpl. tauto.
Qed.

Lemma Legacy_add_relevance_spec idf postings found :
  ordered found ->
  ordered (Legacy.add_relevance idf postings found) /\
  forall d,
    (0 <? map_count d (Legacy.add_relevance idf postings found))%nat
    = (0 <? map_count d found)%nat
      || existsb (fun posting => fst posting =? d) postings.
Proof.
  revert found. induction postings as [|p postings IH]; intros found Hord.
  - simpl. split; [exact Hord|]. intros d. now rewrite orb_false_r.
  - unfold Legacy.add_relevance. cbn [fold_left existsb].
    match goal with
    | |- context [fold_left _ postings ?m] =>
        destruct (IH m (ordered_update _ _ _ Hord)) as [Hord' Hcount]
    end.
    split; [exact Hord'|].
    intros d. unfold Legacy.add_relevance in Hcount. rewrite Hcount.
    unfold map_count at 1.
    destruct (Z.eqb_spec (fst p) d) as [<- | Hne].
    + rewrite map_find_update_same. simpl. now rewrite orb_true_r.
    + rewrite map_find_update_other by congruence.
      fold (map_count d found). now rewrite orb_false_l.
Qed.

Lemma ordered_map_count (d : Z) (m : list (Z * float)) :
  ordered m -> ((0 <? map_count d m)%nat = true <-> In d (map fst m)).
Proof.
  intros Hord. unfold map_count. rewrite in_map_iff. split.
  - destruct (map_find d m) as [r|] eqn:Hfind; [|discriminate].
    intros _. exists (d, r). split; [reflexivity | now apply map_find_In].
  - intros ([d' r] & <- & Hin). simpl.
    now rewrite (In_map_find _ _ _ Hord Hin).
Qed.

Lemma Legacy_collect_documents_ids found ignored :
  map Legacy.id (Legacy.collect_documents found ignored)
  = filter (fun d => (set_count d ignored =? 0)%nat) (map fst found).
Proof.
  unfold Legacy.collect_documents.
  assert (Hloop : forall matched,
            map Legacy.id
              (fold_left
                 (fun matched_documents entry =>
                    if (set_count (fst entry) ignored =? 0)%nat
                    then matched_documents
                         ++ [{| Legacy.id := fst entry;
                                Legacy.relevance := snd entry |}]
                    else matched_documents)
                 found matched)
            = map Legacy.id matched
              ++ filter (fun d => (set_count d ignored =? 0)%nat) (map fst found)).
  { induction found as [|[d r] found IH]; intros matched; simpl.
    - now rewrite app_nil_r.
    - rewrite IH. destruct (set_count d ignored =? 0)%nat; [|reflexivity].
      rewrite map_app, <- app_assoc. reflexivity. }
  exact (Hloop []).
Qed.

Section LegacyRanking.
Context `{Cmath} `{Algorithm} `{!AlgorithmSpec}.

Lemma Legacy_add_plus_words_spec s words found :
  ordered found ->
  exists found',
    Legacy.add_plus_words s words found = Ok found' /\
    ordered found' /\
    forall d,
      (0 <? map_count d found')%nat
      = (0 <? map_count d found)%nat || existsb (Legacy.has_posting s d) words.
Proof.
  revert found. induction words as [|word words IH]; intros found Hord.
  - exists found. split; [reflexivity|]. split; [exact Hord|].
    intros d. simpl. now rewrite orb_false_r.
  - cbn [Legacy.add_plus_words existsb].
    unfold map_count at 1, map_at, Legacy.has_posting at 1.
    destruct (map_find word (Legacy.word_to_document_freqs_ s)) as [postings|];
      cbn [Nat.eqb negb bind].
    + match goal with
      | |- context [Legacy.add_relevance ?idf postings found] =>
          destruct (Legacy_add_relevance_spec idf postings found Hord)
            as [Hord' Hcount]
      end.
      destruct (IH _ Hord') as (found' & Hrun & Hord'' & Hcount').
      exists found'. split; [exact Hrun|]. split; [exact Hord''|].
      intros d. rewrite Hcount', Hcount. now rewrite orb_assoc.
    + destruct (IH _ Hord) as (found' & Hrun & Hord'' & Hcount').
      exists found'. split; [exact Hrun|]. split; [exact Hord''|].
      intros d. rewrite Hcount'. reflexivity.
Qed.

Lemma Legacy_FindAllDocuments_spec s query_words :
  exists matched_documents,
    Legacy.FindAllDocuments s query_words = Ok matched_documents /\
    increasing (map Legacy.id matched_documents) /\
    forall d,
      In d (map Legacy.id matched_documents)
      <-> Legacy.answers s query_words d = true.
Proof.
  unfold Legacy.FindAllDocuments.
  destruct (Legacy_ignore_minus_words_spec s
              (Legacy.minus_query_words query_words) [] I)
    as (ignored & Hrun1 & Hinc & Hignored).
  rewrite Hrun1. cbn [bind].
  destruct (Legacy_add_plus_words_spec s
              (Legacy.plus_query_words query_words) [] I)
    as (found & Hrun2 & Hord & Hfound).
  rewrite Hrun2. cbn [bind].
  eexists. split; [reflexivity|].
  rewrite Legacy_collect_documents_ids. split.
  - apply increasing_filter. now apply ordered_increasing.
  - intros d. rewrite filter_In, <- (ordered_map_count d found Hord), Hfound.
    unfold Legacy.answers. simpl orb.
    rewrite andb_true_iff, negb_true_iff.
    assert (Hcount : (set_count d ignored =? 0)%nat = true
                     <-> existsb (Legacy.has_posting s d)
                           (Legacy.minus_query_words query_words) = false).
    { pose proof (set_count_In_iff d ignored Hinc) as Hset.
      rewrite Hignored in Hset. simpl in Hset.
      destruct (existsb (Legacy.has_posting s d)
                  (Legacy.minus_query_words query_words)).
      - assert (Hpos : (0 <? set_count d ignored)%nat = true)
          by (apply Hset; now right).
        apply Nat.ltb_lt in Hpos. split; [|discriminate].
        intros Hzero. apply Nat.eqb_eq in Hzero. lia.
      - split; [reflexivity|]. intros _. apply Nat.eqb_eq.
        destruct (0 <? set_count d ignored)%nat eqn:Hpos.
        + destruct (proj1 Hset eq_refl) as [[] | Hfalse]. discriminate.
        + apply Nat.ltb_ge in Hpos. lia. }
    tauto.
Qed.

(** X27. [FindTopDocuments] of the first version returns in every state of
    the server and for every text, the empty one included: its lookups in
    the index are guarded.  It returns five documents at most and none
    twice; every document it returns answers the query (a plus word has a
    posting for it and no minus word has one), and a document that answers
    the query is left out only when five are returned. *)
Theorem Legacy_FindTopDocuments_returns s raw_query :
  exists documents,
    Legacy.FindTopDocuments s raw_query = Ok documents /\
    (List.length documents <= Legacy.MAX_RESULT_DOCUMENT_COUNT)%nat /\
    NoDup (map Legacy.id documents) /\
    (forall document,
       In document documents ->
       Legacy.answers s (Legacy.ParseQuery s raw_query) (Legacy.id document) = true) /\
    (forall d,
       Legacy.answers s (Legacy.ParseQuery s raw_query) d = true ->
       In d (map Legacy.id documents)
       \/ List.length documents = Legacy.MAX_RESULT_DOCUMENT_COUNT).
Proof.
  unfold Legacy.FindTopDocuments.
  destruct (Legacy_FindAllDocuments_spec s (Legacy.ParseQuery s raw_query))
    as (matched & Hall & Hinc & Hanswer).
  rewrite Hall. cbn [bind]. cbv zeta.
  match goal with
  | |- context [sort ?comp matched] =>
      pose proof (sort_permutation _ comp matched) as Hperm;
      revert Hperm; generalize (sort comp matched); intros sorted Hperm
  end.
  assert (Hids : Permutation (map Legacy.id matched) (map Legacy.id sorted))
    by (apply Permutation_map, Permutation_sym, Hperm).
  eexists. split; [reflexivity|].
  unfold Legacy.MAX_RESULT_DOCUMENT_COUNT.
  destruct (5 <? List.length sorted)%nat eqn:Hmany.
  - apply Nat.ltb_lt in Hmany.
    split; [rewrite length_firstn; lia|]. split; [|split].
    + pose proof (Permutation_NoDup Hids (increasing_NoDup _ Hinc)) as Hnodup.
      rewrite <- (firstn_skipn 5 sorted), map_app in Hnodup.
      now apply NoDup_app_remove_r in Hnodup.
    + intros document Hin. apply In_firstn in Hin. apply Hanswer.
      apply (Permutation_in _ (Permutation_sym Hids)). now apply in_map.
    + intros d _. right. rewrite length_firstn. lia.
  - apply Nat.ltb_ge in Hmany.
    split; [exact Hmany|]. split; [|split].
    + exact (Permutation_NoDup Hids (increasing_NoDup _ Hinc)).
    + intros document Hin. apply Hanswer.
      apply (Permutation_in _ (Permutation_sym Hids)). now apply in_map.
    + intros d Hd. left. apply (Permutation_in _ Hids). now apply Hanswer.
Qed.

End LegacyRanking.


Lemma Legacy_FindTopDocuments_returns_witness :
  exists documents,
    @Legacy.FindTopDocuments Cmath_series Algorithm_insertion
      Legacy.example_server "white -cat" = Ok documents /\
    (List.length documents <= Legacy.MAX_RESULT_DOCUMENT_COUNT)%nat /\
    NoDup (map Legacy.id documents) /\
    (forall document,
       In document documents ->
       Legacy.answers Legacy.example_server
         (Legacy.ParseQuery Legacy.example_server "white -cat")
         (Legacy.id document) = true) /\
    (forall d,
       Legacy.answers Legacy.example_server
         (Legacy.ParseQuery Legacy.example_server "white -cat") d = true ->
       In d (map Legacy.id documents)
       \/ List.length documents = Legacy.MAX_RESULT_DOCUMENT_COUNT).
Proof.
  exact (@Legacy_FindTopDocuments_returns Cmath_series Algorithm_insertion
           AlgorithmSpec_insertion Legacy.example_server "white -cat").
Defined.


(** ** A document that was added is found *)

Lemma SplitIntoWords_token word : is_token word -> SplitIntoWords word = [word].
Proof.
  intros Htoken.
  exact (SplitIntoWords_loop_join [word] [] (Forall_cons _ Htoken (Forall_nil _))).
Qed.

Lemma AddDocument_has_posting document_id document status ratings s s' word :
  AddDocument document_id document status ratings s = (Ok tt, s') ->
  In word (indexed_words s document) ->
  has_posting s' document_id word = true.
Proof.
  intros Hadd Hin.
  destruct (AddDocument_Ok_inv _ _ _ _ _ _ Hadd) as (_ & _ & words & Hsplit & ->).
  apply SplitIntoWordsNoStop_loop_Ok in Hsplit. simpl in Hsplit.
  fold (indexed_words s document) in Hsplit. subst words.
  apply has_posting_term_freq. unfold term_freq. cbn [word_to_document_freqs_].
  rewrite term_freq_fold_add_word_freq, Z.eqb_refl, fold_repeated_sum.
  destruct (count_occ string_dec (indexed_words s document) word) eqn:Hcount.
  - exfalso. revert Hin. apply (count_occ_not_In string_dec). exact Hcount.
  - discriminate.
Qed.

Lemma ParseQueryWord_plus s word :
  IsValidWord word = true ->
  starts_with_minus word = false ->
  ParseQueryWord s word
  = Ok {| data := word; is_minus := false; is_stop := IsStopWord s word |}.
Proof.
  intros Hvalid Hfront. unfold ParseQueryWord.
  unfold starts_with_minus in Hfront. now rewrite Hvalid, Hfront.
Qed.

Section AddedDocuments.
Context `{Cmath} `{Algorithm} `{!AlgorithmSpec}.

(** A document that answers the query is among the results unless five are
    returned. *)
Lemma FindTopDocuments_complete s raw_query document_predicate query document_id :
  well_formed s ->
  raw_query <> EmptyString ->
  ParseQuery s raw_query = Ok query ->
  answers s document_predicate query document_id = true ->
  exists documents,
    FindTopDocuments s raw_query document_predicate = Ok documents /\
    (In document_id (map id documents)
     \/ List.length documents = MAX_RESULT_DOCUMENT_COUNT).
Proof.
  intros Hwf Hraw Hparse Hanswer.
  destruct (FindTopDocuments_returns s raw_query document_predicate query
              Hwf Hraw Hparse) as (matched & Hall & Htop).
  eexists. split; [exact Htop|].
  apply (answers_FindAllDocuments _ _ _ _ Hwf Hall) in Hanswer.
  pose proof (sort_permutation _ by_relevance matched) as Hperm.
  revert Hperm. generalize (sort by_relevance matched). intros sorted Hperm.
  destruct (Nat.le_gt_cases (List.length sorted) MAX_RESULT_DOCUMENT_COUNT)
    as [Hfew | Hmany].
  - left. rewrite firstn_all2 by assumption.
    exact (Permutation_in _ (Permutation_map id (Permutation_sym Hperm)) Hanswer).
  - right. rewrite length_firstn. lia.
Qed.

(** X28. A document that was added is found by its words.  After an
    [AddDocument] that returns on a reachable server, for every word of the
    text that is not a stop word and does not begin with [-]:
    [MatchDocument] with the word as the query and the id returns the word
    and the status given, and [FindTopDocuments] with the word as the query
    returns, for every predicate that accepts the id, the status and the
    average rating, a result that holds the id unless it holds five
    documents. *)
Theorem AddDocument_then_found document_id document status ratings s s' word :
  reachable s ->
  AddDocument document_id document status ratings s = (Ok tt, s') ->
  In word (SplitIntoWords document) ->
  IsStopWord s word = false ->
  starts_with_minus word = false ->
  MatchDocument s' word document_id = Ok ([word], status) /\
  forall document_predicate,
    document_predicate document_id status (ComputeAverageRating ratings) = true ->
    exists documents,
      FindTopDocuments s' word document_predicate = Ok documents /\
      (In document_id (map id documents)
       \/ List.length documents = MAX_RESULT_DOCUMENT_COUNT).
Proof.
  intros Hreach Hadd Hin Hstop Hfront.
  assert (Hreach' : reachable s') by (eapply reachable_add; eauto).
  apply reachable_well_formed in Hreach'.
  assert (Htoken : is_token word).
  { pose proof (SplitIntoWords_loop_tokens document EmptyString []
                  eq_refl (Forall_nil _)) as Htokens.
    rewrite Forall_forall in Htokens. now apply Htokens. }
  assert (Hposting : has_posting s' document_id word = true).
  { apply (AddDocument_has_posting _ _ _ _ _ _ _ Hadd).
    unfold indexed_words. apply filter_In. split; [exact Hin|].
    now rewrite Hstop. }
  destruct (AddDocument_Ok_inv _ _ _ _ _ _ Hadd)
    as (Hid & Hfresh & words & Hsplit & Hs').
  assert (Hvalid : IsValidWord word = true).
  { destruct (IsValidWord word) eqn:Hvalid; [reflexivity|].
    unfold SplitIntoWordsNoStop in Hsplit.
    rewrite (SplitIntoWordsNoStop_loop_invalid s _ [] word Hin Hvalid) in Hsplit.
    discriminate. }
  assert (Hstop' : IsStopWord s' word = false).
  { rewrite Hs'. exact Hstop. }
  assert (Hdata : map_find document_id (documents_ s')
                  = Some {| DocumentData.rating := ComputeAverageRating ratings;
                            DocumentData.status := status |}).
  { rewrite Hs'. cbn [documents_]. unfold map_emplace.
    now rewrite map_find_update_same, Hfresh. }
  assert (Hraw : word <> EmptyString).
  { destruct Htoken as [Hempty _]. intros ->. discriminate. }
  assert (Hparse : ParseQuery s' word
                   = Ok {| plus_words := [word]; minus_words := [] |}).
  { unfold ParseQuery. rewrite (SplitIntoWords_token word Htoken).
    cbn [ParseQuery_loop].
    rewrite (ParseQueryWord_plus s' word Hvalid Hfront), Hstop'. reflexivity. }
  clear Hs'. split.
  - unfold MatchDocument.
    apply Z.ltb_ge in Hid. rewrite Hid, Hparse. cbn [bind].
    rewrite (string_empty_false _ Hraw).
    rewrite match_plus_words_filter. cbn [bind plus_words app filter].
    rewrite Hposting.
    rewrite match_minus_words_existsb. cbn [bind minus_words existsb].
    unfold map_at. rewrite Hdata. reflexivity.
  - intros document_predicate Hpredicate.
    apply (FindTopDocuments_complete s' word document_predicate _ document_id
             Hreach' Hraw Hparse).
    unfold answers, passes. rewrite Hdata. cbn [DocumentData.status DocumentData.rating].
    rewrite Hpredicate. cbn [plus_words minus_words existsb].
    now rewrite Hposting.
Qed.

End AddedDocuments.

Lemma AddDocument_then_found_witness :
  MatchDocument (after_AddDocument 7 "grey cat" BANNED [5; 2; -1] main_server) "grey" 7
  = Ok (["grey"], BANNED) /\
  forall document_predicate,
    document_predicate 7 BANNED (ComputeAverageRating [5; 2; -1]) = true ->
    exists documents,
      @FindTopDocuments Cmath_series Algorithm_insertion
        (after_AddDocument 7 "grey cat" BANNED [5; 2; -1] main_server) "grey"
        document_predicate = Ok documents /\
      (In 7 (map id documents)
       \/ List.length documents = MAX_RESULT_DOCUMENT_COUNT).
Proof.
  apply (@AddDocument_then_found Cmath_series Algorithm_insertion
           AlgorithmSpec_insertion 7 "grey cat" BANNED [5; 2; -1] main_server).
  - exact main_server_reachable.
  - vm_compute. reflexivity.
  - vm_compute. now left.
  - vm_compute. reflexivity.
  - vm_compute. reflexivity.
Defined.

(** ** Stop words in a query *)

Lemma ParseQuery_loop_app s before after query :
  ParseQuery_loop s (before ++ after) query
  = (parsed <- ParseQuery_loop s before query ;; ParseQuery_loop s after parsed).
Proof.
  revert query. induction before as [|w before IH]; intros query; simpl.
  - reflexivity.
  - destruct (ParseQueryWord s w) as [query_word|e]; simpl; [|reflexivity].
    destruct (negb (is_stop query_word)); [destruct (is_minus query_word)|];
      apply IH.
Qed.

Section StopWordsInQueries.
Context `{Cmath} `{Algorithm}.

(** X29. A stop word behind a query changes nothing.  On a reachable
    server, for a query that is not empty and a stop word that has no space
    and does not begin with [-], [FindTopDocuments] and [MatchDocument]
    return or throw for the query, a space and the stop word what they
    return or throw for the query. *)
Theorem FindTopDocuments_stop_word s raw_query stop_word :
  reachable s ->
  raw_query <> EmptyString ->
  is_token stop_word ->
  IsStopWord s stop_word = true ->
  starts_with_minus stop_word = false ->
  (forall document_predicate,
     FindTopDocuments s (raw_query ++ String space stop_word) document_predicate
     = FindTopDocuments s raw_query document_predicate) /\
  (forall document_id,
     MatchDocument s (raw_query ++ String space stop_word) document_id
     = MatchDocument s raw_query document_id).
Proof.
  intros Hreach Hraw Htoken Hstop Hfront.
  apply reachable_well_formed in Hreach.
  pose proof (wf_stop_words s Hreach stop_word Hstop) as Hvalid.
  assert (Hparse : ParseQuery s (raw_query ++ String space stop_word)
                   = ParseQuery s raw_query).
  { unfold ParseQuery, SplitIntoWords.
    rewrite SplitIntoWords_loop_space, SplitIntoWords_loop_words.
    fold (SplitIntoWords stop_word). rewrite (SplitIntoWords_token _ Htoken).
    rewrite ParseQuery_loop_app.
    destruct (ParseQuery_loop s (SplitIntoWords_loop raw_query EmptyString []) _)
      as [query|e]; [|reflexivity].
    cbn [bind ParseQuery_loop].
    rewrite (ParseQueryWord_plus s stop_word Hvalid Hfront), Hstop.
    reflexivity. }
  assert (Hempty : string_empty (raw_query ++ String space stop_word)
                   = string_empty raw_query).
  { destruct raw_query; [congruence | reflexivity]. }
  split.
  - intros document_predicate. unfold FindTopDocuments.
    now rewrite Hparse, Hempty.
  - intros document_id. unfold MatchDocument. now rewrite Hparse, Hempty.
Qed.

End StopWordsInQueries.

Lemma FindTopDocuments_stop_word_witness :
  (forall document_predicate,
     @FindTopDocuments Cmath_series Algorithm_insertion main_server
       ("white -hound" ++ String space "the") document_predicate
     = @FindTopDocuments Cmath_series Algorithm_insertion main_server
         "white -hound" document_predicate) /\
  (forall document_id,
     MatchDocument main_server ("white -hound" ++ String space "the") document_id
     = MatchDocument main_server "white -hound" document_id).
Proof.
  apply (@FindTopDocuments_stop_word Cmath_series Algorithm_insertion
           main_server "white -hound" "the").
  - exact main_server_reachable.
  - discriminate.
  - split; reflexivity.
  - reflexivity.
  - reflexivity.
Defined.

(** ** What MatchDocument returns *)

(** X30. When [MatchDocument] returns, the id is not negative and is
    stored with the status returned, the query is not empty, and the words
    returned are strictly increasing: each of them is a word of the query
    that is not a stop word and does not begin with [-], and has a posting
    for the document. *)
Theorem MatchDocument_words s raw_query document_id words status :
  MatchDocument s raw_query document_id = Ok (words, status) ->
  0 <= document_id /\
  raw_query <> EmptyString /\
  (exists data,
     map_find document_id (documents_ s) = Some data /\
     DocumentData.status data = status) /\
  increasing words /\
  forall word,
    In word words ->
    In word (SplitIntoWords raw_query) /\
    IsStopWord s word = false /\
    starts_with_minus word = false /\
    has_posting s document_id word = true.
Proof.
  unfold MatchDocument.
  destruct (document_id <? 0) eqn:Hid; [discriminate|].
  apply Z.ltb_ge in Hid.
  destruct (ParseQuery s raw_query) as [query|e] eqn:Hparse; [|discriminate].
  cbn [bind].
  destruct (string_empty raw_query) eqn:Hempty; [discriminate|].
  rewrite match_plus_words_filter. cbn [bind app].
  rewrite match_minus_words_existsb. cbn [bind].
  unfold map_at.
  destruct (map_find document_id (documents_ s)) as [data|] eqn:Hdata;
    [|discriminate].
  cbn [bind]. intros Hresult. apply Ok_inj in Hresult.
  injection Hresult as Hwords Hstatus.
  destruct (ParseQuery_loop_words s _ _ _ Hparse I I) as (Hinc & _ & Hplus & _).
  split; [exact Hid|]. split; [intros ->; discriminate|].
  split; [exists data; auto|].
  assert (Hfilter : forall word,
            In word (filter (has_posting s document_id) (plus_words query)) ->
            In word (SplitIntoWords raw_query) /\
            IsStopWord s word = false /\
            starts_with_minus word = false /\
            has_posting s document_id word = true).
  { intros word Hin. apply filter_In in Hin. destruct Hin as [Hin Hposting].
    apply Hplus in Hin. destruct Hin as [[] | (Hin & Hfront & Hstop)]. auto. }
  subst words.
  destruct (existsb (has_posting s document_id) (minus_words query)).
  - split; [exact I | intros word []].
  - split; [now apply increasing_filter | exact Hfilter].
Qed.

Lemma MatchDocument_words_witness :
  0 <= 3 /\
  "white -hound cat the parrot tail" <> EmptyString /\
  (exists data,
     map_find 3 (documents_ main_server) = Some data /\
     DocumentData.status data = ACTUAL) /\
  increasing ["cat"; "tail"; "white"] /\
  forall word,
    In word ["cat"; "tail"; "white"] ->
    In word (SplitIntoWords "white -hound cat the parrot tail") /\
    IsStopWord main_server word = false /\
    starts_with_minus word = false /\
    has_posting main_server 3 word = true.
Proof.
  apply (MatchDocument_words main_server "white -hound cat the parrot tail" 3).
  vm_compute. reflexivity.
Defined.
